(** * Watershed partitioning of wave spectra (wavespectra/core/watershed3.py)

    A shallow embedding of [ptnghb], [specpart], [nppart], [partition],
    [frequency_resolution] and [inflection], and the properties of the
    repository's specification that concern them.

    Conventions of the embedding:
    - Python integers are [Z]; [%] and [//] are [Z.modulo] and [Z.div]
      (both floor towards minus infinity, as in Python).
    - numpy float arrays are lists of rationals [Q] (exact arithmetic); the
      places where IEEE semantics decides the outcome (division by a zero
      range, conversion of NaN to an integer) are written out.
    - Python lists and one-dimensional numpy arrays are [list]s; indexing
      follows Python (negative indices count from the end, anything else out
      of range raises [IndexError]).
    - Exceptions are the [Raise] outcomes of the [result] type. *)

From Stdlib Require Import String ZArith QArith Qabs List Lia Bool Sorted.
Import ListNotations.

Local Open Scope Z_scope.

(** ** Python outcomes

    A call returns a value ([Ok]) or raises ([Raise]). The two [while] loops
    of [specpart] are run for a bounded number of rounds; [OutOfFuel] is the
    outcome of a run the bound cuts short. *)

Inductive exn : Type :=
| ValueError
| IndexError
| KeyError (name : string)
| NameError
| AttributeError
| OverflowError.

Inductive result (A : Type) : Type :=
| Ok (a : A)
| Raise (e : exn)
| OutOfFuel.

Arguments Ok {A} a.
Arguments Raise {A} e.
Arguments OutOfFuel {A}.

Definition bind {A B : Type} (r : result A) (k : A -> result B) : result B :=
  match r with
  | Ok a => k a
  | Raise e => Raise e
  | OutOfFuel => OutOfFuel
  end.

Notation "x <- r ;; k" := (bind r (fun x => k))
  (at level 61, r at next level, right associativity).
Notation "r ;;; k" := (bind r (fun _ => k))
  (at level 61, right associativity).

(** [range(n)] and [range(a, b)]. *)
Definition range (n : Z) : list Z := map Z.of_nat (seq 0 (Z.to_nat n)).
Definition range2 (a b : Z) : list Z := map (fun i => a + Z.of_nat i) (seq 0 (Z.to_nat (b - a))).

(** ** Python and numpy containers *)

(** [l[i]]: a negative index counts from the end. *)
Definition norm_index {A : Type} (l : list A) (i : Z) : option nat :=
  let n := Z.of_nat (length l) in
  let j := if i <? 0 then i + n else i in
  if (0 <=? j) && (j <? n) then Some (Z.to_nat j) else None.

Definition item {A : Type} (l : list A) (i : Z) : result A :=
  match norm_index l i with
  | Some j => match nth_error l j with Some x => Ok x | None => Raise IndexError end
  | None => Raise IndexError
  end.

Fixpoint update {A : Type} (l : list A) (j : nat) (x : A) : list A :=
  match l, j with
  | [], _ => []
  | _ :: t, O => x :: t
  | y :: t, S j' => y :: update t j' x
  end.

(** [l[i] = x]. *)
Definition setitem {A : Type} (l : list A) (i : Z) (x : A) : result (list A) :=
  match norm_index l i with
  | Some j => Ok (update l j x)
  | None => Raise IndexError
  end.

(** [a[idx]] for a list of indices [idx] (fancy indexing). *)
Fixpoint take {A : Type} (a : list A) (idx : list Z) : result (list A) :=
  match idx with
  | [] => Ok []
  | i :: rest => x <- item a i ;; xs <- take a rest ;; Ok (x :: xs)
  end.

(** [a[idx] = x] for a list of indices and one value. *)
Fixpoint put_all {A : Type} (a : list A) (idx : list Z) (x : A) : result (list A) :=
  match idx with
  | [] => Ok a
  | i :: rest => a' <- setitem a i x ;; put_all a' rest x
  end.

(** [a[idx] = vals] for a list of indices and as many values. *)
Fixpoint put_each {A : Type} (a : list A) (idx : list Z) (vals : list A) : result (list A) :=
  match idx, vals with
  | [], [] => Ok a
  | i :: rest, v :: vs => a' <- setitem a i v ;; put_each a' rest vs
  | _, _ => Raise ValueError
  end.

(** [l.pop(0)]. *)
Definition pop0 {A : Type} (l : list A) : result (A * list A) :=
  match l with
  | [] => Raise IndexError
  | x :: t => Ok (x, t)
  end.

(** [l[a:b]] for bounds that are not negative. *)
Definition slice {A : Type} (l : list A) (a b : Z) : list A :=
  firstn (Z.to_nat (b - a)) (skipn (Z.to_nat a) l).

(** A two-dimensional numpy array: its shape and its elements in row-major
    order ([flatten]). *)
Record array2 (A : Type) : Type := mkArray2 {
  nrows : Z;
  ncols : Z;
  flatten : list A
}.

Arguments mkArray2 {A} nrows ncols flatten.
Arguments nrows {A} a.
Arguments ncols {A} a.
Arguments flatten {A} a.

Definition size {A : Type} (a : array2 A) : Z := nrows a * ncols a.

(** [a.reshape(like.shape)]. *)
Definition reshape_like {A B : Type} (l : list A) (like : array2 B) : array2 A :=
  mkArray2 (nrows like) (ncols like) l.

Definition well_shaped {A : Type} (a : array2 A) : Prop :=
  0 <= nrows a /\ 0 <= ncols a /\ Z.of_nat (length (flatten a)) = size a.

(** ** Rational stand-ins for the float operations *)

Definition Qleb (x y : Q) : bool := Qle_bool x y.
Definition Qltb (x y : Q) : bool := negb (Qle_bool y x).

(** [a.min()] and [a.max()]: numpy raises ValueError on an empty array. *)
Definition amin (l : list Q) : result Q :=
  match l with
  | [] => Raise ValueError
  | x :: t => Ok (fold_left (fun m y => if Qltb y m then y else m) t x)
  end.

Definition amax (l : list Q) : result Q :=
  match l with
  | [] => Raise ValueError
  | x :: t => Ok (fold_left (fun m y => if Qltb m y then y else m) t x)
  end.

(** [np.around]: to the nearest integer, halves to the even neighbour. *)
Definition around (q : Q) : Z :=
  let n := Qnum q in
  let d := Z.pos (Qden q) in
  let f := n / d in
  let r := n mod d in
  match 2 * r ?= d with
  | Lt => f
  | Gt => f + 1
  | Eq => if Z.even f then f else f + 1
  end.

(** [a.argsort()]: the indices that sort [a] ascending. numpy's default sort
    leaves the order of equal keys unspecified; the model keeps equal keys in
    index order (what its insertion sort does on short arrays). *)
Fixpoint insert_key (key : Z -> Q) (i : Z) (l : list Z) : list Z :=
  match l with
  | [] => [i]
  | j :: t => if Qleb (key i) (key j) then i :: l else j :: insert_key key i t
  end.

Definition argsort (a : list Q) : list Z :=
  let key i := nth (Z.to_nat i) a 0%Q in
  fold_right (insert_key key) [] (range (Z.of_nat (length a))).

(** [a.argmin()]: the first index of the least element. *)
Fixpoint argmin_from (l : list Q) (i : Z) (best : Z) (bestv : Q) : Z :=
  match l with
  | [] => best
  | x :: t => if Qltb x bestv then argmin_from t (i + 1) i x
              else argmin_from t (i + 1) best bestv
  end.

Definition argmin (l : list Q) : result Z :=
  match l with
  | [] => Raise ValueError
  | x :: t => Ok (argmin_from t 1 0 x)
  end.

(** Python's [any] over integers: some element is not zero. *)
Definition any_truthy (l : list Z) : bool := existsb (fun i => negb (i =? 0)) l.

(** ** Neighbour topology: [ptnghb] *)

Module Topology.

(** The body of the loop [for n in range(nspec)]: the list appended to
    [neigh[n]], in the order of the source. *)
Definition neighbours (nk nth n : Z) : list Z :=
  let ith := n mod nth in
  let ik := n / nth in
  let l := [] in
  (* ... point at the bottom *)
  let l := if 0 <? ik then l ++ [n - nth] else l in
  (* ... point at the top *)
  let l := if ik <? nk - 1 then l ++ [n + nth] else l in
  (* ... point at the left, with wrap *)
  let l := if 0 <? ith then l ++ [n - 1] else l ++ [n - 1 + nth] in
  (* ... point at the right, with wrap *)
  let l := if ith <? nth - 1 then l ++ [n + 1] else l ++ [n + 1 - nth] in
  (* ... point at the bottom-left, with wrap *)
  let l := if (0 <? ik) && (0 <? ith) then l ++ [n - nth - 1]
           else if (0 <? ik) && (ith =? 0) then l ++ [n - nth - 1 + nth]
           else l in
  (* ... point at the top-left, with wrap *)
  let l := if (ik <? nk - 1) && (0 <? ith) then l ++ [n + nth - 1]
           else if (ik <? nk - 1) && (ith =? 0) then l ++ [n + nth - 1 + nth]
           else l in
  (* ... point at the bottom-right, with wrap *)
  let l := if (0 <? ik) && (ith <? nth - 1) then l ++ [n - nth + 1]
           else if (0 <? ik) && (ith =? nth - 1) then l ++ [n - nth + 1 - nth]
           else l in
  (* ... point at the top-right, with wrap *)
  let l := if (ik <? nk - 1) && (ith <? nth - 1) then l ++ [n + nth + 1]
           else if (ik <? nk - 1) && (ith =? nth - 1) then l ++ [n + nth + 1 - nth]
           else l in
  l.

Definition ptnghb (nk nth : Z) : list (list Z) :=
  let nspec := nk * nth in
  map (neighbours nk nth) (range nspec).

(** Frequency row and direction column of a linear bin index. *)
Definition row (nth n : Z) : Z := n / nth.
Definition col (nth n : Z) : Z := n mod nth.

(** The linear index of the bin in row [ik] and (wrapped) column [ith]. *)
Definition bin_at (nth ik ith : Z) : Z := ik * nth + ith mod nth.

Definition is_bin (nk nth n : Z) : Prop := 0 <= n < nk * nth.

(** [b] is listed among the neighbours of [a] by [ptnghb nk nth]. *)
Definition linked (nk nth a b : Z) : Prop :=
  exists l, nth_error (ptnghb nk nth) (Z.to_nat a) = Some l /\ In b l.

(** The rules of the specification, in grid coordinates: the vertical
    neighbours exist where the row exists (no wrap in frequency), the
    horizontal ones always (wrap in direction), the diagonals combine both. *)
Definition when (c : bool) (x : Z) : list Z := if c then [x] else [].

Definition neighbours_by_rule (nk nth n : Z) : list Z :=
  let ik := row nth n in
  let ith := col nth n in
  when (0 <? ik) (bin_at nth (ik - 1) ith)
  ++ when (ik <? nk - 1) (bin_at nth (ik + 1) ith)
  ++ [bin_at nth ik (ith - 1)]
  ++ [bin_at nth ik (ith + 1)]
  ++ when (0 <? ik) (bin_at nth (ik - 1) (ith - 1))
  ++ when (ik <? nk - 1) (bin_at nth (ik + 1) (ith - 1))
  ++ when (0 <? ik) (bin_at nth (ik - 1) (ith + 1))
  ++ when (ik <? nk - 1) (bin_at nth (ik + 1) (ith + 1)).

(** [b] is one step away from [n]: at most one row up or down, at most one
    column left or right modulo [nth], and not [n]'s own offset. *)
Definition adjacent (nk nth n b : Z) : Prop :=
  exists di dj : Z,
    -1 <= di <= 1 /\ -1 <= dj <= 1 /\ (di <> 0 \/ dj <> 0) /\
    0 <= row nth n + di < nk /\
    b = bin_at nth (row nth n + di) (col nth n + dj).

(** The neighbour list of bin [n] as a set: at most 8 entries, pairwise
    distinct, none of them [n]. *)
Definition distinct_without_self (nk nth n : Z) : Prop :=
  exists l, nth_error (ptnghb nk nth) (Z.to_nat n) = Some l /\
            (length l <= 8)%nat /\ NoDup l /\ ~ In n l.

(** No link joins the first frequency row to the last one. *)
Definition end_rows_unlinked (nk nth : Z) : Prop :=
  forall a b, is_bin nk nth a -> linked nk nth a b ->
              ~ (row nth a = 0 /\ row nth b = nk - 1).

End Topology.

(** ** Watershed labelling: [specpart] *)

Module Watershed.

Import Topology.

(** The arrays and the queue the level loop works on. [m_var] is the Python
    variable [m], unbound until the first pass of the loop of step 1.a. *)
Record state : Type := mkState {
  imo : list Z;       (* mask = -2, init = -1, iwshed = 0 *)
  imd : list Z;
  iq1 : list Z;
  ic_label : Z;
  mstart : Z;
  m_var : option Z
}.

Definition ifict_pixel : Z := -100.

Definition set_imo (st : state) (v : list Z) : state :=
  mkState v (imd st) (iq1 st) (ic_label st) (mstart st) (m_var st).
Definition set_imd (st : state) (v : list Z) : state :=
  mkState (imo st) v (iq1 st) (ic_label st) (mstart st) (m_var st).
Definition set_iq1 (st : state) (v : list Z) : state :=
  mkState (imo st) (imd st) v (ic_label st) (mstart st) (m_var st).
Definition set_ic_label (st : state) (v : Z) : state :=
  mkState (imo st) (imd st) (iq1 st) v (mstart st) (m_var st).
Definition set_mstart (st : state) (v : Z) : state :=
  mkState (imo st) (imd st) (iq1 st) (ic_label st) v (m_var st).
Definition set_m_var (st : state) (v : option Z) : state :=
  mkState (imo st) (imd st) (iq1 st) (ic_label st) (mstart st) v.

Section Labelling.

(** What the cast [astype(int)] makes of NaN: numpy leaves it to the
    platform (the least int64 on x86-64). *)
Variable nan_to_int : Z.

(** [imi = np.around(zp * fact).astype(int)] with
    [fact = (ihmax - 1) / (zmax - zmin)]. When [zmax = zmin] the float
    division by zero gives inf or NaN without raising, every [zp] is 0, the
    product is NaN and the cast yields [nan_to_int]. *)
Definition levels (zp : list Q) (ihmax : Z) (zmin zmax : Q) : list Z :=
  if Qeq_bool zmax zmin then map (fun _ => nan_to_int) zp
  else
    let fact := (inject_Z (ihmax - 1) / (zmax - zmin))%Q in
    map (fun z => around (z * fact)%Q) zp.

Section Levels.

Variable neigh : list (list Z).
Variable imi : list Z.
Variable ind : list Z.
Variable zp : list Q.

(** Step 1.a, [for m in range(mstart, nspec)]: flag the pixels at level [ih];
    the loop variable keeps the value at which the loop breaks or ends. *)
Fixpoint flag_level (ih : Z) (ms : list Z) (st : state) : result state :=
  match ms with
  | [] => Ok st
  | m :: rest =>
      let st := set_m_var st (Some m) in
      ip <- item ind m ;;
      lv <- item imi ip ;;
      if negb (lv =? ih) then Ok st
      else
        (* flag the point, if it stays flagged, it is a separate minimum. *)
        imo1 <- setitem (imo st) ip (-2) ;;
        let st := set_imo st imo1 in
        (* if there is neighbor, set distance and add to queue. *)
        nb <- item neigh ip ;;
        labels <- take (imo st) nb ;;
        if existsb (fun v => 0 <=? v) labels then
          imd1 <- setitem (imd st) ip 1 ;;
          flag_level ih rest (set_iq1 (set_imd st imd1) (iq1 st ++ [ip]))
        else flag_level ih rest st
  end.

(** The body of [for ipp in neigh[ip]] in step 1.b. *)
Definition visit (ip ic_dist : Z) (st : state) (ipp : Z) : result state :=
  lpp <- item (imo st) ipp ;;
  dpp <- item (imd st) ipp ;;
  (* check for labeled watersheds or basins *)
  if (0 <=? lpp) && (dpp <? ic_dist) then
    lp <- item (imo st) ip ;;
    if 0 <? lpp then
      if (lp =? -2) || (lp =? 0) then
        imo1 <- setitem (imo st) ip lpp ;; Ok (set_imo st imo1)
      else if negb (lp =? lpp) then
        imo1 <- setitem (imo st) ip 0 ;; Ok (set_imo st imo1)
      else Ok st
    else if lp =? -2 then
      imo1 <- setitem (imo st) ip 0 ;; Ok (set_imo st imo1)
    else Ok st
  else if (lpp =? -2) && (dpp =? 0) then
    imd1 <- setitem (imd st) ipp (ic_dist + 1) ;;
    Ok (set_iq1 (set_imd st imd1) (iq1 st ++ [ipp]))
  else Ok st.

Fixpoint visit_all (ip ic_dist : Z) (nb : list Z) (st : state) : result state :=
  match nb with
  | [] => Ok st
  | ipp :: rest => st1 <- visit ip ic_dist st ipp ;; visit_all ip ic_dist rest st1
  end.

(** Step 1.b, [while True]: one round of the loop per unit of fuel. *)
Fixpoint process_queue (fuel : nat) (ic_dist : Z) (st : state) : result state :=
  match fuel with
  | O => OutOfFuel
  | S fuel' =>
      pq <- pop0 (iq1 st) ;;
      let '(ip, q) := pq in
      (* check for end of processing *)
      if ip =? ifict_pixel then
        match q with
        | [] => Ok (set_iq1 st [])
        | _ =>
            let q := q ++ [ifict_pixel] in
            let ic_dist := ic_dist + 1 in
            pq <- pop0 q ;;
            let '(ip, q) := pq in
            nb <- item neigh ip ;;
            st1 <- visit_all ip ic_dist nb (set_iq1 st q) ;;
            process_queue fuel' ic_dist st1
        end
      else
        nb <- item neigh ip ;;
        st1 <- visit_all ip ic_dist nb (set_iq1 st q) ;;
        process_queue fuel' ic_dist st1
  end.

(** [set([n for i in iq2 for n in neigh[i]])], as a duplicate-free list. *)
Fixpoint neighbour_set (iq2 : list Z) : result (list Z) :=
  match iq2 with
  | [] => Ok []
  | i :: rest =>
      nb <- item neigh i ;;
      ns <- neighbour_set rest ;;
      Ok (nodup Z.eq_dec (nb ++ ns))
  end.

(** [[i for i in iqset if imo[i] == -2]]. *)
Fixpoint masked (imo0 : list Z) (iqset : list Z) : result (list Z) :=
  match iqset with
  | [] => Ok []
  | i :: rest =>
      l <- item imo0 i ;;
      r <- masked imo0 rest ;;
      Ok (if l =? -2 then i :: r else r)
  end.

(** [while iq2], the flood of a new basin over the masked points connected to
    it. *)
Fixpoint flood (fuel : nat) (label : Z) (iq2 : list Z) (imo0 : list Z) : result (list Z) :=
  match iq2 with
  | [] => Ok imo0
  | _ =>
      match fuel with
      | O => OutOfFuel
      | S fuel' =>
          imo1 <- put_all imo0 iq2 label ;;
          iqset <- neighbour_set iq2 ;;
          iq2' <- masked imo1 iqset ;;
          flood fuel' label iq2' imo1
      end
  end.

(** Step 1.c, [for ip in ind[mstart:m]]: check for mask values in imo to
    identify new basins. *)
Fixpoint new_basins (ips : list Z) (st : state) : result state :=
  match ips with
  | [] => Ok st
  | ip :: rest =>
      imd1 <- setitem (imd st) ip 0 ;;
      let st := set_imd st imd1 in
      l <- item (imo st) ip ;;
      if l =? -2 then
        let st := set_ic_label st (ic_label st + 1) in   (* ... new basin *)
        imo1 <- flood (S (length (imo st))) (ic_label st) [ip] (imo st) ;;
        new_basins rest (set_imo st imo1)
      else new_basins rest st
  end.

(** One pass of [for ih in range(ihmax)]. *)
Definition level (nspec : Z) (st : state) (ih : Z) : result state :=
  (* 1.a pixels at level ih *)
  st <- flag_level ih (range2 (mstart st) nspec) st ;;
  (* 1.b process the queue *)
  let ic_dist := 1 in
  let st := set_iq1 st (iq1 st ++ [ifict_pixel]) in
  st <- process_queue (2 * length (imo st) + 2) ic_dist st ;;
  (* 1.c *)
  match m_var st with
  | None => Raise NameError
  | Some m =>
      st <- new_basins (slice ind (mstart st) m) st ;;
      Ok (set_mstart st m)
  end.

Fixpoint all_levels (nspec : Z) (ihs : list Z) (st : state) : result state :=
  match ihs with
  | [] => Ok st
  | ih :: rest => st1 <- level nspec st ih ;; all_levels nspec rest st1
  end.

(** [np.where(imo == 0)[0]]. *)
Definition where_zero (imo0 : list Z) : list Z :=
  filter (fun i => nth (Z.to_nat i) imo0 1 =? 0) (range (Z.of_nat (length imo0))).

(** [[j for j in neigh[jl] if imo[j] != 0]]. *)
Fixpoint labelled (imo0 : list Z) (nb : list Z) : result (list Z) :=
  match nb with
  | [] => Ok []
  | j :: rest =>
      l <- item imo0 j ;;
      r <- labelled imo0 rest ;;
      Ok (if negb (l =? 0) then j :: r else r)
  end.

(** The body of [for jl in watershed0]: the value appended to [newvals]. *)
Definition nearest_label (imo0 : list Z) (jl : Z) : result Z :=
  nb <- item neigh jl ;;
  jnl <- labelled imo0 nb ;;
  if any_truthy jnl then
    zs <- take zp jnl ;;
    z0 <- item zp jl ;;
    ipt <- argmin (map (fun z => Qabs (z - z0)) zs) ;;
    j <- item jnl ipt ;;
    item imo0 j
  else Ok 0.

Fixpoint new_values (imo0 : list Z) (ws : list Z) : result (list Z) :=
  match ws with
  | [] => Ok []
  | jl :: rest =>
      v <- nearest_label imo0 jl ;;
      vs <- new_values imo0 rest ;;
      Ok (v :: vs)
  end.

(** Step 2, [for _ in range(5)]: find nearest neighbor of 0 watershed points
    and replace, storing the changes first to assure symmetry; the loop
    breaks when [any(watershed0)] is false. *)
Fixpoint relax (passes : nat) (imo0 : list Z) : result (list Z) :=
  match passes with
  | O => Ok imo0
  | S passes' =>
      let watershed0 := where_zero imo0 in
      if negb (any_truthy watershed0) then Ok imo0
      else
        newvals <- new_values imo0 watershed0 ;;
        imo1 <- put_each imo0 watershed0 newvals ;;
        relax passes' imo1
  end.

(** Step 2 as the specification words it: a pass reassigns every bin
    labelled 0 that has at least one neighbour with a non-zero label, and up
    to 5 passes run while a bin labelled 0 is left. *)
Definition nearest_label_as_specified (imo0 : list Z) (jl : Z) : result Z :=
  nb <- item neigh jl ;;
  jnl <- labelled imo0 nb ;;
  match jnl with
  | [] => Ok 0
  | _ =>
      zs <- take zp jnl ;;
      z0 <- item zp jl ;;
      ipt <- argmin (map (fun z => Qabs (z - z0)) zs) ;;
      j <- item jnl ipt ;;
      item imo0 j
  end.

Fixpoint new_values_as_specified (imo0 : list Z) (ws : list Z) : result (list Z) :=
  match ws with
  | [] => Ok []
  | jl :: rest =>
      v <- nearest_label_as_specified imo0 jl ;;
      vs <- new_values_as_specified imo0 rest ;;
      Ok (v :: vs)
  end.

Fixpoint relax_as_specified (passes : nat) (imo0 : list Z) : result (list Z) :=
  match passes with
  | O => Ok imo0
  | S passes' =>
      match where_zero imo0 with
      | [] => Ok imo0
      | watershed0 =>
          newvals <- new_values_as_specified imo0 watershed0 ;;
          imo1 <- put_each imo0 watershed0 newvals ;;
          relax_as_specified passes' imo1
      end
  end.

(** Step 0: the initial arrays. *)
Definition initial_state (nspec : Z) : state :=
  mkState (map (fun _ => -1) (range nspec)) (map (fun _ => 0) (range nspec))
          [] 0 0 None.

(** Everything after the sort: steps 0, 1 and 2. *)
Definition label_bins (nspec ihmax : Z) : result (list Z) :=
  (* 0. initializations *)
  let st := initial_state nspec in
  (* 1. loop over levels *)
  st <- all_levels nspec (range ihmax) st ;;
  (* 2. *)
  relax 5 (imo st).

End Levels.

Definition specpart (spectrum : array2 Q) (ihmax : Z) : result (array2 Z) :=
  let nk := nrows spectrum in
  let nth := ncols spectrum in
  let neigh := ptnghb nk nth in
  let nspec := size spectrum in
  zmin <- amin (flatten spectrum) ;;
  zmax <- amax (flatten spectrum) ;;
  let zp := map (fun e => (- e + zmax)%Q) (flatten spectrum) in
  let imi := levels zp ihmax zmin zmax in
  let ind := argsort zp in
  imo <- label_bins neigh imi ind zp nspec ihmax ;;
  Ok (reshape_like imo spectrum).

End Labelling.

(** The default [ihmax=200]. *)
Definition ihmax_default : Z := 200.

(** The cast of NaN on x86-64: the least int64. *)
Definition nan_x86_64 : Z := - 2 ^ 63.

End Watershed.

(** ** The batch entry point: [nppart] and [partition] *)

Module Batch.

(** A DataArray of scalars (wind speed, wind direction, depth): its value at
    each index of the non-spectral dimensions, after broadcasting. *)
Definition scalars : Type := Z -> Q.

(** A DataArray of spectra in the wavespectra convention: the names of the
    non-spectral dimensions, one spectrum E(freq, dir) per index of those
    dimensions, the [freq] and [dir] coordinates, and further coordinates
    that can be looked up by name. *)
Record SpecArray : Type := mkSpecArray {
  sdims : list string;
  svalues : list (array2 Q);
  sfreq : list Q;
  sdir : list Q;
  scoords : list (string * scalars)
}.

Inductive variable : Type :=
| SpecVar (a : SpecArray)
| ScalarVar (s : scalars).

(** An xr.Dataset: its variables by name. *)
Definition Dataset : Type := list (string * variable).

(** The argument [dset]: an xr.DataArray or an xr.Dataset. *)
Inductive dset_arg : Type :=
| OfDataArray (a : SpecArray)
| OfDataset (d : Dataset).

(** The arguments [wspd], [wdir], [dpt]: a variable name or a DataArray. *)
Inductive var_arg : Type :=
| Named (s : string)
| Given (a : scalars).

Fixpoint lookup {A : Type} (l : list (string * A)) (key : string) : option A :=
  match l with
  | [] => None
  | (k, v) :: t => if String.eqb k key then Some v else lookup t key
  end.

(** [dset[key]] for a string key. *)
Definition getitem (dset : dset_arg) (key : string) : result variable :=
  match dset with
  | OfDataset d =>
      match lookup d key with Some v => Ok v | None => Raise (KeyError key) end
  | OfDataArray a =>
      match lookup (scoords a) key with
      | Some s => Ok (ScalarVar s)
      | None => Raise (KeyError key)
      end
  end.

(** The partition stack of the partitioned dataset: its name, its dimensions,
    the [part] coordinate with its attributes, and the values indexed by
    partition and then by the index of the non-spectral dimensions. A slot the
    kernel never wrote is [None] (the output buffer is not initialised). *)
Record PartArray : Type := mkPartArray {
  pname : string;
  pdims : list string;
  ppart : list Z;
  ppart_attrs : list (string * string);
  pvalues : list (list (option (array2 Q)))
}.

(** The kernel: [for ind in range(swells + 1): out[ind, :, :] = spectrum]. *)
Definition nppart (spectrum : array2 Q) (freq dir : list Q) (wspd wdir dpt : Q)
    (swells : Z) (agefac wscut : Q) (dummy : list Z)
    (out : list (option (array2 Q))) : result (list (option (array2 Q))) :=
  fold_left (fun acc ind => o <- acc ;; setitem o ind (Some spectrum))
            (range (swells + 1)) (Ok out).

(** [xr.apply_ufunc(nppart, ...)]: the kernel runs once per index of the
    non-spectral dimensions on an output of core shape [(p, m, n)], [p] being
    the length of [dummy]; the scalar arguments must be scalars per index. *)
Fixpoint apply_over (f : Z -> array2 Q -> result (list (option (array2 Q))))
    (i : Z) (l : list (array2 Q)) : result (list (list (option (array2 Q)))) :=
  match l with
  | [] => Ok []
  | sp :: t => o <- f i sp ;; os <- apply_over f (i + 1) t ;; Ok (o :: os)
  end.

Definition apply_ufunc_nppart (dset : SpecArray) (wspd wdir dpt : variable)
    (swells : Z) (agefac wscut : Q) (dummy : list Z)
    : result (list (list (option (array2 Q)))) :=
  match wspd, wdir, dpt with
  | ScalarVar wspd, ScalarVar wdir, ScalarVar dpt =>
      apply_over
        (fun i sp =>
           nppart sp (sfreq dset) (sdir dset) (wspd i) (wdir i) (dpt i)
                  swells agefac wscut dummy (repeat None (length dummy)))
        0 (svalues dset)
  | _, _, _ => Raise ValueError
  end.

(** [dsout.transpose("part", ...)]: the partition axis first. *)
Definition part_first (p : nat) (rows : list (list (option (array2 Q))))
    : list (list (option (array2 Q))) :=
  map (fun k => map (fun r => nth k r None) rows) (seq 0 p).

Section Partition.

(** [attrs.SPECNAME] of wavespectra.core.attributes: the name of the
    spectra variable of a dataset. *)
Variable SPECNAME : string.

Definition partition (dset : dset_arg) (wspd wdir dpt : var_arg)
    (swells : Z) (agefac wscut : Q) : result PartArray :=
  (* Sort out inputs *)
  wspd <- match wspd with Named s => getitem dset s | Given a => Ok (ScalarVar a) end ;;
  wdir <- match wdir with Named s => getitem dset s | Given a => Ok (ScalarVar a) end ;;
  dpt <- match dpt with Named s => getitem dset s | Given a => Ok (ScalarVar a) end ;;
  dset <- match dset with
          | OfDataset _ => getitem dset SPECNAME
          | OfDataArray a => Ok (SpecVar a)
          end ;;
  let dummy := repeat swells (Z.to_nat (swells + 1)) in
  (* Partitioning full spectra *)
  match dset with
  | ScalarVar _ => Raise AttributeError
  | SpecVar dset =>
      vals <- apply_ufunc_nppart dset wspd wdir dpt swells agefac wscut dummy ;;
      (* Finalise output *)
      let part := range (swells + 1) in
      if Nat.eqb (length part) (length dummy) then
        Ok (mkPartArray "efth"%string
              ("part"%string :: sdims dset ++ ["freq"%string; "dir"%string])
              part
              [("standard_name"%string, "spectral_partition_number"%string);
               ("units"%string, EmptyString)]
              (part_first (length dummy) vals))
      else Raise ValueError
  end.

End Partition.

(** The inputs [partition] can sort out: a scalar argument is a DataArray or
    the name of a scalar variable of [dset]; [dset] is, or holds under
    [SPECNAME], the spectra [a]. *)
Definition scalar_arg (dset : dset_arg) (v : var_arg) : Prop :=
  match v with
  | Given _ => True
  | Named s => exists sc, getitem dset s = Ok (ScalarVar sc)
  end.

Definition spectra_of (SPECNAME : string) (dset : dset_arg) (a : SpecArray) : Prop :=
  match dset with
  | OfDataArray a' => a' = a
  | OfDataset _ => getitem dset SPECNAME = Ok (SpecVar a)
  end.

(** An invalid configuration is refused with an error. *)
Definition rejects_invalid_configuration (SPECNAME : string) : Prop :=
  forall dset wspd wdir dpt swells agefac wscut,
    swells < 0 \/ ~ (0 <= wscut /\ wscut <= 1)%Q ->
    exists e, partition SPECNAME dset wspd wdir dpt swells agefac wscut = Raise e.

(** The defaults of [partition]. *)
Definition swells_default : Z := 3.
Definition agefac_default : Q := 17 # 10.
Definition wscut_default : Q := 3333 # 10000.

(** An all-zero grid of the shape of [a]. *)
Definition all_zero (a : array2 Q) : Prop :=
  Forall (fun e => e == 0)%Q (flatten a).

End Batch.

(** ** Points of inflection: [frequency_resolution] and [inflection] *)

Module Inflection.

(** [abs(freq[1:] - freq[:-1])]. *)
Fixpoint spacings (freq : list Q) : list Q :=
  match freq with
  | x :: ((y :: _) as t) => Qabs (y - x) :: spacings t
  | _ => []
  end.

Definition frequency_resolution (freq : list Q) : list Q :=
  if (1 <? length freq)%nat then spacings freq else [1%Q].

(** The rows of a two-dimensional array and [a.sum(axis=1)]. *)
Fixpoint chunks {A : Type} (n c : nat) (l : list A) : list (list A) :=
  match n with
  | O => []
  | S n' => firstn c l :: chunks n' c (skipn c l)
  end.

Definition rows {A : Type} (a : array2 A) : list (list A) :=
  chunks (Z.to_nat (nrows a)) (Z.to_nat (ncols a)) (flatten a).

Definition sum_axis1 (a : array2 Q) : list Q :=
  map (fun r => fold_left Qplus r 0%Q) (rows a).

(** [int(x / y)] for a Python float [x] and a numpy float [y]: the quotient
    truncated towards zero; a zero divisor gives inf or NaN, which [int]
    refuses. *)
Definition Qtrunc (q : Q) : Z := Z.quot (Qnum q) (Z.pos (Qden q)).

Definition int_of_quotient (x y : Q) : result Z :=
  if Qeq_bool y 0 then
    if Qeq_bool x 0 then Raise ValueError else Raise OverflowError
  else Ok (Qtrunc (x / y)).

(** [np.convolve(a, v, "same")]: the middle of the full convolution, as long
    as the longer argument. *)
Fixpoint add_lists (a b : list Q) : list Q :=
  match a, b with
  | [], _ => b
  | _, [] => a
  | x :: a', y :: b' => (x + y)%Q :: add_lists a' b'
  end.

Fixpoint convolve_full (a v : list Q) : list Q :=
  match a with
  | [] => []
  | x :: a' => add_lists (map (Qmult x) v) (0%Q :: convolve_full a' v)
  end.

Definition convolve_same (a v : list Q) : result (list Q) :=
  match a, v with
  | [], _ | _, [] => Raise ValueError
  | _, _ =>
      let '(a, v) := if (length a <? length v)%nat then (v, a) else (a, v) in
      Ok (firstn (length a) (skipn ((length v - 1) / 2) (convolve_full a v)))
  end.

(** [sf[(sf < 0) | (freq < fmin)] = 0]: the mask has to fit [sf]. *)
Fixpoint zero_masked (sf freq : list Q) (fmin : Q) : list Q :=
  match sf, freq with
  | s :: sf', f :: freq' =>
      (if Qltb s 0 || Qltb f fmin then 0%Q else s) :: zero_masked sf' freq' fmin
  | _, _ => []
  end.

Definition zero_where (sf freq : list Q) (fmin : Q) : result (list Q) :=
  if Nat.eqb (length sf) (length freq) then Ok (zero_masked sf freq fmin)
  else if Nat.eqb (length sf) 1 || Nat.eqb (length freq) 1 then Raise IndexError
  else Raise ValueError.

(** [np.diff] on floats and on integers, [np.sign]. *)
Fixpoint diffQ (l : list Q) : list Q :=
  match l with
  | x :: ((y :: _) as t) => (y - x)%Q :: diffQ t
  | _ => []
  end.

Fixpoint diffZ (l : list Z) : list Z :=
  match l with
  | x :: ((y :: _) as t) => (y - x) :: diffZ t
  | _ => []
  end.

Definition sign (q : Q) : Z := Z.sgn (Qnum q).

(** [np.argwhere(a == v) + 1], the indices counted from [i]. *)
Fixpoint argwhere_succ (v : Z) (i : Z) (a : list Z) : list Z :=
  match a with
  | [] => []
  | x :: t => if x =? v then (i + 1) :: argwhere_succ v (i + 1) t
              else argwhere_succ v (i + 1) t
  end.

(** What [inflection] returns for each of [imax] and [imin]: an array of
    indices, or the integer 0 when there is a single frequency. *)
Inductive indices : Type :=
| IndexArray (l : list Z)
| IntZero.

Section Smoothing.

(** [np.hamming]: the window of the given length. *)
Variable hamming : Z -> list Q.

(** The smoothed and masked frequency spectrum [sf], up to the line that
    differentiates it; [width] is the rule that turns [dfres] and the first
    frequency spacing into the window size. *)
Definition smoothed_profile (width : Q -> Q -> result Z)
    (spectrum : array2 Q) (freq : list Q) (dfres fmin : Q) : result (list Q) :=
  let df := frequency_resolution freq in
  let sf := sum_axis1 spectrum in
  df0 <- item df 0 ;;
  nsmooth <- width dfres df0 ;;   (* Window size *)
  sf <- (if 1 <? nsmooth then convolve_same sf (hamming nsmooth) else Ok sf) ;;
  zero_where sf freq fmin.

Definition extrema (sf : list Q) : indices * indices :=
  let diff := diffQ sf in
  let imax := argwhere_succ (-2) 0 (diffZ (map sign diff)) in
  let imin := argwhere_succ 2 0 (diffZ (map sign diff)) in
  (IndexArray imax, IndexArray imin).

Definition inflection (spectrum : array2 Q) (freq : list Q) (dfres fmin : Q)
    : result (indices * indices) :=
  if (1 <? length freq)%nat then
    sf <- smoothed_profile int_of_quotient spectrum freq dfres fmin ;;
    Ok (extrema sf)
  else Ok (IntZero, IntZero).

(** The window size as the specification words it:
    [round(smoothWindowHz / deltaFreq)]. *)
Definition rounded_quotient (x y : Q) : result Z :=
  if Qeq_bool y 0 then
    if Qeq_bool x 0 then Raise ValueError else Raise OverflowError
  else Ok (around (x / y)).

Definition inflection_rounded_window (spectrum : array2 Q) (freq : list Q)
    (dfres fmin : Q) : result (indices * indices) :=
  if (1 <? length freq)%nat then
    sf <- smoothed_profile rounded_quotient spectrum freq dfres fmin ;;
    Ok (extrema sf)
  else Ok (IntZero, IntZero).

End Smoothing.

(** The defaults [dfres=0.01] and [fmin=0.05]. *)
Definition dfres_default : Q := 1 # 100.
Definition fmin_default : Q := 5 # 100.

(** [np.hamming(M)], [0.54 - 0.46 cos(2 pi n / (M - 1))], at the lengths
    where its values are rational. *)
Definition hamming_rational (M : Z) : list Q :=
  match M with
  | 1 => [1%Q]
  | 2 => [2 # 25; 2 # 25]%Q
  | 3 => [2 # 25; 1; 2 # 25]%Q
  | 4 => [2 # 25; 77 # 100; 77 # 100; 2 # 25]%Q
  | 5 => [2 # 25; 27 # 50; 1; 27 # 50; 2 # 25]%Q
  | 7 => [2 # 25; 31 # 100; 77 # 100; 1; 77 # 100; 31 # 100; 2 # 25]%Q
  | _ => []
  end.

End Inflection.

(** ** Inputs used in the examples *)

Import Topology Watershed Batch Inflection.

(** A list of floats all equal to [c]. *)
Definition constant (l : list Q) (c : Q) : Prop := Forall (fun e => e == c)%Q l.

(** The spectrum [[1, 10, 5, 5, 10]] of shape (1, 5): two peaks, a valley of
    two bins between them on one side and the single bin 0 on the other. *)
Definition two_peaks : array2 Q := mkArray2 1 5 [1; 10; 5; 5; 10]%Q.

(** A flat spectrum of shape (2, 2). *)
Definition flat_four : array2 Q := mkArray2 2 2 [3; 3; 3; 3]%Q.

(** A Gaussian bump [2^-(r^2)] centred at bin (10, 5) of a (36, 24) grid,
    over the floor 0. *)
Definition gaussian_bump : array2 Q :=
  mkArray2 36 24
    (map (fun n => 1 # Z.to_pos (2 ^ ((n / 24 - 10) ^ 2 + (n mod 24 - 5) ^ 2)))%Q
         (range (36 * 24))).

Definition bump_dataset : SpecArray :=
  mkSpecArray [] [gaussian_bump] (map (fun i => (inject_Z i + 4) / 100)%Q (range 36))
              (map (fun j => 15 * inject_Z j)%Q (range 24)) [].

Definition one_flat_spectrum : SpecArray :=
  mkSpecArray [] [mkArray2 1 2 [1; 2]%Q] [1 # 10]%Q [0; 180]%Q [].

Definition calm : scalars := fun _ => 0%Q.
Definition gale : scalars := fun _ => 30%Q.
Definition deep : scalars := fun _ => 100%Q.
Definition shallow : scalars := fun _ => 5%Q.

(** A frequency spectrum with two peaks, one direction per frequency. *)
Definition ragged_profile : array2 Q := mkArray2 5 1 [0; 3; 1; 2; 0]%Q.
Definition five_frequencies : list Q :=
  [10 # 100; 11 # 100; 12 # 100; 13 # 100; 14 # 100]%Q.

(** The discrete derivative of [z] has sign [before] on the step into index
    [i] and sign [after] on the step out of it. *)
Definition sign_step (z : list Q) (i : Z) (before after : Z) : Prop :=
  exists a b c,
    1 <= i /\
    nth_error z (Z.to_nat (i - 1)) = Some a /\
    nth_error z (Z.to_nat i) = Some b /\
    nth_error z (Z.to_nat (i + 1)) = Some c /\
    sign (b - a) = before /\ sign (c - b) = after.

(** ** Invariants of the level loop

    The predicates in which the labelling of [specpart] is followed through
    steps 1.a, 1.b, 1.c and 2. *)

(** [l[i]] and [l[i] = x] for an index in range. *)
Definition get {A : Type} (d : A) (l : list A) (i : Z) : A := nth (Z.to_nat i) l d.
Definition upd {A : Type} (l : list A) (i : Z) (x : A) : list A := update l (Z.to_nat i) x.
Definition inb (len : nat) (i : Z) : Prop := 0 <= i < Z.of_nat len.

(** [imo[b]], [imd[b]] and [neigh[b]]. *)
Definition lab (st : state) (b : Z) : Z := get 0 (imo st) b.
Definition dist (st : state) (b : Z) : Z := get 0 (imd st) b.
Definition nbrs (neigh : list (list Z)) (b : Z) : list Z := get [] neigh b.

(** The pixels without a distance and the masked pixels: what the loops of
    steps 1.b and 1.c use up. *)
Definition count0 (l : list Z) : nat := count_occ Z.eq_dec l 0.
Definition count_masked (l : list Z) : nat := count_occ Z.eq_dec l (-2).

(** Some two bins differ in energy. *)
Definition varying (l : list Q) : Prop :=
  exists a b, In a l /\ In b l /\ ~ (a == b)%Q.

Section Invariants.

Variable n : nat.
Variable neigh : list (list Z).
Variable imi ind : list Z.

Definition wf (st : state) : Prop := length (imo st) = n /\ length (imd st) = n.

(** [x] has a labelled neighbour at a distance below [d]. *)
Definition reached (st : state) (d x : Z) : Prop :=
  exists r, In r (nbrs neigh x) /\ inb n r /\ 0 <= lab st r /\ dist st r < d.

(** [r] is not a masked pixel without a distance. *)
Definition settled (st : state) (r : Z) : Prop := ~ (lab st r = -2 /\ dist st r = 0).

Definition closed (st : state) (x : Z) : Prop :=
  forall r, In r (nbrs neigh x) -> settled st r.

(** What the visits of the neighbours of [ip] change: the label of [ip]
    only, and the distance of the pixels [added] to the queue. *)
Record visit_frame (ip d : Z) (st st' : state) (added : list Z) : Prop := {
  vf_wf : wf st';
  vf_lab_other : forall x, inb n x -> x <> ip -> lab st' x = lab st x;
  vf_lab_ip : lab st' ip = lab st ip \/ 0 <= lab st' ip;
  vf_dist : forall x, inb n x -> dist st' x = dist st x \/ In x added;
  vf_added : forall x, In x added ->
               inb n x /\ In x (nbrs neigh ip) /\ lab st x = -2 /\ dist st x = 0 /\
               dist st' x = d + 1 /\ lab st' x = -2;
  vf_queue : iq1 st' = iq1 st ++ added;
  vf_count : (count0 (imd st') + length added = count0 (imd st))%nat;
  vf_label : ic_label st' = ic_label st;
  vf_mstart : mstart st' = mstart st;
  vf_m : m_var st' = m_var st
}.

(** The state of the queue loop against the state [st0] it started from:
    [qa] holds the pixels at distance [d] still to process, [qb] those at
    distance [d + 1]. *)
Record frontier (st0 : state) (d : Z) (st : state) (qa qb : list Z) : Prop := {
  rg_wf : wf st;
  rg_d : 1 <= d;
  rg_qa : forall x, In x qa ->
            inb n x /\ lab st0 x = -2 /\ dist st x = d /\
            (lab st x = -2 \/ 0 <= lab st x) /\ reached st d x;
  rg_qb : forall x, In x qb ->
            inb n x /\ lab st0 x = -2 /\ dist st x = d + 1 /\
            (lab st x = -2 \/ 0 <= lab st x) /\ reached st (d + 1) x;
  rg_frame : forall x, inb n x -> lab st0 x <> -2 ->
               lab st x = lab st0 x /\ dist st x = dist st0 x;
  rg_masked : forall x, inb n x -> lab st0 x = -2 ->
                lab st x = -2 \/ (0 <= lab st x /\ closed st x);
  rg_pending : forall x, inb n x -> lab st x = -2 -> dist st x <> 0 -> In x qa \/ In x qb;
  rg_dist0 : forall x, inb n x -> dist st0 x <> 0 -> dist st x <> 0;
  rg_label : ic_label st = ic_label st0;
  rg_mstart : mstart st = mstart st0;
  rg_m : m_var st = m_var st0;
  rg_near : forall x, inb n x -> lab st0 x = -2 -> 0 <= lab st x ->
              exists r, In r (nbrs neigh x) /\ inb n r /\ 0 <= lab st r
}.

(** What the queue loop leaves behind. *)
Record drained (st0 st : state) : Prop := {
  dr_wf : wf st;
  dr_queue : iq1 st = [];
  dr_frame : forall x, inb n x -> lab st0 x <> -2 ->
               lab st x = lab st0 x /\ dist st x = dist st0 x;
  dr_masked : forall x, inb n x -> lab st0 x = -2 ->
                lab st x = -2 \/
                (0 <= lab st x /\ forall r, In r (nbrs neigh x) -> lab st r <> -2);
  dr_pending : forall x, inb n x -> lab st x = -2 -> dist st x = 0;
  dr_dist0 : forall x, inb n x -> dist st0 x <> 0 -> dist st x <> 0;
  dr_label : ic_label st = ic_label st0;
  dr_mstart : mstart st = mstart st0;
  dr_m : m_var st = m_var st0;
  dr_near : forall x, inb n x -> lab st0 x = -2 -> 0 <= lab st x ->
              exists r, In r (nbrs neigh x) /\ inb n r /\ 0 <= lab st r
}.

(** The state of step 1.c against the state [stB] the queue loop left. *)
Record basins (stB st : state) : Prop := {
  bs_wf : wf st;
  bs_label : 0 <= ic_label st;
  bs_frame : forall x, inb n x -> lab stB x <> -2 -> lab st x = lab stB x;
  bs_masked : forall x, inb n x -> lab stB x = -2 -> lab st x = -2 \/ 1 <= lab st x;
  bs_closed : forall x, inb n x -> lab stB x = -2 -> 1 <= lab st x ->
                forall r, In r (nbrs neigh x) -> lab st r <> -2;
  bs_dist : forall x, inb n x -> dist st x = dist stB x \/ dist st x = 0;
  bs_queue : iq1 st = iq1 stB;
  bs_mstart : mstart st = mstart stB;
  bs_m : m_var st = m_var stB
}.

(** [imi[b]] and [ind[p]]. *)
Definition lev (b : Z) : Z := get 0 imi b.
Definition at_pos (p : Z) : Z := get 0 ind p.

(** The state at the start of level [ih]: the pixels below the level are
    labelled, the others untouched, [mstart] is the first position at or
    above the level. *)
Record ready (ih : Z) (st : state) : Prop := {
  rd_wf : wf st;
  rd_queue : iq1 st = [];
  rd_label : 0 <= ic_label st;
  rd_mstart : inb n (mstart st);
  rd_before : forall p, inb n p -> p < mstart st -> lev (at_pos p) < ih;
  rd_after : forall p, inb n p -> mstart st <= p -> ih <= lev (at_pos p);
  rd_low : forall b, inb n b -> lev b < ih -> 0 <= lab st b;
  rd_high : forall b, inb n b -> ih <= lev b -> lab st b = -1;
  rd_dist : forall b, inb n b -> dist st b = 0
}.

(** The state once the loop of step 1.a has run to the end of the array:
    every pixel is labelled and the later levels find nothing to do. *)
Record finished (ih : Z) (st : state) : Prop := {
  fn_wf : wf st;
  fn_queue : iq1 st = [];
  fn_mstart : mstart st = Z.of_nat n - 1;
  fn_last : lev (at_pos (Z.of_nat n - 1)) < ih;
  fn_all : forall b, inb n b -> 0 <= lab st b
}.

Definition has_lower (ih b : Z) : Prop :=
  exists r, In r (nbrs neigh b) /\ lev r < ih.

(** The state of the loop of step 1.a at position [p]. *)
Record flagging (ih : Z) (st0 : state) (p : Z) (st : state) : Prop := {
  fl_wf : wf st;
  fl_other : forall b, inb n b -> lev b <> ih -> lab st b = lab st0 b /\ dist st b = 0;
  fl_level : forall b, inb n b -> lev b = ih ->
               (lab st b = -1 /\ dist st b = 0) \/
               (lab st b = -2 /\
                ((dist st b = 1 /\ In b (iq1 st) /\ has_lower ih b) \/
                 (dist st b = 0 /\ ~ has_lower ih b)));
  fl_done : forall q, mstart st0 <= q < p -> lab st (at_pos q) = -2;
  fl_queue : forall x, In x (iq1 st) -> inb n x /\ lev x = ih /\ has_lower ih x;
  fl_qlen : Z.of_nat (length (iq1 st)) <= p - mstart st0;
  fl_label : ic_label st = ic_label st0;
  fl_mstart : mstart st = mstart st0
}.

(** The states a pass of the level loop goes through when the level holds
    pixels: [stA] after step 1.a, which stops at position [pe]; [stB] after
    step 1.b; [stC] after step 1.c over the positions [mstart .. m - 1]. *)
Record level_trace (ih : Z) (st0 stA : state) (pe : Z) (stB stC : state) (m : Z)
    : Prop := {
  lt_flag : flag_level neigh imi ind ih (range2 (mstart st0) (Z.of_nat n)) st0 = Ok stA;
  lt_flagging : flagging ih st0 pe stA;
  lt_pe : mstart st0 < pe <= Z.of_nat n;
  lt_stop : (pe < Z.of_nat n /\ lev (at_pos pe) <> ih) \/ pe = Z.of_nat n;
  lt_queue : process_queue neigh (2 * length (imo stA) + 2) 1
               (set_iq1 stA (iq1 stA ++ [ifict_pixel])) = Ok stB;
  lt_drained : drained stA stB;
  lt_m : m = (if Z.eq_dec pe (Z.of_nat n) then Z.of_nat n - 1 else pe);
  lt_new : new_basins neigh (slice ind (mstart st0) m) stB = Ok stC;
  lt_basins : basins stB stC;
  lt_swept : forall ip, In ip (slice ind (mstart st0) m) ->
               lab stC ip <> -2 /\ dist stC ip = 0;
  lt_level : level neigh imi ind (Z.of_nat n) st0 ih = Ok (set_mstart stC m)
}.

(** The basins are numbered from 1 without a gap: no label exceeds the
    number [ic_label] of basins found so far, and every number up to it is
    the label of some pixel. *)
Definition numbered (st : state) : Prop :=
  (forall b, inb n b -> lab st b <= ic_label st) /\
  (forall k, 1 <= k <= ic_label st -> exists b, inb n b /\ lab st b = k).

(** A pixel whose level is below the level of each of its neighbours. *)
Definition level_peak (b : Z) : Prop :=
  inb n b /\ forall r, In r (nbrs neigh b) -> lev b < lev r.

(** Below level [ih] every level peak carries a positive label of its own. *)
Definition peaks_apart (ih : Z) (st : state) : Prop :=
  forall b, level_peak b -> lev b < ih ->
    1 <= lab st b /\
    forall b', level_peak b' -> lev b' < ih -> b' <> b -> lab st b' <> lab st b.

(** Once level 0 is done its pixels lie in basins. *)
Definition tops_in_basins (ih : Z) (st : state) : Prop :=
  0 < ih -> forall b, inb n b -> lev b = 0 -> 1 <= lab st b.

(** A masked pixel without a masked neighbour. *)
Definition lone (st : state) (b : Z) : Prop :=
  inb n b /\ lab st b = -2 /\ forall r, In r (nbrs neigh b) -> lab st r <> -2.

(** The state of step 1.c against the state [stB] it started from: the lone
    pixels it has reached carry numbers of their own, given since. *)
Record seeded (stB st : state) : Prop := {
  sd_wf : wf st;
  sd_label : ic_label stB <= ic_label st;
  sd_masked : forall x, inb n x -> lab st x = -2 -> lab stB x = -2;
  sd_lone : forall b, lone stB b ->
              lab st b = -2 \/ ic_label stB < lab st b <= ic_label st;
  sd_apart : forall b b', lone stB b -> lone stB b' -> b <> b' ->
               lab st b <> -2 -> lab st b <> lab st b'
}.

End Invariants.

(** ** Notions used in the further properties *)

(** The bin [s] columns to the right of [n] in its row, with wrap, and the
    bin of [n]'s column in the row mirrored about the middle frequency. *)
Definition shift_dir (nth s n : Z) : Z := bin_at nth (row nth n) (col nth n + s).
Definition flip_freq (nk nth n : Z) : Z := bin_at nth (nk - 1 - row nth n) (col nth n).

(** The first lines of [partition]: an argument given as a name is looked up
    in [dset], a DataArray is taken as it is. *)
Definition resolve (dset : dset_arg) (v : var_arg) : result variable :=
  match v with
  | Named s => getitem dset s
  | Given a => Ok (ScalarVar a)
  end.

(** The levels [imi] that [specpart] gives the bins of a spectrum. *)
Definition spectrum_levels (nan_to_int : Z) (spectrum : array2 Q) (ihmax : Z)
    : result (list Z) :=
  zmin <- amin (flatten spectrum) ;;
  zmax <- amax (flatten spectrum) ;;
  Ok (levels nan_to_int (map (fun e => (- e + zmax)%Q) (flatten spectrum)) ihmax zmin zmax).

(** * Properties *)

(** ** Facts about the neighbour topology *)

Lemma wrap_mod (nth x : Z) :
  0 < nth -> -1 <= x <= nth ->
  x mod nth = if x =? -1 then nth - 1 else if x =? nth then 0 else x.
Proof.
  intros Hn Hx.
  destruct (Z.eqb_spec x (-1)) as [->|H1].
  - symmetry. apply (Z.mod_unique_pos _ _ (-1)); lia.
  - destruct (Z.eqb_spec x nth) as [->|H2].
    + apply Z_mod_same_full.
    + apply Z.mod_small; lia.
Qed.

Lemma bin_decompose (nth n : Z) :
  0 < nth -> n = nth * (n / nth) + n mod nth /\ 0 <= n mod nth < nth.
Proof.
  intros H; split; [apply Z.div_mod; lia | apply Z.mod_pos_bound; lia].
Qed.

Lemma row_col_bin_at (nth ik ith : Z) :
  0 < nth -> row nth (bin_at nth ik ith) = ik /\ col nth (bin_at nth ik ith) = ith mod nth.
Proof.
  intros Hn. unfold row, col, bin_at.
  assert (Hr : 0 <= ith mod nth < nth) by (apply Z.mod_pos_bound; lia).
  split.
  - symmetry; apply (Z.div_unique_pos _ _ _ (ith mod nth)); lia.
  - symmetry; apply (Z.mod_unique_pos _ _ ik); lia.
Qed.

Lemma row_in_range (nk nth n : Z) :
  0 < nth -> is_bin nk nth n -> 0 <= row nth n < nk.
Proof.
  intros Hn [H0 H1]; unfold row; split.
  - apply Z.div_pos; lia.
  - apply Z.div_lt_upper_bound; lia.
Qed.

Ltac split_tests :=
  repeat match goal with
  | |- context [?a <? ?b] => destruct (Z.ltb_spec a b)
  | |- context [?a =? ?b] => destruct (Z.eqb_spec a b)
  | H : context [?a <? ?b] |- _ => destruct (Z.ltb_spec a b)
  | H : context [?a =? ?b] |- _ => destruct (Z.eqb_spec a b)
  end.

Ltac not_in_list :=
  cbn; repeat match goal with
  | |- ~ _ => intro
  | H : _ \/ _ |- _ => destruct H
  | H : False |- _ => contradiction
  end; lia.

Lemma neighbours_length (nk nth n : Z) : (length (neighbours nk nth n) <= 8)%nat.
Proof.
  unfold neighbours.
  split_tests; cbn; lia.
Qed.

Lemma neighbours_NoDup (nk nth n : Z) :
  3 <= nth -> NoDup (neighbours nk nth n) /\ ~ In n (neighbours nk nth n).
Proof.
  intros Hn.
  unfold neighbours.
  split_tests; cbn [andb app]; try lia;
    (split; [ repeat (constructor; [not_in_list|]); constructor | not_in_list ]).
Qed.

Lemma neighbours_follow_rule (nk nth n : Z) :
  0 < nth -> neighbours nk nth n = neighbours_by_rule nk nth n.
Proof.
  intros Hn.
  destruct (bin_decompose nth n Hn) as [Hd Hc].
  unfold neighbours_by_rule, neighbours, bin_at, when, row, col.
  set (ik := n / nth) in *. set (ith := n mod nth) in *.
  assert (Hw: forall dj, -1 <= dj <= 1 ->
     (ith + dj) mod nth
     = if ith + dj =? -1 then nth - 1 else if ith + dj =? nth then 0 else ith + dj)
    by (intros; apply wrap_mod; lia).
  replace (ith - 1) with (ith + -1) by lia.
  rewrite (Hw (-1)), (Hw 1) by lia.
  rewrite (Z.mod_small ith nth) by lia.
  split_tests; cbn [andb app]; try lia; repeat (f_equal; try lia).
Qed.

Lemma In_when (c : bool) (x b : Z) : In b (when c x) <-> c = true /\ x = b.
Proof. destruct c; cbn; intuition congruence. Qed.

Ltac adj_step di dj :=
  exists di, dj; repeat split; try lia; f_equal; lia.

Ltac pick_rule :=
  match goal with
  | |- _ \/ _ => (left; solve [pick_rule]) || (right; pick_rule)
  | |- _ /\ _ => split; [lia | f_equal; lia]
  | |- False => fail
  | |- _ => f_equal; lia
  end.

Lemma In_rule_adjacent (nk nth n b : Z) :
  0 <= row nth n < nk ->
  In b (neighbours_by_rule nk nth n) <-> adjacent nk nth n b.
Proof.
  intros Hrow. unfold neighbours_by_rule, adjacent.
  set (ik := row nth n) in *. set (ith := col nth n) in *.
  rewrite !in_app_iff, !In_when. cbn [In].
  rewrite !Z.ltb_lt.
  split.
  - intros [[H <-]|[[H <-]|[[<-|[]]|[[<-|[]]|[[H <-]|[[H <-]|[[H <-]|[H <-]]]]]]]].
    + adj_step (-1) 0.
    + adj_step 1 0.
    + adj_step 0 (-1).
    + adj_step 0 1.
    + adj_step (-1) (-1).
    + adj_step 1 (-1).
    + adj_step (-1) 1.
    + adj_step 1 1.
  - intros (di & dj & Hdi & Hdj & Hnz & Hr & ->).
    assert (Ei: di = -1 \/ di = 0 \/ di = 1) by lia.
    assert (Ej: dj = -1 \/ dj = 0 \/ dj = 1) by lia.
    destruct Ei as [->|[->| ->]]; destruct Ej as [->|[->| ->]]; try lia;
      pick_rule.
Qed.

Lemma In_neighbours (nk nth n b : Z) :
  0 < nth -> 0 <= row nth n < nk ->
  In b (neighbours nk nth n) <-> adjacent nk nth n b.
Proof.
  intros Hn Hr. rewrite neighbours_follow_rule by assumption.
  now apply In_rule_adjacent.
Qed.

Lemma adjacent_row_col (nk nth n b : Z) :
  0 < nth -> adjacent nk nth n b ->
  exists di dj, -1 <= di <= 1 /\ -1 <= dj <= 1 /\ (di <> 0 \/ dj <> 0) /\
    row nth b = row nth n + di /\ col nth b = (col nth n + dj) mod nth /\
    0 <= row nth b < nk.
Proof.
  intros Hn (di & dj & Hdi & Hdj & Hnz & Hr & ->).
  exists di, dj.
  destruct (row_col_bin_at nth (row nth n + di) (col nth n + dj) Hn) as [E1 E2].
  rewrite E1, E2. repeat split; lia.
Qed.

Lemma adjacent_is_bin (nk nth n b : Z) :
  0 < nth -> adjacent nk nth n b -> is_bin nk nth b.
Proof.
  intros Hn (di & dj & Hdi & Hdj & Hnz & Hr & ->). unfold is_bin, bin_at.
  assert (Hc : 0 <= (col nth n + dj) mod nth < nth) by (apply Z.mod_pos_bound; lia).
  nia.
Qed.

Lemma adjacent_sym (nk nth a b : Z) :
  0 < nth -> 0 <= row nth a < nk -> adjacent nk nth a b -> adjacent nk nth b a.
Proof.
  intros Hn Ha Hab.
  destruct (adjacent_row_col _ _ _ _ Hn Hab) as (di & dj & Hdi & Hdj & Hnz & Er & Ec & Hb).
  exists (- di), (- dj). repeat split; try lia.
  rewrite Er, Ec. unfold bin_at.
  replace (row nth a + di + - di) with (row nth a) by lia.
  replace ((col nth a + dj) mod nth + - dj) with ((col nth a + dj) mod nth - dj) by lia.
  rewrite Zminus_mod_idemp_l.
  replace (col nth a + dj - dj) with (col nth a) by lia.
  unfold row, col. rewrite Z.mod_mod by lia.
  rewrite (Z.div_mod a nth) at 1 by lia. lia.
Qed.

Lemma ptnghb_lookup (nk nth n : Z) :
  is_bin nk nth n ->
  nth_error (ptnghb nk nth) (Z.to_nat n) = Some (neighbours nk nth n).
Proof.
  intros Hn. unfold is_bin in Hn. unfold ptnghb, range.
  rewrite map_map.
  rewrite nth_error_map, nth_error_seq.
  destruct (Nat.ltb_spec (Z.to_nat n) (Z.to_nat (nk * nth))); [|lia].
  cbn. f_equal. f_equal. lia.
Qed.

Lemma ptnghb_length (nk nth : Z) : length (ptnghb nk nth) = Z.to_nat (nk * nth).
Proof. unfold ptnghb, range. now rewrite !length_map, length_seq. Qed.

Lemma linked_adjacent (nk nth a b : Z) :
  0 < nth -> is_bin nk nth a -> linked nk nth a b <-> adjacent nk nth a b.
Proof.
  intros Hn Ha. unfold linked. rewrite (ptnghb_lookup _ _ _ Ha).
  rewrite <- (In_neighbours nk nth a b Hn (row_in_range _ _ _ Hn Ha)).
  split; [intros (l & [= <-] & H); exact H | intros H; eauto].
Qed.




(** C7 (as stated, refuted): with a single direction the left and right
    neighbours of a bin are the bin itself, and with two directions left and
    right are the same bin, so the list is not a set without [n]. *)
Lemma C7_single_direction_lists_self :
  ptnghb 1 1 = [[0; 0]] /\ ~ distinct_without_self 1 1 0 /\
  ptnghb 1 2 = [[1; 1]; [0; 0]] /\ ~ distinct_without_self 1 2 0.
Proof.
  split; [reflexivity|]. split; [|split; [reflexivity|]].
  - intros (l & E & _ & _ & Hself). vm_compute in E. injection E as <-.
    apply Hself. now left.
  - intros (l & E & _ & Hd & _). vm_compute in E. injection E as <-.
    inversion Hd as [|x l' Hx _]. apply Hx. now left.
Qed.

(** C7 (amended): for every nFreq >= 1, nDir >= 1 and every bin n the list
    built by [ptnghb] has at most 8 entries, in the order and by the rules of
    the specification (down, up, left, right, then the four diagonals;
    vertical steps omitted at the frequency boundaries, horizontal steps
    wrapped in direction), all of them bins of the grid; for nDir >= 3 the
    entries are pairwise distinct and none is n itself. *)
Theorem C7_ptnghb_neighbour_list (nk nth n : Z) :
  1 <= nk -> 1 <= nth -> is_bin nk nth n ->
  exists l,
    nth_error (ptnghb nk nth) (Z.to_nat n) = Some l /\
    l = neighbours_by_rule nk nth n /\
    (length l <= 8)%nat /\
    (forall b, In b l <-> adjacent nk nth n b) /\
    (forall b, In b l -> is_bin nk nth b) /\
    (3 <= nth -> NoDup l /\ ~ In n l).
Proof.
  intros Hk Hn Hb. assert (Hpos : 0 < nth) by lia.
  exists (neighbours nk nth n).
  split; [now apply ptnghb_lookup|].
  split; [now apply neighbours_follow_rule|].
  split; [apply neighbours_length|].
  split; [intros b; apply In_neighbours; [assumption | now apply row_in_range]|].
  split.
  - intros b Hin. apply (adjacent_is_bin nk nth n b Hpos).
    apply In_neighbours; [assumption | now apply row_in_range | assumption].
  - apply neighbours_NoDup.
Qed.

(** Bin 5 of a grid of 3 frequencies and 4 directions. *)
Lemma C7_ptnghb_neighbour_list_witness :
  exists l,
    nth_error (ptnghb 3 4) (Z.to_nat 5) = Some l /\
    l = neighbours_by_rule 3 4 5 /\
    (length l <= 8)%nat /\
    (forall b, In b l <-> adjacent 3 4 5 b) /\
    (forall b, In b l -> is_bin 3 4 b) /\
    (3 <= 4 -> NoDup l /\ ~ In 5 l).
Proof.
  apply (C7_ptnghb_neighbour_list 3 4 5); unfold is_bin; lia.
Defined.

(** ** Facts about the containers *)

Lemma item_in_range {A : Type} (l : list A) (i : Z) :
  0 <= i < Z.of_nat (length l) ->
  exists x, item l i = Ok x /\ nth_error l (Z.to_nat i) = Some x.
Proof.
  intros Hi. unfold item, norm_index.
  destruct (Z.ltb_spec i 0); [lia|].
  destruct (Z.leb_spec 0 i); [|lia].
  destruct (Z.ltb_spec i (Z.of_nat (length l))); [|lia].
  cbn. destruct (nth_error l (Z.to_nat i)) eqn:E.
  - eauto.
  - apply nth_error_None in E. lia.
Qed.

Lemma range_length (n : Z) : length (range n) = Z.to_nat n.
Proof. unfold range. now rewrite length_map, length_seq. Qed.

Lemma range_In (n x : Z) : In x (range n) <-> 0 <= x < n.
Proof.
  unfold range. rewrite in_map_iff. split.
  - intros (k & <- & Hk). apply in_seq in Hk. lia.
  - intros Hx. exists (Z.to_nat x). split; [lia|]. apply in_seq. lia.
Qed.

Lemma range2_cons (a b : Z) : a < b -> range2 a b = a :: range2 (a + 1) b.
Proof.
  intros H. unfold range2.
  replace (Z.to_nat (b - a)) with (S (Z.to_nat (b - (a + 1)))) by lia.
  cbn [seq map]. f_equal; [lia|].
  rewrite <- seq_shift, map_map. apply map_ext. intros k. lia.
Qed.

Lemma insert_key_In (key : Z -> Q) (i x : Z) (l : list Z) :
  In x (insert_key key i l) <-> x = i \/ In x l.
Proof.
  induction l as [|j t IH]; cbn.
  - intuition.
  - destruct (Qleb (key i) (key j)); cbn; rewrite ?IH; intuition.
Qed.

Lemma insert_key_length (key : Z -> Q) (i : Z) (l : list Z) :
  length (insert_key key i l) = S (length l).
Proof.
  induction l as [|j t IH]; cbn; [reflexivity|].
  destruct (Qleb (key i) (key j)); cbn; now rewrite ?IH.
Qed.

Lemma argsort_In (a : list Q) (x : Z) :
  In x (argsort a) <-> 0 <= x < Z.of_nat (length a).
Proof.
  unfold argsort. rewrite <- range_In.
  induction (range (Z.of_nat (length a))) as [|i t IH]; cbn; [tauto|].
  rewrite insert_key_In, IH. intuition.
Qed.

Lemma argsort_length (a : list Q) : length (argsort a) = length a.
Proof.
  unfold argsort. rewrite <- (Nat2Z.id (length a)) at 2. rewrite <- range_length.
  induction (range (Z.of_nat (length a))) as [|i t IH]; cbn; [reflexivity|].
  now rewrite insert_key_length, IH.
Qed.

Lemma argsort_first (a : list Q) :
  a <> [] ->
  exists ip, item (argsort a) 0 = Ok ip /\ 0 <= ip < Z.of_nat (length a).
Proof.
  intros Ha.
  destruct (item_in_range (argsort a) 0) as (ip & E & Hn).
  - rewrite argsort_length. destruct a; [congruence | cbn; lia].
  - exists ip. split; [exact E|]. apply argsort_In.
    apply nth_error_In in Hn. exact Hn.
Qed.

Lemma where_zero_none (l : list Z) : Forall (fun x => x <> 0) l -> where_zero l = [].
Proof.
  intros H. unfold where_zero.
  induction (range (Z.of_nat (length l))) as [|i t IH]; cbn; [reflexivity|].
  destruct (nth_in_or_default (Z.to_nat i) l 1) as [Hin|E].
  - rewrite Forall_forall in H. apply H in Hin.
    destruct (Z.eqb_spec (nth (Z.to_nat i) l 1) 0); [contradiction | exact IH].
  - rewrite E. cbn. exact IH.
Qed.

Lemma relax_no_watershed (neigh : list (list Z)) (zp : list Q) (passes : nat) (l : list Z) :
  Forall (fun x => x <> 0) l -> relax neigh zp passes l = Ok l.
Proof.
  intros H. destruct passes; cbn; [reflexivity|].
  now rewrite (where_zero_none l H).
Qed.

(** ** Constant spectra *)

Lemma fold_pick_constant (f : Q -> Q -> Q) (c : Q) (t : list Q) (x : Q) :
  (forall m y, f m y = m \/ f m y = y) ->
  (x == c)%Q -> constant t c -> (fold_left f t x == c)%Q.
Proof.
  intros Hf. revert x. induction t as [|y t IH]; intros x Hx Ht; cbn; [exact Hx|].
  inversion Ht as [|? ? Hy Ht']; subst.
  apply IH; [|exact Ht']. destruct (Hf x y) as [-> | ->]; assumption.
Qed.

Lemma amin_constant (l : list Q) (c : Q) :
  l <> [] -> constant l c -> exists m, amin l = Ok m /\ (m == c)%Q.
Proof.
  intros Hl Hc. destruct l as [|x t]; [congruence|].
  inversion Hc; subst. eexists; split; [reflexivity|].
  apply fold_pick_constant; try assumption.
  intros m y. destruct (Qltb y m); auto.
Qed.

Lemma amax_constant (l : list Q) (c : Q) :
  l <> [] -> constant l c -> exists m, amax l = Ok m /\ (m == c)%Q.
Proof.
  intros Hl Hc. destruct l as [|x t]; [congruence|].
  inversion Hc; subst. eexists; split; [reflexivity|].
  apply fold_pick_constant; try assumption.
  intros m y. destruct (Qltb m y); auto.
Qed.

Lemma levels_constant (nan_to_int : Z) (zp : list Q) (ihmax : Z) (zmin zmax : Q) :
  (zmax == zmin)%Q -> levels nan_to_int zp ihmax zmin zmax = map (fun _ => nan_to_int) zp.
Proof.
  intros H. unfold levels. apply Qeq_bool_iff in H. now rewrite H.
Qed.

(** A level at which the first pixel in line does not lie leaves the arrays
    as they are. *)
Lemma level_skipped (neigh : list (list Z)) (imi ind : list Z) (nspec ih ip lv : Z)
    (imo0 imd0 : list Z) (mv : option Z) :
  0 < nspec -> item ind 0 = Ok ip -> item imi ip = Ok lv -> lv <> ih ->
  level neigh imi ind nspec (mkState imo0 imd0 [] 0 0 mv) ih
  = Ok (mkState imo0 imd0 [] 0 0 (Some 0)).
Proof.
  intros Hn Hind Himi Hlv. unfold level. cbn [mstart].
  rewrite (range2_cons 0 nspec Hn). cbn [flag_level].
  rewrite Hind. cbn [bind]. rewrite Himi. cbn [bind].
  destruct (Z.eqb_spec lv ih); [contradiction|]. cbn [negb bind].
  cbn [set_m_var set_iq1 imo imd iq1 ic_label mstart m_var app].
  replace (2 * length imo0 + 2)%nat with (S (2 * length imo0 + 1)) by lia.
  cbn. reflexivity.
Qed.

Lemma all_levels_skipped (neigh : list (list Z)) (imi ind : list Z) (nspec ip lv : Z)
    (imo0 imd0 : list Z) (ihs : list Z) (mv : option Z) :
  0 < nspec -> item ind 0 = Ok ip -> item imi ip = Ok lv -> ~ In lv ihs ->
  exists mv',
    all_levels neigh imi ind nspec ihs (mkState imo0 imd0 [] 0 0 mv)
    = Ok (mkState imo0 imd0 [] 0 0 mv').
Proof.
  intros Hn Hind Himi. revert mv.
  induction ihs as [|ih rest IH]; intros mv Hnot; cbn [all_levels].
  - eauto.
  - rewrite (level_skipped neigh imi ind nspec ih ip lv imo0 imd0 mv); try assumption.
    + cbn [bind]. apply IH. intros H; apply Hnot; now right.
    + intros ->. apply Hnot. now left.
Qed.

Lemma constant_grid_unprocessed (nan_to_int : Z) (spectrum : array2 Q) (ihmax : Z) (c : Q) :
  flatten spectrum <> [] -> 0 < size spectrum ->
  constant (flatten spectrum) c ->
  ~ (0 <= nan_to_int < ihmax) ->
  specpart nan_to_int spectrum ihmax
  = Ok (reshape_like (map (fun _ => -1) (range (size spectrum))) spectrum).
Proof.
  intros Hne Hsz Hc Hnan. unfold specpart.
  destruct (amin_constant _ _ Hne Hc) as (zmin & -> & Emin).
  destruct (amax_constant _ _ Hne Hc) as (zmax & -> & Emax).
  cbn [bind].
  rewrite levels_constant by (rewrite Emin, Emax; reflexivity).
  set (zp := map (fun e => (- e + zmax)%Q) (flatten spectrum)).
  assert (Hzp : zp <> []) by (subst zp; destruct (flatten spectrum); [congruence | discriminate]).
  destruct (argsort_first zp Hzp) as (ip & Hip & Hr).
  destruct (item_in_range (map (fun _ : Q => nan_to_int) zp) ip) as (lv & Hlv & Hnth).
  { now rewrite length_map. }
  assert (lv = nan_to_int).
  { rewrite nth_error_map in Hnth. destruct (nth_error zp (Z.to_nat ip)); cbn in Hnth; congruence. }
  subst lv.
  unfold label_bins, initial_state.
  destruct (all_levels_skipped (ptnghb (nrows spectrum) (ncols spectrum))
              (map (fun _ : Q => nan_to_int) zp) (argsort zp) (size spectrum) ip nan_to_int
              (map (fun _ => -1) (range (size spectrum)))
              (map (fun _ => 0) (range (size spectrum))) (range ihmax) None Hsz Hip Hlv)
    as (mv' & ->).
  { rewrite range_In. exact Hnan. }
  cbn [bind imo].
  rewrite relax_no_watershed; [reflexivity|].
  apply Forall_forall. intros x Hx. apply in_map_iff in Hx. destruct Hx as (? & <- & _). lia.
Qed.

(** ** The grid of a single bin *)

Lemma level_single_bin (k ih x : Z) (mv : option Z) :
  level [[0; 0]] [k] [0] 1 (mkState [x] [0] [] 0 0 mv) ih
  = Ok (mkState [if k =? ih then -2 else x] [0] [] 0 0 (Some 0)).
Proof.
  unfold level. cbn [mstart]. change (range2 0 1) with [0].
  cbn. destruct (k =? ih); reflexivity.
Qed.

Lemma all_levels_single_bin (k x : Z) (ihs : list Z) (mv : option Z) :
  x = -1 \/ x = -2 ->
  exists y mv', (y = -1 \/ y = -2) /\
    all_levels [[0; 0]] [k] [0] 1 ihs (mkState [x] [0] [] 0 0 mv)
    = Ok (mkState [y] [0] [] 0 0 mv').
Proof.
  revert x mv. induction ihs as [|ih rest IH]; intros x mv Hx; cbn [all_levels].
  - eauto.
  - rewrite level_single_bin. cbn [bind]. apply IH.
    destruct (k =? ih); auto.
Qed.

(** C3 (code defect): a spectrum of a single bin, which is a constant
    spectrum, gets no basin, whatever its energy, [ihmax] and the platform's
    cast of NaN. [zmax - zmin] is 0, the level of the bin is the cast of NaN;
    if no level of the loop equals it the bin keeps the initial -1, otherwise
    it is flagged -2 at that level, has only itself for a neighbour, and is
    left out of step 1.c because [m] stops at [nspec - 1]. No error is
    raised, and the label returned is -1 or -2, never a basin. *)
Theorem C3_single_bin_grid_gets_no_basin (nan_to_int : Z) (e : Q) (ihmax : Z) :
  specpart nan_to_int (mkArray2 1 1 [e]) ihmax = Ok (mkArray2 1 1 [-1]) \/
  specpart nan_to_int (mkArray2 1 1 [e]) ihmax = Ok (mkArray2 1 1 [-2]).
Proof.
  unfold specpart. cbn [flatten amin amax fold_left bind map nrows ncols size].
  unfold levels. rewrite Qeq_bool_refl. cbn [map].
  change (argsort [(- e + e)%Q]) with (insert_key (fun i => nth (Z.to_nat i) [(- e + e)%Q] 0%Q) 0 []).
  cbn [insert_key].
  change (ptnghb 1 1) with [[0; 0]].
  unfold label_bins.
  change (size (mkArray2 1 1 [e])) with 1.
  change (initial_state 1) with (mkState [-1] [0] [] 0 0 None).
  destruct (all_levels_single_bin nan_to_int (-1) (range ihmax) None (or_introl eq_refl))
    as (y & mv' & Hy & ->).
  cbn [bind imo]. rewrite relax_no_watershed.
  - unfold reshape_like. cbn. destruct Hy as [-> | ->]; auto.
  - constructor; [lia | constructor].
Qed.

(** C2 (code defect): on a spectrum whose bins all carry the same energy,
    where the cast of NaN is no level of the loop (as on x86-64, where it is
    the least int64), [specpart] returns every bin at the internal value -1:
    no level ever matches, so no bin is flagged, queued or labelled. *)
Theorem C2_constant_grid_left_unprocessed
    (nan_to_int : Z) (spectrum : array2 Q) (ihmax : Z) (c : Q) :
  flatten spectrum <> [] -> 0 < size spectrum ->
  constant (flatten spectrum) c ->
  ~ (0 <= nan_to_int < ihmax) ->
  exists labels,
    specpart nan_to_int spectrum ihmax = Ok labels /\
    Forall (fun l => l = -1) (flatten labels).
Proof.
  intros Hne Hsz Hc Hnan. eexists. split.
  - now apply (constant_grid_unprocessed nan_to_int spectrum ihmax c).
  - cbn. apply Forall_forall. intros l Hl. apply in_map_iff in Hl.
    now destruct Hl as (? & <- & _).
Qed.

(** The flat (2, 2) spectrum with the default [ihmax] on x86-64. *)
Lemma C2_constant_grid_left_unprocessed_witness :
  exists labels,
    specpart nan_x86_64 flat_four ihmax_default = Ok labels /\
    Forall (fun l => l = -1) (flatten labels).
Proof.
  apply (C2_constant_grid_left_unprocessed nan_x86_64 flat_four ihmax_default 3%Q).
  - discriminate.
  - reflexivity.
  - repeat constructor.
  - vm_compute. intros [H _]. apply H. reflexivity.
Defined.

(** C5 (code defect): on the spectrum [[1, 10, 5, 5, 10]] the level loop
    leaves bin 0 as the only bin labelled 0, between the basins of its
    neighbours 4 (label 2) and 1 (label 1). [any(watershed0)] tests the
    indices, not their number, and the only index is 0: the loop of step 2
    breaks before its first pass and bin 0 keeps label 0, where the
    relaxation as specified gives it the label 2 of its nearest neighbour. *)
Theorem C5_lone_watershed_bin_zero_is_skipped (nan_to_int : Z) :
  let neigh := ptnghb 1 5 in
  let zp := [9; 0; 5; 5; 0]%Q in
  let imi := [199; 0; 111; 111; 0] in
  let ind := [1; 4; 2; 3; 0] in
  exists st,
    all_levels neigh imi ind 5 (range 200) (initial_state 5) = Ok st /\
    imo st = [0; 1; 1; 2; 2] /\
    item neigh 0 = Ok [4; 1] /\
    relax neigh zp 5 (imo st) = Ok [0; 1; 1; 2; 2] /\
    relax_as_specified neigh zp 5 (imo st) = Ok [2; 1; 1; 2; 2] /\
    specpart nan_to_int two_peaks 200 = Ok (mkArray2 1 5 [0; 1; 1; 2; 2]).
Proof.
  vm_compute. eexists. repeat split; reflexivity.
Qed.

(** ** Facts about the batch entry point *)

Lemma update_app_skipn {A : Type} (x y : A) (k : nat) (out : list A) :
  (k < length out)%nat ->
  update (repeat x k ++ skipn k out) k x = repeat x (S k) ++ skipn (S k) out.
Proof.
  revert out. induction k as [|k IH]; intros out Hk.
  - destruct out; cbn in *; [lia | reflexivity].
  - destruct out as [|o out]; cbn in Hk; [lia|].
    cbn [repeat skipn app update]. f_equal.
    change (x :: repeat x k) with (repeat x (S k)).
    apply IH. lia.
Qed.

Lemma setitem_in_range {A : Type} (l : list A) (k : nat) (x : A) :
  (k < length l)%nat -> setitem l (Z.of_nat k) x = Ok (update l k x).
Proof.
  intros Hk. unfold setitem, norm_index.
  destruct (Z.ltb_spec (Z.of_nat k) 0); [lia|].
  destruct (Z.leb_spec 0 (Z.of_nat k)); [|lia].
  destruct (Z.ltb_spec (Z.of_nat k) (Z.of_nat (length l))); [|lia].
  cbn. now rewrite Nat2Z.id.
Qed.

Lemma fill_slots {A : Type} (x : A) (out : list A) (k : nat) :
  (k <= length out)%nat ->
  fold_left (fun acc ind => o <- acc ;; setitem o ind x)
            (map Z.of_nat (seq 0 k)) (Ok out)
  = Ok (repeat x k ++ skipn k out).
Proof.
  induction k as [|k IH]; intros Hk.
  - reflexivity.
  - rewrite seq_S, map_app, fold_left_app, IH by lia. cbn [map fold_left bind plus].
    rewrite setitem_in_range.
    + f_equal. apply update_app_skipn with (y := x). lia.
    + rewrite length_app, repeat_length, length_skipn. lia.
Qed.

Lemma nppart_fills_every_slot (spectrum : array2 Q) (freq dir : list Q)
    (wspd wdir dpt : Q) (swells : Z) (agefac wscut : Q) (dummy : list Z) :
  length dummy = Z.to_nat (swells + 1) ->
  nppart spectrum freq dir wspd wdir dpt swells agefac wscut dummy
         (repeat None (length dummy))
  = Ok (repeat (Some spectrum) (length dummy)).
Proof.
  intros Hd. unfold nppart, range. rewrite <- Hd.
  rewrite fill_slots by (rewrite repeat_length; lia).
  rewrite skipn_all2 by (rewrite repeat_length; lia).
  now rewrite app_nil_r.
Qed.

Lemma apply_over_value (f : Z -> array2 Q -> result (list (option (array2 Q))))
    (g : array2 Q -> list (option (array2 Q))) (l : list (array2 Q)) (i : Z) :
  (forall j sp, f j sp = Ok (g sp)) -> apply_over f i l = Ok (map g l).
Proof.
  intros Hf. revert i. induction l as [|sp t IH]; intros i; cbn; [reflexivity|].
  now rewrite Hf, IH.
Qed.

Lemma part_first_repeat (p : nat) (l : list (array2 Q)) :
  part_first p (map (fun sp => repeat (Some sp) p) l) = repeat (map Some l) p.
Proof.
  unfold part_first.
  assert (H : forall k, (k < p)%nat ->
             map (fun r => nth k r None) (map (fun sp => repeat (Some sp) p) l)
             = map Some l).
  { intros k Hk. rewrite map_map. apply map_ext. intros sp.
    apply nth_repeat_lt. exact Hk. }
  assert (G : forall n s, (s + n <= p)%nat ->
     map (fun k => map (fun r => nth k r None) (map (fun sp => repeat (Some sp) p) l)) (seq s n)
     = repeat (map Some l) n).
  { induction n as [|n IH]; intros s Hs; cbn; [reflexivity|].
    rewrite H by lia. f_equal. apply IH. lia. }
  apply G. lia.
Qed.

(** What [partition] returns on inputs it can sort out. *)
Lemma partition_value (SPECNAME : string) (dset : dset_arg) (a : SpecArray)
    (wspd wdir dpt : var_arg) (swells : Z) (agefac wscut : Q) :
  spectra_of SPECNAME dset a ->
  scalar_arg dset wspd -> scalar_arg dset wdir -> scalar_arg dset dpt ->
  partition SPECNAME dset wspd wdir dpt swells agefac wscut
  = Ok (mkPartArray "efth"%string
          ("part"%string :: sdims a ++ ["freq"%string; "dir"%string])
          (range (swells + 1))
          [("standard_name"%string, "spectral_partition_number"%string);
           ("units"%string, EmptyString)]
          (repeat (map Some (svalues a)) (Z.to_nat (swells + 1)))).
Proof.
  intros Ha Hw Hd Hp. unfold partition.
  assert (R : forall v, scalar_arg dset v ->
            exists sc, match v with Named s => getitem dset s | Given x => Ok (ScalarVar x) end
                       = Ok (ScalarVar sc)).
  { intros [s|x]; cbn; [auto | eauto]. }
  destruct (R _ Hw) as (w & ->). destruct (R _ Hd) as (d & ->). destruct (R _ Hp) as (p & ->).
  cbn [bind].
  assert (S : match dset with OfDataset _ => getitem dset SPECNAME | OfDataArray x => Ok (SpecVar x) end
              = Ok (SpecVar a)).
  { destruct dset; cbn in Ha; [now subst | exact Ha]. }
  rewrite S. cbn [bind].
  unfold apply_ufunc_nppart.
  rewrite (apply_over_value _ (fun sp => repeat (Some sp) (Z.to_nat (swells + 1)))).
  - cbn [bind]. rewrite range_length, repeat_length, Nat.eqb_refl.
    now rewrite part_first_repeat.
  - intros j sp. rewrite nppart_fills_every_slot; rewrite repeat_length; reflexivity.
Qed.

(** C1 (code defect): for the (36, 24) Gaussian bump with wind speed 0 and
    the default configuration, [partition] returns the whole spectrum in each
    of the four slots: the wind-sea slot 0 and the swell slots 2 and 3 hold
    the bump as slot 1 does, and the bump is not an all-zero grid. *)
Theorem C1_every_slot_holds_the_whole_spectrum (SPECNAME : string) :
  exists out,
    partition SPECNAME (OfDataArray bump_dataset) (Given calm) (Given calm) (Given deep)
              swells_default agefac_default wscut_default = Ok out /\
    pvalues out = [[Some gaussian_bump]; [Some gaussian_bump];
                   [Some gaussian_bump]; [Some gaussian_bump]] /\
    ~ all_zero gaussian_bump.
Proof.
  eexists. split; [|split].
  - apply (partition_value SPECNAME (OfDataArray bump_dataset) bump_dataset); cbn; auto.
  - reflexivity.
  - unfold all_zero. rewrite Forall_forall. intros H.
    assert (Hin : In (1 # 1)%Q (flatten gaussian_bump)).
    { cbn [flatten gaussian_bump]. apply in_map_iff. exists 245. split; [reflexivity|].
      apply range_In. lia. }
    apply H in Hin. discriminate Hin.
Qed.

(** C4: for every dataset in the wavespectra convention whose inputs
    [partition] can sort out and every [swells >= 0], the output has the
    dimensions of the input with the one new dimension "part" in front, of
    length exactly [swells + 1], with the coordinate values 0, 1, ...,
    [swells]; each partition slot holds one grid per input spectrum, whatever
    the spectra are. *)
Theorem C4_part_dimension_has_swells_plus_one_entries (SPECNAME : string)
    (dset : dset_arg) (a : SpecArray) (wspd wdir dpt : var_arg)
    (swells : Z) (agefac wscut : Q) :
  spectra_of SPECNAME dset a ->
  scalar_arg dset wspd -> scalar_arg dset wdir -> scalar_arg dset dpt ->
  0 <= swells ->
  exists out,
    partition SPECNAME dset wspd wdir dpt swells agefac wscut = Ok out /\
    pdims out = ("part"%string :: sdims a ++ ["freq"%string; "dir"%string]) /\
    Z.of_nat (length (pvalues out)) = swells + 1 /\
    Forall (fun slot => length slot = length (svalues a)) (pvalues out) /\
    Z.of_nat (length (ppart out)) = swells + 1 /\
    (forall k, 0 <= k <= swells -> nth_error (ppart out) (Z.to_nat k) = Some k).
Proof.
  intros Ha Hw Hd Hp Hs. eexists. split; [now apply (partition_value SPECNAME dset a)|].
  cbn [pdims pvalues ppart]. split; [reflexivity|]. split; [|split; [|split]].
  - rewrite repeat_length. lia.
  - apply Forall_forall. intros slot Hin. apply repeat_spec in Hin. subst.
    apply length_map.
  - rewrite range_length. lia.
  - intros k Hk. unfold range. rewrite nth_error_map, nth_error_seq.
    destruct (Nat.ltb_spec (Z.to_nat k) (Z.to_nat (swells + 1))); [|lia].
    cbn. f_equal. lia.
Qed.

(** A dataset that names its spectra and its wind and depth variables. *)
Lemma C4_part_dimension_has_swells_plus_one_entries_witness :
  exists out,
    partition "efth" (OfDataset [("efth"%string, SpecVar one_flat_spectrum);
                                 ("wspd"%string, ScalarVar calm);
                                 ("wdir"%string, ScalarVar calm);
                                 ("dpt"%string, ScalarVar deep)])
              (Named "wspd") (Named "wdir") (Named "dpt")
              swells_default agefac_default wscut_default = Ok out /\
    pdims out = ["part"%string; "freq"%string; "dir"%string] /\
    Z.of_nat (length (pvalues out)) = 3 + 1 /\
    Forall (fun slot => length slot = 1%nat) (pvalues out) /\
    Z.of_nat (length (ppart out)) = 3 + 1 /\
    (forall k, 0 <= k <= 3 -> nth_error (ppart out) (Z.to_nat k) = Some k).
Proof.
  apply (C4_part_dimension_has_swells_plus_one_entries "efth"
           (OfDataset [("efth"%string, SpecVar one_flat_spectrum);
                       ("wspd"%string, ScalarVar calm);
                       ("wdir"%string, ScalarVar calm);
                       ("dpt"%string, ScalarVar deep)])
           one_flat_spectrum (Named "wspd") (Named "wdir") (Named "dpt")
           swells_default agefac_default wscut_default).
  - reflexivity.
  - exists calm; reflexivity.
  - exists calm; reflexivity.
  - exists deep; reflexivity.
  - unfold swells_default; lia.
Defined.

(** C10: for every spectra dataset and any two assignments of wind speed,
    wind direction, depth, [agefac] and [wscut], [partition] returns the same
    output, and each of its [swells + 1] partition slots is the input
    spectra themselves. *)
Theorem C10_wind_depth_and_thresholds_do_not_reach_the_output (SPECNAME : string)
    (dset : dset_arg) (a : SpecArray)
    (wspd1 wdir1 dpt1 wspd2 wdir2 dpt2 : var_arg)
    (swells : Z) (agefac1 wscut1 agefac2 wscut2 : Q) :
  spectra_of SPECNAME dset a ->
  scalar_arg dset wspd1 -> scalar_arg dset wdir1 -> scalar_arg dset dpt1 ->
  scalar_arg dset wspd2 -> scalar_arg dset wdir2 -> scalar_arg dset dpt2 ->
  exists out,
    partition SPECNAME dset wspd1 wdir1 dpt1 swells agefac1 wscut1 = Ok out /\
    partition SPECNAME dset wspd2 wdir2 dpt2 swells agefac2 wscut2 = Ok out /\
    length (pvalues out) = Z.to_nat (swells + 1) /\
    Forall (fun slot => slot = map Some (svalues a)) (pvalues out).
Proof.
  intros Ha H1 H2 H3 H4 H5 H6. eexists. split; [|split; [|split]].
  - now apply (partition_value SPECNAME dset a).
  - now apply (partition_value SPECNAME dset a).
  - cbn. apply repeat_length.
  - cbn. apply Forall_forall. intros slot Hin. now apply repeat_spec in Hin.
Qed.

(** Calm deep water against a gale in shallow water. *)
Lemma C10_wind_depth_and_thresholds_do_not_reach_the_output_witness :
  exists out,
    partition "efth" (OfDataArray bump_dataset) (Given calm) (Given calm) (Given deep)
              swells_default agefac_default wscut_default = Ok out /\
    partition "efth" (OfDataArray bump_dataset) (Given gale) (Given deep) (Given shallow)
              swells_default 1 (9 # 10) = Ok out /\
    length (pvalues out) = Z.to_nat (swells_default + 1) /\
    Forall (fun slot => slot = map Some (svalues bump_dataset)) (pvalues out).
Proof.
  apply (C10_wind_depth_and_thresholds_do_not_reach_the_output "efth"
           (OfDataArray bump_dataset) bump_dataset); cbn; auto.
Defined.

Lemma apply_ufunc_nppart_scalar (dset : SpecArray) (w d p : scalars)
    (swells : Z) (agefac wscut : Q) :
  apply_ufunc_nppart dset (ScalarVar w) (ScalarVar d) (ScalarVar p) swells agefac wscut
                     (repeat swells (Z.to_nat (swells + 1)))
  = Ok (map (fun sp => repeat (Some sp) (Z.to_nat (swells + 1))) (svalues dset)).
Proof.
  unfold apply_ufunc_nppart.
  apply apply_over_value. intros j sp.
  rewrite nppart_fills_every_slot; rewrite repeat_length; reflexivity.
Qed.

(** Whether [partition] raises, and what, is decided while it sorts out its
    inputs: the configuration plays no part. *)
Lemma partition_raise_ignores_configuration (SPECNAME : string) (dset : dset_arg)
    (wspd wdir dpt : var_arg) (swells1 swells2 : Z) (agefac1 wscut1 agefac2 wscut2 : Q)
    (e : exn) :
  partition SPECNAME dset wspd wdir dpt swells1 agefac1 wscut1 = Raise e ->
  partition SPECNAME dset wspd wdir dpt swells2 agefac2 wscut2 = Raise e.
Proof.
  unfold partition.
  destruct (match wspd with Named s => getitem dset s | Given x => Ok (ScalarVar x) end)
    as [w| |]; cbn [bind]; try (intros H; exact H).
  destruct (match wdir with Named s => getitem dset s | Given x => Ok (ScalarVar x) end)
    as [d| |]; cbn [bind]; try (intros H; exact H).
  destruct (match dpt with Named s => getitem dset s | Given x => Ok (ScalarVar x) end)
    as [p| |]; cbn [bind]; try (intros H; exact H).
  destruct (match dset with OfDataset _ => getitem dset SPECNAME | OfDataArray x => Ok (SpecVar x) end)
    as [[a|s]| |]; cbn [bind]; try (intros H; exact H).
  destruct w as [|w]; [intros H; exact H|].
  destruct d as [|d]; [intros H; exact H|].
  destruct p as [|p]; [intros H; exact H|].
  rewrite !apply_ufunc_nppart_scalar. cbn [bind].
  rewrite !range_length, !repeat_length, !Nat.eqb_refl. discriminate.
Qed.

Lemma range_nonpositive (n : Z) : n <= 0 -> range n = [].
Proof. intros H. unfold range. replace (Z.to_nat n) with 0%nat by lia. reflexivity. Qed.

Lemma amin_nonempty (l : list Q) : l <> [] -> exists m, amin l = Ok m.
Proof. destruct l; [congruence | cbn; eauto]. Qed.

Lemma amax_nonempty (l : list Q) : l <> [] -> exists m, amax l = Ok m.
Proof. destruct l; [congruence | cbn; eauto]. Qed.

Lemma specpart_without_levels (nan_to_int : Z) (spectrum : array2 Q) (ihmax : Z) :
  flatten spectrum <> [] -> ihmax <= 0 ->
  specpart nan_to_int spectrum ihmax
  = Ok (reshape_like (map (fun _ => -1) (range (size spectrum))) spectrum).
Proof.
  intros Hne Hi. unfold specpart.
  destruct (amin_nonempty _ Hne) as (zmin & ->).
  destruct (amax_nonempty _ Hne) as (zmax & ->).
  cbn [bind]. unfold label_bins. rewrite (range_nonpositive ihmax Hi).
  cbn [all_levels bind initial_state imo].
  rewrite relax_no_watershed; [reflexivity|].
  apply Forall_forall. intros x Hx. apply in_map_iff in Hx. destruct Hx as (? & <- & _). lia.
Qed.



(** ** Facts about [inflection] *)

Lemma argwhere_succ_In (v : Z) (xs : list Z) (s i : Z) :
  In i (argwhere_succ v s xs) <->
  exists k, nth_error xs k = Some v /\ i = s + Z.of_nat k + 1.
Proof.
  revert s. induction xs as [|x t IH]; intros s; cbn [argwhere_succ].
  - split; [intros [] | intros (k & H & _); destruct k; discriminate].
  - destruct (Z.eqb_spec x v) as [->|Hne]; cbn [In]; rewrite IH; split.
    + intros [<- | (k & Hk & ->)].
      * exists 0%nat. split; [reflexivity | lia].
      * exists (S k). split; [exact Hk | lia].
    + intros ([|k] & Hk & ->).
      * left. lia.
      * right. exists k. split; [exact Hk | lia].
    + intros (k & Hk & ->). exists (S k). split; [exact Hk | lia].
    + intros ([|k] & Hk & ->).
      * cbn in Hk. congruence.
      * exists k. split; [exact Hk | lia].
Qed.

Lemma sign_changes_nth (l : list Q) (k : nat) (d : Z) :
  nth_error (diffZ (map sign (diffQ l))) k = Some d <->
  exists a b c,
    nth_error l k = Some a /\ nth_error l (S k) = Some b /\
    nth_error l (S (S k)) = Some c /\ d = sign (c - b) - sign (b - a).
Proof.
  revert k. induction l as [|a l IH]; intros k.
  - cbn. split; [destruct k; discriminate | intros (? & ? & ? & H & _); destruct k; discriminate].
  - destruct l as [|b [|c t]].
    + cbn. split; [destruct k; discriminate|].
      intros (? & ? & ? & _ & H & _). destruct k; discriminate.
    + cbn. split; [destruct k; discriminate|].
      intros (? & ? & ? & _ & _ & H & _). destruct k as [|[|k]]; discriminate.
    + change (diffZ (map sign (diffQ (a :: b :: c :: t))))
        with ((sign (c - b) - sign (b - a)) :: diffZ (map sign (diffQ (b :: c :: t)))).
      destruct k as [|k].
      * cbn. split.
        -- intros [= <-]. exists a, b, c. auto.
        -- intros (? & ? & ? & [= <-] & [= <-] & [= <-] & ->). reflexivity.
      * cbn [nth_error]. rewrite IH. cbn [nth_error]. reflexivity.
Qed.

Lemma sign_values (q : Q) : sign q = -1 \/ sign q = 0 \/ sign q = 1.
Proof. unfold sign. destruct (Qnum q); cbn; auto. Qed.

Lemma extrema_In (z : list Q) (v before after : Z) (i : Z) :
  (forall s1 s2 : Z, -1 <= s1 <= 1 -> -1 <= s2 <= 1 ->
                     (s2 - s1 = v <-> s1 = before /\ s2 = after)) ->
  In i (argwhere_succ v 0 (diffZ (map sign (diffQ z)))) <-> sign_step z i before after.
Proof.
  intros Hv. rewrite argwhere_succ_In. unfold sign_step. split.
  - intros (k & Hk & ->). apply sign_changes_nth in Hk.
    destruct Hk as (a & b & c & Ha & Hb & Hc & Hd).
    exists a, b, c.
    replace (Z.to_nat (0 + Z.of_nat k + 1 - 1)) with k by lia.
    replace (Z.to_nat (0 + Z.of_nat k + 1)) with (S k) by lia.
    replace (Z.to_nat (0 + Z.of_nat k + 1 + 1)) with (S (S k)) by lia.
    assert (Hs : sign (b - a) = before /\ sign (c - b) = after).
    { apply Hv; [| | lia].
      - pose proof (sign_values (b - a)%Q). lia.
      - pose proof (sign_values (c - b)%Q). lia. }
    repeat split; try assumption; try lia; apply Hs.
  - intros (a & b & c & Hi & Ha & Hb & Hc & H1 & H2).
    exists (Z.to_nat (i - 1)). split; [|lia].
    apply sign_changes_nth. exists a, b, c.
    replace (S (Z.to_nat (i - 1))) with (Z.to_nat i) by lia.
    replace (S (Z.to_nat i)) with (Z.to_nat (i + 1)) by lia.
    repeat split; try assumption.
    symmetry. apply Hv; [| | auto].
    + pose proof (sign_values (b - a)%Q). lia.
    + pose proof (sign_values (c - b)%Q). lia.
Qed.

Lemma zero_masked_length (sf freq : list Q) (fmin : Q) :
  length sf = length freq -> length (zero_masked sf freq fmin) = length freq.
Proof.
  revert freq. induction sf as [|s sf IH]; intros [|f freq] H; cbn in *; try lia.
  now rewrite IH by lia.
Qed.

Lemma zero_masked_nth (sf freq : list Q) (fmin : Q) (i : nat) (s f : Q) :
  nth_error sf i = Some s -> nth_error freq i = Some f ->
  nth_error (zero_masked sf freq fmin) i
  = Some (if Qltb s 0 || Qltb f fmin then 0%Q else s).
Proof.
  revert freq i. induction sf as [|s0 sf IH]; intros [|f0 freq] [|i] Hs Hf;
    cbn in *; try discriminate.
  - now injection Hs as ->; injection Hf as ->.
  - now apply IH.
Qed.

Lemma chunks_length {A : Type} (n c : nat) (l : list A) : length (chunks n c l) = n.
Proof. revert l. induction n as [|n IH]; intros l; cbn; [reflexivity | now rewrite IH]. Qed.

Lemma sum_axis1_length (a : array2 Q) : length (sum_axis1 a) = Z.to_nat (nrows a).
Proof. unfold sum_axis1, rows. now rewrite length_map, chunks_length. Qed.

Lemma convolve_full_length (a v : list Q) :
  a <> [] -> v <> [] -> length (convolve_full a v) = (length a + length v - 1)%nat.
Proof.
  intros Ha Hv.
  assert (L : forall x y, length (add_lists x y) = Nat.max (length x) (length y)).
  { induction x as [|x0 x IH]; intros [|y0 y]; cbn; try lia. now rewrite IH. }
  induction a as [|x a IH]; [congruence|].
  cbn [convolve_full]. rewrite L, length_map. cbn [length].
  destruct a as [|x' a'].
  - cbn. destruct v; [congruence | cbn; lia].
  - rewrite IH by discriminate. cbn [length]. lia.
Qed.

Lemma convolve_same_length (a v : list Q) :
  a <> [] -> v <> [] -> (length v <= length a)%nat ->
  exists sm, convolve_same a v = Ok sm /\ length sm = length a.
Proof.
  intros Ha Hv Hle. unfold convolve_same.
  destruct a as [|x a]; [congruence|]. destruct v as [|y v]; [congruence|].
  destruct (Nat.ltb_spec (length (x :: a)) (length (y :: v))); [lia|].
  eexists. split; [reflexivity|].
  rewrite length_firstn, length_skipn, convolve_full_length by discriminate.
  assert ((length (y :: v) - 1) / 2 <= length (y :: v) - 1)%nat.
  { apply Nat.Div0.div_le_upper_bound. lia. }
  set (d := ((length (y :: v) - 1) / 2)%nat) in *. clearbody d.
  cbn [length] in *. lia.
Qed.




(** ** Spectra with more than one energy value *)

(** *** Arrays read and written in range *)

Lemma item_get {A : Type} (d : A) (l : list A) (i : Z) :
  inb (length l) i -> item l i = Ok (get d l i).
Proof.
  intros Hi. destruct (item_in_range l i Hi) as (x & -> & Hx).
  unfold get. now rewrite (nth_error_nth _ _ d Hx).
Qed.

Lemma setitem_upd {A : Type} (l : list A) (i : Z) (x : A) :
  inb (length l) i -> setitem l i x = Ok (upd l i x).
Proof.
  intros Hi. unfold upd. rewrite <- (Z2Nat.id i) at 1 by (unfold inb in Hi; lia).
  apply setitem_in_range. unfold inb in Hi. lia.
Qed.

Lemma update_length {A : Type} (l : list A) (j : nat) (x : A) :
  length (update l j x) = length l.
Proof.
  revert j. induction l as [|y t IH]; intros [|j]; cbn; auto.
Qed.

Lemma upd_length {A : Type} (l : list A) (i : Z) (x : A) : length (upd l i x) = length l.
Proof. apply update_length. Qed.

Lemma update_nth_same {A : Type} (d : A) (l : list A) (j : nat) (x : A) :
  (j < length l)%nat -> nth j (update l j x) d = x.
Proof.
  revert j. induction l as [|y t IH]; intros [|j] H; cbn in *; try lia; auto.
  apply IH. lia.
Qed.

Lemma update_nth_other {A : Type} (d : A) (l : list A) (j k : nat) (x : A) :
  j <> k -> nth k (update l j x) d = nth k l d.
Proof.
  revert j k. induction l as [|y t IH]; intros [|j] [|k] H; cbn; try congruence; auto.
Qed.

Lemma get_upd_same {A : Type} (d : A) (l : list A) (i : Z) (x : A) :
  inb (length l) i -> get d (upd l i x) i = x.
Proof. intros H. unfold get, upd. apply update_nth_same. unfold inb in H. lia. Qed.

Lemma get_upd_other {A : Type} (d : A) (l : list A) (i j : Z) (x : A) :
  0 <= i -> 0 <= j -> i <> j -> get d (upd l i x) j = get d l j.
Proof. intros Hi Hj H. unfold get, upd. apply update_nth_other. lia. Qed.

Lemma get_upd {A : Type} (d : A) (l : list A) (i j : Z) (x : A) :
  inb (length l) i -> 0 <= j ->
  get d (upd l i x) j = if j =? i then x else get d l j.
Proof.
  intros Hi Hj. destruct (Z.eqb_spec j i) as [->|Hne].
  - now apply get_upd_same.
  - apply get_upd_other; unfold inb in Hi; lia.
Qed.

Lemma take_get {A : Type} (d : A) (a : list A) (idx : list Z) :
  Forall (inb (length a)) idx -> take a idx = Ok (map (get d a) idx).
Proof.
  induction 1 as [|i rest Hi _ IH]; cbn; [reflexivity|].
  now rewrite (item_get d), IH.
Qed.

(** *** Step 1.b: the queue *)

Lemma count0_update (l : list Z) (j : nat) (v : Z) :
  nth j l 1 = 0 -> v <> 0 -> (count0 (update l j v) + 1 = count0 l)%nat.
Proof.
  unfold count0. revert j. induction l as [|y t IH]; intros [|j] Hj Hv; cbn in *; try lia.
  - subst y. destruct (Z.eq_dec v 0); [contradiction|]. destruct (Z.eq_dec 0 0); lia.
  - specialize (IH j Hj Hv). destruct (Z.eq_dec y 0); lia.
Qed.

Lemma count0_upd (l : list Z) (i v : Z) :
  inb (length l) i -> get 0 l i = 0 -> v <> 0 -> (count0 (upd l i v) + 1 = count0 l)%nat.
Proof.
  intros Hi Hg Hv. apply count0_update; [|exact Hv].
  unfold get in Hg. unfold inb in Hi.
  rewrite (nth_indep l 1 0) by lia. exact Hg.
Qed.

Lemma count0_le (l : list Z) : (count0 l <= length l)%nat.
Proof. apply count_occ_bound. Qed.

Section Queue.

Variable n : nat.
Variable neigh : list (list Z).
Hypothesis neigh_length : length neigh = n.
Hypothesis neigh_valid : forall b, inb n b -> Forall (inb n) (nbrs neigh b).
Hypothesis neigh_sym : forall a b, inb n a -> In b (nbrs neigh a) -> In a (nbrs neigh b).

Lemma visit_frame_refl (ip d : Z) (st : state) : wf n st -> visit_frame n neigh ip d st st [].
Proof.
  intros H.
  split; first [ assumption | reflexivity | now (intros x []) | now rewrite app_nil_r
               | now left | (intros; now left) | auto ].
Qed.

Lemma visit_frame_trans (ip d : Z) (st st' st'' : state) (a1 a2 : list Z) :
  0 <= d -> inb n ip -> 0 < dist st ip ->
  visit_frame n neigh ip d st st' a1 -> visit_frame n neigh ip d st' st'' a2 ->
  visit_frame n neigh ip d st st'' (a1 ++ a2).
Proof.
  intros Hd Hip Hdip F1 F2.
  assert (Dip : dist st' ip = dist st ip).
  { destruct (vf_dist _ _ _ _ _ _ _ F1 ip Hip) as [E|Hin]; [exact E|].
    apply (vf_added _ _ _ _ _ _ _ F1) in Hin. lia. }
  assert (NotIp : forall x, In x a2 -> x <> ip).
  { intros x Hin ->. apply (vf_added _ _ _ _ _ _ _ F2) in Hin. lia. }
  split.
  - apply (vf_wf _ _ _ _ _ _ _ F2).
  - intros x Hx Hne. rewrite (vf_lab_other _ _ _ _ _ _ _ F2), (vf_lab_other _ _ _ _ _ _ _ F1); auto.
  - destruct (vf_lab_ip _ _ _ _ _ _ _ F2) as [E|E]; [|now right].
    rewrite E. apply (vf_lab_ip _ _ _ _ _ _ _ F1).
  - intros x Hx. rewrite in_app_iff.
    destruct (vf_dist _ _ _ _ _ _ _ F2 x Hx) as [E|Hin]; [|auto].
    rewrite E. destruct (vf_dist _ _ _ _ _ _ _ F1 x Hx) as [E'|Hin]; auto.
  - intros x Hin. apply in_app_iff in Hin. destruct Hin as [Hin|Hin].
    + destruct (vf_added _ _ _ _ _ _ _ F1 x Hin) as (Hx & Hnb & Hl & Hd0 & Hd1 & Hl1).
      assert (Hne : x <> ip) by (intros ->; lia).
      refine (conj Hx (conj Hnb (conj Hl (conj Hd0 (conj _ _))))).
      * destruct (vf_dist _ _ _ _ _ _ _ F2 x Hx) as [E|Hin2]; [lia|].
        apply (vf_added _ _ _ _ _ _ _ F2) in Hin2. lia.
      * rewrite (vf_lab_other _ _ _ _ _ _ _ F2); auto.
    + destruct (vf_added _ _ _ _ _ _ _ F2 x Hin) as (Hx & Hnb & Hl & Hd0 & Hd1 & Hl1).
      assert (Hne : x <> ip) by (now apply NotIp).
      refine (conj Hx (conj Hnb (conj _ (conj _ (conj Hd1 Hl1))))).
      * rewrite <- (vf_lab_other _ _ _ _ _ _ _ F1); auto.
      * destruct (vf_dist _ _ _ _ _ _ _ F1 x Hx) as [E|Hin1]; [lia|].
        apply (vf_added _ _ _ _ _ _ _ F1) in Hin1. lia.
  - rewrite (vf_queue _ _ _ _ _ _ _ F2), (vf_queue _ _ _ _ _ _ _ F1). now rewrite app_assoc.
  - pose proof (vf_count _ _ _ _ _ _ _ F1). pose proof (vf_count _ _ _ _ _ _ _ F2).
    rewrite length_app. lia.
  - rewrite (vf_label _ _ _ _ _ _ _ F2). apply (vf_label _ _ _ _ _ _ _ F1).
  - rewrite (vf_mstart _ _ _ _ _ _ _ F2). apply (vf_mstart _ _ _ _ _ _ _ F1).
  - rewrite (vf_m _ _ _ _ _ _ _ F2). apply (vf_m _ _ _ _ _ _ _ F1).
Qed.

Lemma lab_set_imo (st : state) (ip v x : Z) :
  wf n st -> inb n ip -> inb n x ->
  lab (set_imo st (upd (imo st) ip v)) x = if x =? ip then v else lab st x.
Proof.
  intros [Wo Wd] Hip Hx. unfold lab. cbn [set_imo imo]. apply get_upd.
  - now rewrite Wo.
  - unfold inb in Hx; lia.
Qed.

Lemma frame_set_label (ip d v : Z) (st : state) :
  wf n st -> inb n ip -> 0 <= v ->
  visit_frame n neigh ip d st (set_imo st (upd (imo st) ip v)) [] /\
  lab (set_imo st (upd (imo st) ip v)) ip = v.
Proof.
  intros W Hip Hv. pose proof W as [Wo Wd].
  assert (E : lab (set_imo st (upd (imo st) ip v)) ip = v).
  { rewrite lab_set_imo by assumption. now rewrite Z.eqb_refl. }
  split; [|exact E]. split.
  - split; cbn [set_imo imo imd]; [now rewrite upd_length | exact Wd].
  - intros x Hx Hxip. rewrite lab_set_imo by assumption.
    destruct (Z.eqb_spec x ip); [contradiction | reflexivity].
  - right. now rewrite E.
  - intros x Hx. now left.
  - intros x [].
  - cbn. now rewrite app_nil_r.
  - cbn [set_imo imd length]. lia.
  - reflexivity.
  - reflexivity.
  - reflexivity.
Qed.

(** One visit of a neighbour [ipp] of the pixel [ip] taken from the queue. *)
Lemma visit_spec (ip d : Z) (st : state) (ipp : Z) :
  wf n st -> inb n ip -> inb n ipp -> In ipp (nbrs neigh ip) ->
  1 <= d -> dist st ip = d ->
  lab st ip = -2 \/ 0 <= lab st ip ->
  exists st' added,
    visit ip d st ipp = Ok st' /\ visit_frame n neigh ip d st st' added /\
    (0 <= lab st ipp -> dist st ipp < d -> 0 <= lab st' ip) /\
    (0 <= lab st ip -> 0 <= lab st' ip) /\
    settled st' ipp.
Proof.
  intros W Hip Hipp Hnb Hd Hdist Hlab. pose proof W as [Wo Wd]. unfold visit, settled.
  rewrite (item_get 0 (imo st) ipp) by (now rewrite Wo). cbn [bind].
  rewrite (item_get 0 (imd st) ipp) by (now rewrite Wd). cbn [bind].
  fold (lab st ipp). fold (dist st ipp).
  assert (SET : forall v, 0 <= v -> ipp <> ip -> 0 <= lab st ipp ->
            exists st' added,
              (imo1 <- setitem (imo st) ip v ;; Ok (set_imo st imo1)) = Ok st' /\
              visit_frame n neigh ip d st st' added /\
              (0 <= lab st ipp -> dist st ipp < d -> 0 <= lab st' ip) /\
              (0 <= lab st ip -> 0 <= lab st' ip) /\
              ~ (lab st' ipp = -2 /\ dist st' ipp = 0)).
  { intros v Hv Hne Hl. rewrite setitem_upd by (now rewrite Wo). cbn [bind].
    destruct (frame_set_label ip d v st W Hip Hv) as [F E].
    eexists. exists []. split; [reflexivity|]. split; [exact F|]. split; [|split].
    - intros _ _. now rewrite E.
    - intros _. now rewrite E.
    - rewrite (vf_lab_other _ _ _ _ _ _ _ F) by assumption. lia. }
  assert (KEEP : (0 <= lab st ipp -> dist st ipp < d -> 0 <= lab st ip) ->
                 ~ (lab st ipp = -2 /\ dist st ipp = 0) ->
            exists st' added, Ok st = Ok st' /\ visit_frame n neigh ip d st st' added /\
                        (0 <= lab st ipp -> dist st ipp < d -> 0 <= lab st' ip) /\
                        (0 <= lab st ip -> 0 <= lab st' ip) /\
                        ~ (lab st' ipp = -2 /\ dist st' ipp = 0)).
  { intros H H'. exists st, []. split; [reflexivity|].
    split; [now apply visit_frame_refl|]. auto. }
  destruct (Z.leb_spec 0 (lab st ipp)) as [Hl|Hl];
    [destruct (Z.ltb_spec (dist st ipp) d) as [Hdd|Hdd]|]; cbn [andb].
  - (* a labelled neighbour at a smaller distance *)
    rewrite (item_get 0 (imo st) ip) by (now rewrite Wo). cbn [bind]. fold (lab st ip).
    assert (Hne : ipp <> ip) by (intros ->; lia).
    destruct (Z.ltb_spec 0 (lab st ipp)) as [Hpos|Hzero].
    + destruct ((lab st ip =? -2) || (lab st ip =? 0)) eqn:E.
      * apply SET; lia.
      * apply orb_false_iff in E. destruct E as [E1 E2].
        apply Z.eqb_neq in E1. apply Z.eqb_neq in E2.
        destruct (Z.eqb_spec (lab st ip) (lab st ipp)) as [Heq|Hneq]; cbn [negb].
        -- apply KEEP; lia.
        -- apply SET; lia.
    + destruct (Z.eqb_spec (lab st ip) (-2)) as [E|E].
      * apply SET; lia.
      * apply KEEP; lia.
  - (* a labelled neighbour of this frontier n neigh or the next: nothing to do *)
    destruct (Z.eqb_spec (lab st ipp) (-2)) as [E|E]; [lia|]. cbn [andb].
    apply KEEP; lia.
  - destruct (Z.eqb_spec (lab st ipp) (-2)) as [E|E];
      [destruct (Z.eqb_spec (dist st ipp) 0) as [E0|E0]|]; cbn [andb].
    + (* a masked neighbour without a distance joins the queue *)
      rewrite setitem_upd by (now rewrite Wd). cbn [bind].
      eexists. exists [ipp]. split; [reflexivity|].
      assert (D : forall x, inb n x ->
                dist (set_iq1 (set_imd st (upd (imd st) ipp (d + 1))) (iq1 st ++ [ipp])) x
                = if x =? ipp then d + 1 else dist st x).
      { intros x Hx. unfold dist. cbn [set_iq1 set_imd imd]. apply get_upd.
        - now rewrite Wd.
        - unfold inb in Hx; lia. }
      split; [|split; [|split]].
      * split.
        -- split; cbn [set_iq1 set_imd imo imd]; [exact Wo | now rewrite upd_length].
        -- reflexivity.
        -- now left.
        -- intros x Hx. rewrite D by assumption.
           destruct (Z.eqb_spec x ipp) as [->|]; [right; now left | now left].
        -- intros x [<-|[]]. rewrite D by assumption. rewrite Z.eqb_refl.
           refine (conj Hipp (conj Hnb (conj E (conj E0 (conj eq_refl _))))).
           exact E.
        -- reflexivity.
        -- cbn [set_iq1 set_imd imd length].
           apply count0_upd; [now rewrite Wd | exact E0 | lia].
        -- reflexivity.
        -- reflexivity.
        -- reflexivity.
      * intros H _. lia.
      * auto.
      * rewrite D by assumption. rewrite Z.eqb_refl. lia.
    + apply KEEP; lia.
    + apply KEEP; lia.
Qed.

Lemma settled_stable (ip d : Z) (st st' : state) (added : list Z) (r : Z) :
  0 <= d -> inb n r -> visit_frame n neigh ip d st st' added -> settled st r -> settled st' r.
Proof.
  intros Hd Hr F S [Hl Hz]. apply S.
  assert (Dr : dist st r = 0).
  { destruct (vf_dist _ _ _ _ _ _ _ F r Hr) as [E|Hin]; [lia|].
    apply (vf_added _ _ _ _ _ _ _ F) in Hin. lia. }
  split; [|exact Dr].
  destruct (Z.eq_dec r ip) as [->|Hne].
  - destruct (vf_lab_ip _ _ _ _ _ _ _ F) as [E|E]; lia.
  - rewrite <- (vf_lab_other _ _ _ _ _ _ _ F); auto.
Qed.

(** The visits of all the neighbours of [ip]. *)
Lemma visit_all_spec (ip d : Z) (nb : list Z) (st : state) :
  wf n st -> inb n ip -> Forall (inb n) nb -> incl nb (nbrs neigh ip) ->
  1 <= d -> dist st ip = d ->
  lab st ip = -2 \/ 0 <= lab st ip ->
  exists st' added,
    visit_all ip d nb st = Ok st' /\ visit_frame n neigh ip d st st' added /\
    ((0 <= lab st ip \/ exists r, In r nb /\ 0 <= lab st r /\ dist st r < d) ->
     0 <= lab st' ip) /\
    (forall r, In r nb -> settled st' r).
Proof.
  intros W Hip Hnb. revert st W.
  induction Hnb as [|ipp rest Hipp Hrest IH]; intros st W Hincl Hd Hdist Hlab.
  - exists st, []. split; [reflexivity|]. split; [now apply visit_frame_refl|].
    split; [|intros r []].
    intros [H|(r & [] & _)]. exact H.
  - cbn [visit_all].
    destruct (visit_spec ip d st ipp W Hip Hipp) as (st1 & a1 & -> & F1 & Hw1 & Hk1 & Hs1); auto.
    { apply Hincl. now left. }
    cbn [bind].
    assert (D1 : dist st1 ip = d).
    { destruct (vf_dist _ _ _ _ _ _ _ F1 ip Hip) as [E|Hin]; [lia|].
      apply (vf_added _ _ _ _ _ _ _ F1) in Hin. lia. }
    assert (L1 : lab st1 ip = -2 \/ 0 <= lab st1 ip).
    { destruct (vf_lab_ip _ _ _ _ _ _ _ F1) as [E|E]; [rewrite E; exact Hlab | now right]. }
    destruct (IH st1 (vf_wf _ _ _ _ _ _ _ F1)) as (st2 & a2 & -> & F2 & Hw2 & Hs2); auto.
    { intros x Hx. apply Hincl. now right. }
    exists st2, (a1 ++ a2). split; [reflexivity|].
    split; [apply (visit_frame_trans ip d st st1 st2); auto; lia|].
    split.
    + intros [H|(r & [<-|Hin] & Hl & Hdr)].
      * apply Hw2. left. now apply Hk1.
      * apply Hw2. left. now apply Hw1.
      * apply Hw2.
        assert (Hr : inb n r) by (rewrite Forall_forall in Hrest; now apply Hrest).
        assert (Hne : r <> ip) by (intros ->; lia).
        right. exists r. split; [exact Hin|].
        rewrite (vf_lab_other _ _ _ _ _ _ _ F1) by assumption. split; [exact Hl|].
        destruct (vf_dist _ _ _ _ _ _ _ F1 r Hr) as [E|Hin']; [lia|].
        apply (vf_added _ _ _ _ _ _ _ F1) in Hin'. lia.
    + intros r [<-|Hin].
      * apply (settled_stable ip d st1 st2 a2); auto. lia.
      * now apply Hs2.
Qed.


Lemma reached_stable (ip d e : Z) (st st' : state) (added : list Z) (z : Z) :
  inb n ip -> visit_frame n neigh ip d st st' added -> (0 <= lab st ip -> 0 <= lab st' ip) ->
  reached n neigh st e z -> reached n neigh st' e z.
Proof.
  intros Hip F Hk (r & Hin & Hr & Hl & Hd). exists r.
  split; [exact Hin|]. split; [exact Hr|]. split.
  - destruct (Z.eq_dec r ip) as [->|Hne]; [now apply Hk|].
    now rewrite (vf_lab_other _ _ _ _ _ _ _ F).
  - destruct (vf_dist _ _ _ _ _ _ _ F r Hr) as [E|Hin']; [lia|].
    apply (vf_added _ _ _ _ _ _ _ F) in Hin'. lia.
Qed.

(** The fictitious pixel at the head of the queue: the pixels at distance [d]
    are done and those at distance [d + 1] are next. *)
Lemma frontier_next (st0 : state) (d : Z) (st : state) (qb : list Z) :
  frontier n neigh st0 d st [] qb -> frontier n neigh st0 (d + 1) st qb [].
Proof.
  intros R. split.
  - apply R.
  - pose proof (rg_d _ _ _ _ _ _ _ R). lia.
  - intros x Hin. apply (rg_qb _ _ _ _ _ _ _ R x Hin).
  - intros x [].
  - apply R.
  - apply R.
  - intros x Hx Hl Hd. destruct (rg_pending _ _ _ _ _ _ _ R x Hx Hl Hd) as [[]|H]. now left.
  - apply R.
  - apply R.
  - apply R.
  - apply R.
  - apply R.
Qed.

(** A pixel taken from the queue and the visits of its neighbours keep the
    invariant of the queue loop. *)
Lemma frontier_visit (st0 : state) (d : Z) (st : state) (x : Z) (qa qb q : list Z) :
  frontier n neigh st0 d st (x :: qa) qb ->
  exists st' added,
    visit_all x d (nbrs neigh x) (set_iq1 st q) = Ok st' /\
    frontier n neigh st0 d st' qa (qb ++ added) /\
    iq1 st' = q ++ added /\
    (count0 (imd st') + length added = count0 (imd st))%nat.
Proof.
  intros R. pose proof (rg_d _ _ _ _ _ _ _ R) as Hd.
  destruct (rg_qa _ _ _ _ _ _ _ R x (or_introl eq_refl)) as (Hx & Hx0 & Hdx & Hlx & Hwx).
  set (st1 := set_iq1 st q).
  assert (W1 : wf n st1) by apply (rg_wf _ _ _ _ _ _ _ R).
  destruct (visit_all_spec x d (nbrs neigh x) st1 W1 Hx)
    as (st' & added & E & F & Hw & Hs); auto.
  { apply incl_refl. }
  exists st', added. split; [exact E|].
  assert (Lx : 0 <= lab st' x).
  { apply Hw. right. destruct Hwx as (r & Hin & Hr & Hl & Hdr). exists r. auto. }
  assert (Keep : 0 <= lab st1 x -> 0 <= lab st' x) by (intros _; exact Lx).
  assert (Unch : forall z, inb n z -> lab st z <> -2 -> dist st' z = dist st z).
  { intros z Hz Hl. destruct (vf_dist _ _ _ _ _ _ _ F z Hz) as [E'|Hin]; [exact E'|].
    apply (vf_added _ _ _ _ _ _ _ F) in Hin. cbn in Hin. unfold lab in Hl. tauto. }
  assert (Dpos : forall z, inb n z -> dist st z <> 0 -> dist st' z = dist st z).
  { intros z Hz Hl. destruct (vf_dist _ _ _ _ _ _ _ F z Hz) as [E'|Hin]; [exact E'|].
    apply (vf_added _ _ _ _ _ _ _ F) in Hin. cbn in Hin. unfold dist in Hl. tauto. }
  assert (Lab : forall z, inb n z -> z <> x -> lab st' z = lab st z).
  { intros z Hz Hne. apply (vf_lab_other _ _ _ _ _ _ _ F z Hz Hne). }
  assert (Elem : forall z e, inb n z -> lab st0 z = -2 -> dist st z = e -> 1 <= e ->
                   (lab st z = -2 \/ 0 <= lab st z) -> reached n neigh st e z ->
                   inb n z /\ lab st0 z = -2 /\ dist st' z = e /\
                   (lab st' z = -2 \/ 0 <= lab st' z) /\ reached n neigh st' e z).
  { intros z e Hz Hz0 Hdz He Hlz Hwz.
    split; [exact Hz|]. split; [exact Hz0|]. split; [rewrite Dpos; auto; lia|]. split.
    - destruct (Z.eq_dec z x) as [->|Hne]; [now right | now rewrite Lab].
    - apply (reached_stable x d e st1 st' added); auto. }
  split; [|split; [apply (vf_queue _ _ _ _ _ _ _ F) | apply (vf_count _ _ _ _ _ _ _ F)]].
  split.
  - apply (vf_wf _ _ _ _ _ _ _ F).
  - exact Hd.
  - intros z Hin.
    destruct (rg_qa _ _ _ _ _ _ _ R z (or_intror Hin)) as (Hz & Hz0 & Hdz & Hlz & Hwz).
    apply Elem; auto.
  - intros z Hin. apply in_app_iff in Hin. destruct Hin as [Hin|Hin].
    + destruct (rg_qb _ _ _ _ _ _ _ R z Hin) as (Hz & Hz0 & Hdz & Hlz & Hwz).
      apply Elem; auto. lia.
    + destruct (vf_added _ _ _ _ _ _ _ F z Hin) as (Hz & Hnb & Hl & Hd0 & Hd1 & Hl1).
      split; [exact Hz|]. split; [|split; [exact Hd1|split; [now left|]]].
      * destruct (Z.eq_dec (lab st0 z) (-2)) as [E0|E0]; [exact E0|].
        destruct (rg_frame _ _ _ _ _ _ _ R z Hz E0) as [E1 _].
        change (lab st1 z) with (lab st z) in Hl. lia.
      * exists x. split; [now apply neigh_sym|]. split; [exact Hx|]. split; [exact Lx|].
        rewrite Dpos; auto; lia.
  - intros z Hz Hz0. destruct (rg_frame _ _ _ _ _ _ _ R z Hz Hz0) as [E1 E2].
    assert (Hne : z <> x) by (intros ->; contradiction).
    split; [rewrite Lab; auto | rewrite Unch; auto; lia].
  - intros z Hz Hz0.
    destruct (Z.eq_dec z x) as [->|Hne].
    + right. split; [exact Lx|]. intros r Hr. now apply Hs.
    + rewrite Lab by assumption.
      destruct (rg_masked _ _ _ _ _ _ _ R z Hz Hz0) as [Hm|[Hl Hc]]; [now left|].
      right. split; [exact Hl|].
      intros r Hr. apply (settled_stable x d st1 st' added); auto; try lia.
      * pose proof (neigh_valid z Hz) as V. rewrite Forall_forall in V. now apply V.
      * now apply Hc.
  - intros z Hz Hl Hdz. rewrite in_app_iff.
    assert (Hne : z <> x) by (intros ->; lia).
    rewrite Lab in Hl by assumption.
    destruct (vf_dist _ _ _ _ _ _ _ F z Hz) as [E'|Hin]; [|auto].
    rewrite E' in Hdz.
    destruct (rg_pending _ _ _ _ _ _ _ R z Hz Hl Hdz) as [[->|H]|H]; [contradiction | auto | auto].
  - intros z Hz Hz0. pose proof (rg_dist0 _ _ _ _ _ _ _ R z Hz Hz0) as H.
    rewrite Dpos; auto.
  - rewrite (vf_label _ _ _ _ _ _ _ F). apply (rg_label _ _ _ _ _ _ _ R).
  - rewrite (vf_mstart _ _ _ _ _ _ _ F). apply (rg_mstart _ _ _ _ _ _ _ R).
  - rewrite (vf_m _ _ _ _ _ _ _ F). apply (rg_m _ _ _ _ _ _ _ R).
  - intros z Hz Hz0 Hlz.
    assert (Hsrc : exists r, In r (nbrs neigh z) /\ inb n r /\ 0 <= lab st r).
    { destruct (Z.eq_dec z x) as [->|Hne].
      - destruct Hwx as (r & Hin & Hr & Hl & _). exists r. auto.
      - rewrite Lab in Hlz by assumption. apply (rg_near _ _ _ _ _ _ _ R z Hz Hz0 Hlz). }
    destruct Hsrc as (r & Hin & Hr & Hl). exists r. split; [exact Hin|]. split; [exact Hr|].
    destruct (Z.eq_dec r x) as [->|Hne]; [exact Lx | now rewrite Lab].
Qed.

Lemma valid_not_fict (x : Z) : inb n x -> (x =? ifict_pixel) = false.
Proof. intros [H _]. apply Z.eqb_neq. unfold ifict_pixel. lia. Qed.

(** The queue loop of step 1.b ends: a round for every queue entry and every
    pixel without a distance is enough. *)
Lemma process_queue_spec (st0 : state) (fuel : nat) :
  forall d st qa qb,
    frontier n neigh st0 d st qa qb -> iq1 st = qa ++ ifict_pixel :: qb ->
    (length (iq1 st) + count0 (imd st) <= fuel)%nat ->
    exists st', process_queue neigh fuel d st = Ok st' /\ drained n neigh st0 st'.
Proof.
  induction fuel as [|fuel IH]; intros d st qa qb R Hq Hfuel.
  - rewrite Hq, length_app in Hfuel. cbn in Hfuel. lia.
  - cbn [process_queue]. rewrite Hq.
    destruct qa as [|x qa].
    + (* the fictitious pixel is at the head *)
      cbn [app pop0 bind]. rewrite Z.eqb_refl.
      destruct qb as [|y qb].
      * eexists. split; [reflexivity|].
        split; cbn [set_iq1 iq1 ic_label mstart m_var]; try apply R; try reflexivity.
        -- intros x Hx Hx0.
           destruct (rg_masked _ _ _ _ _ _ _ R x Hx Hx0) as [H|[Hl Hc]]; [now left|].
           right. split; [exact Hl|]. intros r Hr Hm.
           assert (Hrv : inb n r).
           { pose proof (neigh_valid x Hx) as V. rewrite Forall_forall in V. now apply V. }
           destruct (Z.eq_dec (dist st r) 0) as [E|E].
           ++ apply (Hc r Hr). split; assumption.
           ++ destruct (rg_pending _ _ _ _ _ _ _ R r Hrv Hm E) as [[]|[]].
        -- intros x Hx Hl. destruct (Z.eq_dec (dist st x) 0) as [E|E]; [exact E|].
           destruct (rg_pending _ _ _ _ _ _ _ R x Hx Hl E) as [[]|[]].
      * cbn [app pop0 bind].
        pose proof (frontier_next _ _ _ _ R) as R'.
        destruct (rg_qa _ _ _ _ _ _ _ R' y (or_introl eq_refl)) as (Hy & _).
        rewrite (item_get [] neigh y) by (now rewrite neigh_length). cbn [bind].
        destruct (frontier_visit st0 (d + 1) st y qb [] (qb ++ [ifict_pixel]) R')
          as (st' & added & E & R'' & Hq' & Hc).
        fold (nbrs neigh y). rewrite E. cbn [bind].
        apply (IH (d + 1) st' qb added R'').
        -- rewrite Hq'. now rewrite <- app_assoc.
        -- rewrite Hq'. rewrite Hq in Hfuel.
           rewrite ?length_app in *; cbn [length app] in *; rewrite ?length_app in *. lia.
    + destruct (rg_qa _ _ _ _ _ _ _ R x (or_introl eq_refl)) as (Hx & _).
      cbn [app pop0 bind]. rewrite (valid_not_fict x Hx).
      rewrite (item_get [] neigh x) by (now rewrite neigh_length). cbn [bind].
      destruct (frontier_visit st0 d st x qa qb (qa ++ ifict_pixel :: qb) R)
        as (st' & added & E & R'' & Hq' & Hc).
      fold (nbrs neigh x). rewrite E. cbn [bind].
      apply (IH d st' qa (qb ++ added) R'').
      * rewrite Hq'. now rewrite <- app_assoc.
      * rewrite Hq'. rewrite Hq in Hfuel.
        rewrite ?length_app in *; cbn [length app] in *; rewrite ?length_app in *.
        cbn [length] in *. lia.
Qed.

End Queue.

(** *** Step 1.c: the flood of a new basin *)

Lemma count_masked_update_le (l : list Z) (j : nat) (v : Z) :
  v <> -2 -> (count_masked (update l j v) <= count_masked l)%nat.
Proof.
  unfold count_masked. intros Hv. revert j.
  induction l as [|y t IH]; intros [|j]; cbn; try lia.
  - destruct (Z.eq_dec v (-2)); [contradiction|]. destruct (Z.eq_dec y (-2)); lia.
  - specialize (IH j). destruct (Z.eq_dec y (-2)); lia.
Qed.

Lemma count_masked_update_lt (l : list Z) (j : nat) (v : Z) :
  v <> -2 -> nth j l 0 = -2 -> (count_masked (update l j v) + 1 <= count_masked l)%nat.
Proof.
  unfold count_masked. intros Hv. revert j.
  induction l as [|y t IH]; intros [|j] Hj; cbn in *; try lia.
  - subst y. destruct (Z.eq_dec v (-2)); [contradiction|].
    destruct (Z.eq_dec (-2) (-2)); lia.
  - specialize (IH j Hj). destruct (Z.eq_dec y (-2)); lia.
Qed.

Lemma count_masked_le (l : list Z) : (count_masked l <= length l)%nat.
Proof. apply count_occ_bound. Qed.

Lemma put_all_spec (a : list Z) (idx : list Z) (v : Z) :
  Forall (inb (length a)) idx ->
  exists a',
    put_all a idx v = Ok a' /\ length a' = length a /\
    (forall j, 0 <= j -> In j idx -> get 0 a' j = v) /\
    (forall j, 0 <= j -> ~ In j idx -> get 0 a' j = get 0 a j) /\
    (v <> -2 -> (count_masked a' <= count_masked a)%nat) /\
    (v <> -2 -> forall i, In i idx -> get 0 a i = -2 ->
                (count_masked a' + 1 <= count_masked a)%nat).
Proof.
  revert a. induction idx as [|i rest IH]; intros a Hall.
  - exists a. cbn. repeat split; auto; try tauto; lia.
  - inversion Hall as [|? ? Hi Hrest]; subst. cbn [put_all].
    rewrite setitem_upd by assumption. cbn [bind].
    destruct (IH (upd a i v)) as (a' & E & L & Hin & Hout & Hle & Hlt).
    { now rewrite upd_length. }
    exists a'. split; [exact E|]. rewrite upd_length in L. split; [exact L|].
    split; [|split; [|split]].
    + intros j Hj [<-|Hjin]; [|now apply Hin].
      destruct (in_dec Z.eq_dec i rest) as [Hir|Hir]; [now apply Hin|].
      rewrite Hout by assumption. now apply get_upd_same.
    + intros j Hj Hnot. rewrite Hout by (intros H; apply Hnot; now right).
      apply get_upd_other; try assumption.
      * unfold inb in Hi; lia.
      * intros ->. apply Hnot. now left.
    + intros Hv. specialize (Hle Hv).
      pose proof (count_masked_update_le a (Z.to_nat i) v Hv). unfold upd in Hle. lia.
    + intros Hv k [<-|Hk] Hm.
      * specialize (Hle Hv).
        pose proof (count_masked_update_lt a (Z.to_nat i) v Hv Hm). unfold upd in Hle. lia.
      * destruct (Z.eq_dec k i) as [->|Hne].
        -- specialize (Hle Hv).
           pose proof (count_masked_update_lt a (Z.to_nat i) v Hv Hm). unfold upd in Hle. lia.
        -- assert (Hm' : get 0 (upd a i v) k = -2).
           { rewrite get_upd_other; try assumption.
             - unfold inb in Hi; lia.
             - rewrite Forall_forall in Hrest. specialize (Hrest k Hk).
               rewrite upd_length in Hrest || idtac. unfold inb in Hrest; lia.
             - congruence. }
           specialize (Hlt Hv k Hk Hm').
           pose proof (count_masked_update_le a (Z.to_nat i) v Hv). unfold upd in Hlt. lia.
Qed.

Lemma masked_spec (imo0 : list Z) (l : list Z) :
  Forall (inb (length imo0)) l ->
  masked imo0 l = Ok (filter (fun i => get 0 imo0 i =? -2) l).
Proof.
  induction 1 as [|i rest Hi _ IH]; cbn [masked filter]; [reflexivity|].
  rewrite (item_get 0) by assumption. cbn [bind]. rewrite IH. cbn [bind].
  destruct (get 0 imo0 i =? -2); reflexivity.
Qed.

Section Flood.

Variable n : nat.
Variable neigh : list (list Z).
Hypothesis neigh_length : length neigh = n.
Hypothesis neigh_valid : forall b, inb n b -> Forall (inb n) (nbrs neigh b).

(** The neighbours of the pixels of [iq2]. *)
Lemma neighbour_set_spec (iq2 : list Z) :
  Forall (inb n) iq2 ->
  exists s,
    neighbour_set neigh iq2 = Ok s /\ Forall (inb n) s /\
    (forall r, In r s <-> exists i, In i iq2 /\ In r (nbrs neigh i)).
Proof.
  induction 1 as [|i rest Hi _ (s & E & V & M)]; cbn [neighbour_set].
  - exists []. split; [reflexivity|]. split; [constructor|].
    intros r. split; [intros [] | intros (i & [] & _)].
  - rewrite (item_get [] neigh i) by (now rewrite neigh_length). cbn [bind].
    rewrite E. cbn [bind]. eexists. split; [reflexivity|].
    fold (nbrs neigh i). split.
    + apply Forall_forall. intros r Hr. apply nodup_In in Hr. apply in_app_iff in Hr.
      destruct Hr as [Hr|Hr].
      * pose proof (neigh_valid i Hi) as Vi. rewrite Forall_forall in Vi. now apply Vi.
      * rewrite Forall_forall in V. now apply V.
    + intros r. rewrite nodup_In, in_app_iff, M. split.
      * intros [Hr|(j & Hj & Hr)]; [exists i; split; [now left | exact Hr]|].
        exists j. split; [now right | exact Hr].
      * intros (j & [<-|Hj] & Hr); [now left | right; eauto].
Qed.

(** The flood of one new basin from [iq2], against the labels [imoS] it set
    out from. *)
Lemma flood_spec (label : Z) (imoS : list Z) :
  label <> -2 ->
  forall fuel iq2 imo0,
    length imo0 = n -> Forall (inb n) iq2 ->
    (forall x, In x iq2 -> get 0 imo0 x = -2) ->
    (count_masked imo0 <= fuel)%nat ->
    (forall x, inb n x -> get 0 imoS x <> -2 -> get 0 imo0 x = get 0 imoS x) ->
    (forall x, inb n x -> get 0 imoS x = -2 -> get 0 imo0 x = -2 \/ get 0 imo0 x = label) ->
    (forall x, inb n x -> get 0 imoS x = -2 -> get 0 imo0 x = label ->
               forall r, In r (nbrs neigh x) -> get 0 imo0 r = -2 -> In r iq2) ->
    exists imo',
      flood neigh fuel label iq2 imo0 = Ok imo' /\ length imo' = n /\
      (forall x, inb n x -> get 0 imoS x <> -2 -> get 0 imo' x = get 0 imoS x) /\
      (forall x, inb n x -> get 0 imoS x = -2 -> get 0 imo' x = -2 \/ get 0 imo' x = label) /\
      (forall x, inb n x -> get 0 imo0 x = label -> get 0 imo' x = label) /\
      (forall x, In x iq2 -> get 0 imo' x = label) /\
      (forall x, inb n x -> get 0 imoS x = -2 -> get 0 imo' x = label ->
                 forall r, In r (nbrs neigh x) -> get 0 imo' r <> -2).
Proof.
  intros Hlabel. induction fuel as [|fuel IH]; intros iq2 imo0 Hlen Hval Hmask Hfuel F1 F2 G.
  - destruct iq2 as [|i rest].
    + exists imo0. cbn. repeat split; auto; try (intros x []).
      all: intros x Hx HS Hl r Hr Hm; apply (G x Hx HS Hl r Hr Hm).
    + exfalso. inversion Hval as [|? ? Hi _]; subst.
      assert (Hm : get 0 imo0 i = -2) by (apply Hmask; now left).
      assert (count_masked imo0 <> 0)%nat; [|lia].
      unfold count_masked. intros E. apply (count_occ_not_In Z.eq_dec) in E. apply E.
      rewrite <- Hm. unfold get. apply nth_In. unfold inb in Hi. lia.
  - destruct iq2 as [|i rest].
    + exists imo0. cbn. repeat split; auto; try (intros x []).
      all: intros x Hx HS Hl r Hr Hm; apply (G x Hx HS Hl r Hr Hm).
    + cbn [flood].
      destruct (put_all_spec imo0 (i :: rest) label) as (imo1 & E1 & L1 & Pin & Pout & Ple & Plt).
      { now rewrite Hlen. }
      rewrite E1. cbn [bind].
      destruct (neighbour_set_spec (i :: rest) Hval) as (s & E2 & Vs & Ms).
      rewrite E2. cbn [bind].
      rewrite masked_spec by (now rewrite L1, Hlen). cbn [bind].
      set (iq2' := filter (fun j => get 0 imo1 j =? -2) s).
      assert (Pget : forall x, inb n x ->
                get 0 imo1 x = if in_dec Z.eq_dec x (i :: rest) then label else get 0 imo0 x).
      { intros x [Hx _]. destruct (in_dec Z.eq_dec x (i :: rest)); auto. }
      destruct (IH iq2' imo1) as (imo' & E & L & R1 & R2 & R3 & R4 & R5).
      * now rewrite L1.
      * apply Forall_forall. intros x Hx. apply filter_In in Hx.
        rewrite Forall_forall in Vs. now apply Vs.
      * intros x Hx. apply filter_In in Hx. destruct Hx as [_ Hx]. now apply Z.eqb_eq.
      * assert (get 0 imo0 i = -2) by (apply Hmask; now left).
        specialize (Plt Hlabel i (or_introl eq_refl) H). lia.
      * intros x Hx HS. rewrite Pget by assumption.
        destruct (in_dec Z.eq_dec x (i :: rest)) as [Hin|Hin]; [|now apply F1].
        apply Hmask in Hin. rewrite F1 in Hin by assumption. contradiction.
      * intros x Hx HS. rewrite Pget by assumption.
        destruct (in_dec Z.eq_dec x (i :: rest)); [now right | now apply F2].
      * intros x Hx HS Hl r Hr Hm. unfold iq2'. apply filter_In.
        split; [|now apply Z.eqb_eq].
        assert (Hrv : inb n r).
        { pose proof (neigh_valid x Hx) as V. rewrite Forall_forall in V. now apply V. }
        rewrite Pget in Hl by assumption.
        destruct (in_dec Z.eq_dec x (i :: rest)) as [Hin|Hin].
        -- apply Ms. exists x. split; assumption.
        -- exfalso. rewrite Pget in Hm by assumption.
           destruct (in_dec Z.eq_dec r (i :: rest)) as [Hin'|Hin']; [contradiction|].
           apply Hin'. now apply (G x Hx HS Hl r Hr).
      * exists imo'. split; [exact E|]. split; [exact L|].
        split; [exact R1|]. split; [exact R2|]. split; [|split; [|exact R5]].
        -- intros x Hx Hl. apply R3; [exact Hx|]. rewrite Pget by assumption.
           destruct (in_dec Z.eq_dec x (i :: rest)); auto.
        -- intros x Hx.
           assert (Hxv : inb n x) by (rewrite Forall_forall in Hval; now apply Hval).
           apply R3; [exact Hxv|]. rewrite Pget by assumption.
           destruct (in_dec Z.eq_dec x (i :: rest)); [reflexivity | contradiction].
Qed.

(** The flood changes a label only at a pixel of [iq2] or next to a masked
    pixel. *)
Lemma flood_reach (label : Z) :
  label <> -2 ->
  forall fuel iq2 imo0 imo',
    length imo0 = n -> Forall (inb n) iq2 ->
    (forall x, In x iq2 -> get 0 imo0 x = -2) ->
    flood neigh fuel label iq2 imo0 = Ok imo' ->
    forall x, inb n x -> get 0 imo' x <> get 0 imo0 x ->
      In x iq2 \/ exists i, inb n i /\ In x (nbrs neigh i) /\ get 0 imo0 i = -2.
Proof.
  intros Hlabel. induction fuel as [|fuel IH]; intros iq2 imo0 imo' Hlen Hval Hmask E x Hx Hch.
  - destruct iq2; cbn in E; [injection E as <-; contradiction | discriminate].
  - destruct iq2 as [|i rest]; [cbn in E; injection E as <-; contradiction|].
    cbn [flood] in E.
    destruct (put_all_spec imo0 (i :: rest) label) as (imo1 & E1 & L1 & Pin & Pout & _).
    { now rewrite Hlen. }
    rewrite E1 in E. cbn [bind] in E.
    destruct (neighbour_set_spec (i :: rest) Hval) as (s & E2 & Vs & Ms).
    rewrite E2 in E. cbn [bind] in E.
    rewrite masked_spec in E by (now rewrite L1, Hlen). cbn [bind] in E.
    set (iq2' := filter (fun j => get 0 imo1 j =? -2) s) in *.
    destruct (in_dec Z.eq_dec x (i :: rest)) as [Hin|Hnin]; [now left|].
    right.
    assert (Hx0 : 0 <= x) by (unfold inb in Hx; lia).
    assert (Hch' : get 0 imo' x <> get 0 imo1 x) by (rewrite (Pout x Hx0 Hnin); exact Hch).
    assert (V' : Forall (inb n) iq2').
    { apply Forall_forall. intros y Hy. apply filter_In in Hy.
      rewrite Forall_forall in Vs. now apply Vs. }
    assert (M' : forall y, In y iq2' -> get 0 imo1 y = -2).
    { intros y Hy. apply filter_In in Hy. destruct Hy as [_ Hy]. now apply Z.eqb_eq. }
    destruct (IH iq2' imo1 imo' ltac:(now rewrite L1) V' M' E x Hx Hch')
      as [Hin'|(j & Hj & Hxj & Hm)].
    + apply filter_In in Hin'. destruct Hin' as [Hs _]. apply Ms in Hs.
      destruct Hs as (j & Hj & Hxj). exists j.
      split; [rewrite Forall_forall in Hval; now apply Hval|].
      split; [exact Hxj | now apply Hmask].
    + exists j. split; [exact Hj|]. split; [exact Hxj|].
      assert (Hj0 : 0 <= j) by (unfold inb in Hj; lia).
      destruct (in_dec Z.eq_dec j (i :: rest)) as [Hjin|Hjn].
      * now apply Hmask.
      * now rewrite <- (Pout j Hj0 Hjn).
Qed.

End Flood.

(** *** Step 1.c: the new basins of a level *)

Section Basins.

Variable n : nat.
Variable neigh : list (list Z).
Hypothesis neigh_length : length neigh = n.
Hypothesis neigh_valid : forall b, inb n b -> Forall (inb n) (nbrs neigh b).

Lemma basins_refl (st : state) : wf n st -> 0 <= ic_label st -> basins n neigh st st.
Proof.
  intros W L. split; auto.
  - intros x Hx H1 H2. lia.
Qed.

(** Step 1.c gives every pixel of the level that is still masked the label
    of a new basin. *)
Lemma new_basins_spec (stB : state) (ips : list Z) :
  Forall (inb n) ips ->
  forall st, basins n neigh stB st ->
  exists st',
    new_basins neigh ips st = Ok st' /\ basins n neigh stB st' /\
    (forall x, inb n x -> lab st x <> -2 -> lab st' x = lab st x) /\
    (forall x, inb n x -> dist st x = 0 -> dist st' x = 0) /\
    (forall ip, In ip ips -> lab st' ip <> -2 /\ dist st' ip = 0).
Proof.
  induction 1 as [|ip rest Hip Hrest IH]; intros st B.
  - exists st. split; [reflexivity|]. split; [exact B|].
    split; [auto|]. split; [auto|]. intros z [].
  - pose proof (bs_wf _ _ _ _ B) as [Wo Wd]. cbn [new_basins].
    rewrite setitem_upd by (now rewrite Wd). cbn [bind].
    set (st1 := set_imd st (upd (imd st) ip 0)).
    assert (L1 : forall x, lab st1 x = lab st x) by reflexivity.
    assert (D1 : forall x, inb n x -> dist st1 x = if x =? ip then 0 else dist st x).
    { intros x Hx. unfold dist, st1. cbn [set_imd imd]. apply get_upd.
      - now rewrite Wd.
      - unfold inb in Hx; lia. }
    assert (B1 : basins n neigh stB st1).
    { split; try apply B.
      - split; [exact Wo | unfold st1; cbn [set_imd imd]; now rewrite upd_length].
      - intros x Hx. rewrite D1 by assumption.
        destruct (Z.eqb_spec x ip); [now right | apply (bs_dist _ _ _ _ B x Hx)]. }
    rewrite (item_get 0 (imo st1) ip) by (unfold st1; cbn; now rewrite Wo). cbn [bind].
    fold (lab st1 ip).
    destruct (Z.eqb_spec (lab st1 ip) (-2)) as [Hm|Hm].
    + (* a new basin *)
      set (label := ic_label st1 + 1).
      assert (Hlabel : 1 <= label) by (pose proof (bs_label _ _ _ _ B1); unfold label; lia).
      destruct (flood_spec n neigh neigh_length neigh_valid label (imo st1)) with
        (fuel := S (length (imo (set_ic_label st1 label)))) (iq2 := [ip]) (imo0 := imo st1)
        as (imo' & E & L & R1 & R2 & R3 & R4 & R5); auto.
      * lia.
      * intros x [<-|[]]. exact Hm.
      * cbn [set_ic_label imo]. pose proof (count_masked_le (imo st1)). lia.
      * intros x Hx HS Hl. exfalso. lia.
      * cbn [set_ic_label imo ic_label] in *. rewrite E. cbn [bind].
        set (st2 := set_imo (set_ic_label st1 label) imo').
        assert (L2 : forall x, lab st2 x = get 0 imo' x) by reflexivity.
        assert (D2 : forall x, dist st2 x = dist st1 x) by reflexivity.
        assert (B2 : basins n neigh stB st2).
        { split.
          - split; [exact L | apply (bs_wf _ _ _ _ B1)].
          - unfold st2. cbn. lia.
          - intros x Hx HB. rewrite L2, R1; auto.
            + apply (bs_frame _ _ _ _ B1 x Hx HB).
            + fold (lab st1 x). rewrite (bs_frame _ _ _ _ B1 x Hx HB). exact HB.
          - intros x Hx HB. rewrite L2.
            destruct (bs_masked _ _ _ _ B1 x Hx HB) as [H1|H1].
            + destruct (R2 x Hx H1) as [->| ->]; [now left | now right].
            + right. rewrite R1; auto. fold (lab st1 x). lia.
          - intros x Hx HB Hl r Hr. rewrite L2 in *.
            assert (Hrv : inb n r).
            { pose proof (neigh_valid x Hx) as V. rewrite Forall_forall in V. now apply V. }
            destruct (bs_masked _ _ _ _ B1 x Hx HB) as [H1|H1].
            + destruct (R2 x Hx H1) as [H2|H2]; [lia|]. now apply (R5 x Hx H1 H2 r Hr).
            + pose proof (bs_closed _ _ _ _ B1 x Hx HB H1 r Hr) as Hc.
              rewrite R1; auto.
          - intros x Hx. rewrite D2. apply (bs_dist _ _ _ _ B1 x Hx).
          - apply (bs_queue _ _ _ _ B1).
          - apply (bs_mstart _ _ _ _ B1).
          - apply (bs_m _ _ _ _ B1). }
        destruct (IH st2 B2) as (st' & E' & B' & K1 & K2 & K3).
        exists st'. split; [exact E'|]. split; [exact B'|]. split; [|split].
        -- intros x Hx Hl. rewrite K1; auto.
           ++ rewrite L2. rewrite R1; auto.
           ++ rewrite L2. rewrite R1; auto.
        -- intros x Hx Hd. apply K2; [exact Hx|]. rewrite D2, D1 by assumption.
           destruct (x =? ip); auto.
        -- intros z [<-|Hz]; [|now apply K3].
           split.
           ++ assert (E2 : lab st2 ip = label) by (rewrite L2; apply R4; now left).
              rewrite K1; auto; lia.
           ++ apply K2; [exact Hip|]. rewrite D2, D1 by assumption. now rewrite Z.eqb_refl.
    + destruct (IH st1 B1) as (st' & E' & B' & K1 & K2 & K3).
      exists st'. split; [exact E'|]. split; [exact B'|]. split; [|split].
      * intros x Hx Hl. now apply K1.
      * intros x Hx Hd. apply K2; [exact Hx|]. rewrite D1 by assumption.
        destruct (x =? ip); auto.
      * intros z [<-|Hz]; [|now apply K3].
        split.
        -- rewrite K1; auto.
        -- apply K2; [exact Hip|]. rewrite D1 by assumption. now rewrite Z.eqb_refl.
Qed.

(** The loop of step 1.c, pixel by pixel. *)
Lemma new_basins_cons (ip : Z) (rest : list Z) (st : state) :
  new_basins neigh (ip :: rest) st
  = (st1 <- new_basins neigh [ip] st ;; new_basins neigh rest st1).
Proof.
  cbn [new_basins].
  destruct (setitem (imd st) ip 0) as [imd1| |]; cbn [bind]; try reflexivity.
  destruct (item (imo (set_imd st imd1)) ip) as [l| |]; cbn [bind]; try reflexivity.
  destruct (l =? -2); [|reflexivity].
  destruct (flood _ _ _ _ _) as [imo1| |]; reflexivity.
Qed.

(** One pass of the loop of step 1.c: a pixel that is not masked changes no
    label; a masked pixel opens the next basin, whose number goes to the
    pixel itself and to masked pixels next to masked pixels, and to nothing
    else. *)
Lemma new_basins_one (ip : Z) (st : state) :
  wf n st -> 0 <= ic_label st -> inb n ip ->
  exists st',
    new_basins neigh [ip] st = Ok st' /\ wf n st' /\
    (lab st ip <> -2 -> imo st' = imo st /\ ic_label st' = ic_label st) /\
    (lab st ip = -2 ->
       ic_label st' = ic_label st + 1 /\ lab st' ip = ic_label st + 1 /\
       (forall x, inb n x -> lab st x <> -2 -> lab st' x = lab st x) /\
       (forall x, inb n x -> lab st x = -2 ->
          lab st' x = -2 \/
          (lab st' x = ic_label st + 1 /\
           (x = ip \/ exists i, inb n i /\ In x (nbrs neigh i) /\ lab st i = -2)))).
Proof.
  intros [Wo Wd] HK Hip. cbn [new_basins].
  rewrite setitem_upd by (now rewrite Wd). cbn [bind].
  set (st1 := set_imd st (upd (imd st) ip 0)).
  assert (W1 : wf n st1).
  { split; [exact Wo | unfold st1; cbn [set_imd imd]; now rewrite upd_length]. }
  rewrite (item_get 0 (imo st1) ip) by (unfold st1; cbn; now rewrite Wo). cbn [bind].
  change (get 0 (imo st1) ip) with (lab st ip).
  destruct (Z.eqb_spec (lab st ip) (-2)) as [Hm|Hm].
  - set (label := ic_label st + 1).
    change (ic_label st1 + 1) with label.
    assert (Hlabel : label <> -2) by (unfold label; lia).
    destruct (flood_spec n neigh neigh_length neigh_valid label (imo st1) Hlabel
                (S (length (imo (set_ic_label st1 label)))) [ip] (imo st1))
      as (imo' & E & L & R1 & R2 & R3 & R4 & R5); auto.
    + intros x [<-|[]]. exact Hm.
    + cbn [set_ic_label imo]. pose proof (count_masked_le (imo st1)). lia.
    + intros x Hx HS Hl. exfalso. change (get 0 (imo st1) x) with (lab st x) in *.
      unfold label in Hl. lia.
    + cbn [set_ic_label imo ic_label] in *. rewrite E. cbn [bind].
      eexists. split; [reflexivity|]. split; [split; [exact L | apply W1]|].
      split; [intros C; contradiction|]. intros _.
      split; [reflexivity|].
      split; [unfold lab; cbn [set_imo imo]; apply R4; now left|].
      split.
      * intros x Hx Hl. unfold lab at 1. cbn [set_imo imo]. now apply R1.
      * intros x Hx Hl. unfold lab at 1 3. cbn [set_imo imo].
        destruct (R2 x Hx Hl) as [H|H]; [now left | right].
        split; [exact H|].
        assert (M : forall y, In y [ip] -> get 0 (imo st1) y = -2)
          by (intros y [<-|[]]; exact Hm).
        assert (Hch : get 0 imo' x <> get 0 (imo st1) x).
        { change (get 0 (imo st1) x) with (lab st x). rewrite H, Hl. exact Hlabel. }
        destruct (flood_reach n neigh neigh_length neigh_valid label Hlabel
                    (S (length (imo st1))) [ip] (imo st1) imo' Wo
                    (Forall_cons ip Hip (Forall_nil _)) M E x Hx Hch)
          as [[<-|[]]|(i & Hi & Hxi & Hmi)]; [now left | right].
        exists i. auto.
  - eexists. split; [reflexivity|]. split; [exact W1|].
    split; [intros _; split; reflexivity | intros C; contradiction].
Qed.

(** Step 1.c keeps the basins numbered without a gap. *)
Lemma new_basins_numbered (ips : list Z) :
  Forall (inb n) ips ->
  forall st st', wf n st -> 0 <= ic_label st -> numbered n st ->
    new_basins neigh ips st = Ok st' ->
    numbered n st' /\ ic_label st <= ic_label st'.
Proof.
  induction 1 as [|ip rest Hip _ IH]; intros st st' W HK N E.
  - cbn in E. injection E as <-. split; [exact N | lia].
  - rewrite new_basins_cons in E.
    destruct (new_basins_one ip st W HK Hip) as (st1 & E1 & W1 & HA & HB).
    rewrite E1 in E. cbn [bind] in E.
    destruct N as [Nb Ns].
    destruct (Z.eq_dec (lab st ip) (-2)) as [Hm|Hm].
    + destruct (HB Hm) as (EK & Eip & Fr & Fl).
      destruct (IH st1 st' W1 ltac:(lia)) as [N' HK']; [|exact E|split; [exact N' | lia]].
      split.
      * intros b Hb. rewrite EK.
        destruct (Z.eq_dec (lab st b) (-2)) as [Hl|Hl].
        -- destruct (Fl b Hb Hl) as [->|[-> _]]; lia.
        -- rewrite (Fr b Hb Hl). pose proof (Nb b Hb). lia.
      * intros k Hk. rewrite EK in Hk.
        destruct (Z.eq_dec k (ic_label st + 1)) as [->|Hne].
        -- exists ip. auto.
        -- destruct (Ns k ltac:(lia)) as (b & Hb & Hl). exists b. split; [exact Hb|].
           rewrite (Fr b Hb); lia.
    + destruct (HA Hm) as [Eo EK].
      assert (Hlab : forall x, lab st1 x = lab st x) by (intros x; unfold lab; now rewrite Eo).
      destruct (IH st1 st' W1 ltac:(lia)) as [N' HK']; [|exact E|split; [exact N' | lia]].
      split.
      * intros b Hb. rewrite Hlab, EK. now apply Nb.
      * intros k Hk. rewrite EK in Hk. destruct (Ns k Hk) as (b & Hb & Hl).
        exists b. split; [exact Hb | now rewrite Hlab].
Qed.

(** Step 1.c gives every lone pixel it reaches a number of its own. *)
Lemma new_basins_seeds (stB : state) (ips : list Z) :
  (forall a b, inb n a -> In b (nbrs neigh a) -> In a (nbrs neigh b)) ->
  0 <= ic_label stB ->
  Forall (inb n) ips ->
  forall st st', seeded n neigh stB st -> new_basins neigh ips st = Ok st' ->
    seeded n neigh stB st'.
Proof.
  intros neigh_sym HK0. induction 1 as [|ip rest Hip _ IH]; intros st st' S E.
  - cbn in E. injection E as <-. exact S.
  - rewrite new_basins_cons in E.
    pose proof (sd_wf _ _ _ _ S) as W. pose proof (sd_label _ _ _ _ S) as HK.
    destruct (new_basins_one ip st W ltac:(lia) Hip) as (st1 & E1 & W1 & HA & HB).
    rewrite E1 in E. cbn [bind] in E. apply (IH st1 st'); [|exact E].
    destruct (Z.eq_dec (lab st ip) (-2)) as [Hm|Hm].
    + destruct (HB Hm) as (EK & Eip & Fr & Fl).
      assert (Only : forall b, lone n neigh stB b -> lab st b = -2 ->
                       lab st1 b = -2 \/ (lab st1 b = ic_label st + 1 /\ b = ip)).
      { intros b Lb Hb. destruct Lb as (Hbv & _ & Hnb).
        destruct (Fl b Hbv Hb) as [H|[H [->|(i & Hi & Hbi & Hmi)]]]; [now left | now right|].
        exfalso. apply (Hnb i); [now apply neigh_sym|].
        now apply (sd_masked _ _ _ _ S). }
      split.
      * exact W1.
      * lia.
      * intros x Hx Hl. apply (sd_masked _ _ _ _ S x Hx).
        destruct (Z.eq_dec (lab st x) (-2)) as [H|H]; [exact H|].
        rewrite (Fr x Hx H) in Hl. contradiction.
      * intros b Lb. pose proof Lb as (Hbv & _).
        destruct (Z.eq_dec (lab st b) (-2)) as [Hb|Hb].
        -- destruct (Only b Lb Hb) as [H|[H _]]; [now left | right; lia].
        -- rewrite (Fr b Hbv Hb).
           destruct (sd_lone _ _ _ _ S b Lb) as [H|H]; [contradiction | right; lia].
      * intros b b' Lb Lb' Hne Hl.
        pose proof Lb as (Hbv & _). pose proof Lb' as (Hbv' & _).
        destruct (Z.eq_dec (lab st b) (-2)) as [Hb|Hb];
          destruct (Z.eq_dec (lab st b') (-2)) as [Hb'|Hb'].
        -- destruct (Only b Lb Hb) as [H|[H ->]]; [contradiction|].
           destruct (Only b' Lb' Hb') as [H'|[_ H']]; [lia | congruence].
        -- destruct (Only b Lb Hb) as [H|[H ->]]; [contradiction|].
           rewrite (Fr b' Hbv' Hb').
           destruct (sd_lone _ _ _ _ S b' Lb') as [H'|H']; [contradiction | lia].
        -- rewrite (Fr b Hbv Hb).
           destruct (sd_lone _ _ _ _ S b Lb) as [H|H]; [contradiction|].
           destruct (Only b' Lb' Hb') as [H'|[H' _]]; lia.
        -- rewrite (Fr b Hbv Hb), (Fr b' Hbv' Hb').
           apply (sd_apart _ _ _ _ S b b' Lb Lb' Hne Hb).
    + destruct (HA Hm) as [Eo EK].
      assert (Hlab : forall x, lab st1 x = lab st x) by (intros x; unfold lab; now rewrite Eo).
      split.
      * exact W1.
      * lia.
      * intros x Hx. rewrite Hlab. apply (sd_masked _ _ _ _ S x Hx).
      * intros b Lb. rewrite Hlab, EK. apply (sd_lone _ _ _ _ S b Lb).
      * intros b b' Lb Lb' Hne. rewrite !Hlab. apply (sd_apart _ _ _ _ S b b' Lb Lb' Hne).
Qed.

End Basins.

(** *** Labels stay below the number of basins *)

Lemma item_In {A : Type} (l : list A) (i : Z) (x : A) : item l i = Ok x -> In x l.
Proof.
  unfold item. destruct (norm_index l i) as [j|]; [|discriminate].
  destruct (nth_error l j) as [y|] eqn:E; [|discriminate].
  intros [= <-]. eapply nth_error_In; eassumption.
Qed.

Lemma update_Forall {A : Type} (P : A -> Prop) (l : list A) (j : nat) (x : A) :
  Forall P l -> P x -> Forall P (update l j x).
Proof.
  intros Hl Hx. revert j. induction Hl as [|y t Hy Ht IH]; intros [|j]; cbn; auto.
Qed.

Lemma setitem_Forall {A : Type} (P : A -> Prop) (l l' : list A) (i : Z) (x : A) :
  setitem l i x = Ok l' -> Forall P l -> P x -> Forall P l'.
Proof.
  unfold setitem. destruct (norm_index l i) as [j|]; [|discriminate].
  intros [= <-] Hl Hx. now apply update_Forall.
Qed.

(** A visit writes 0 or a label it has read. *)
Lemma visit_bound (K ip d : Z) (st : state) (ipp : Z) (st' : state) :
  0 <= K -> visit ip d st ipp = Ok st' ->
  Forall (fun l => l <= K) (imo st) -> Forall (fun l => l <= K) (imo st').
Proof.
  intros HK E HF. unfold visit in E.
  destruct (item (imo st) ipp) as [lpp| |] eqn:E1; cbn [bind] in E; try discriminate.
  destruct (item (imd st) ipp) as [dpp| |]; cbn [bind] in E; try discriminate.
  assert (Hlpp : lpp <= K).
  { apply item_In in E1. rewrite Forall_forall in HF. now apply HF. }
  destruct ((0 <=? lpp) && (dpp <? d)).
  - destruct (item (imo st) ip) as [lp| |]; cbn [bind] in E; try discriminate.
    destruct (0 <? lpp).
    + destruct ((lp =? -2) || (lp =? 0)).
      * destruct (setitem (imo st) ip lpp) as [imo1| |] eqn:E2; cbn [bind] in E;
          try discriminate.
        injection E as <-. cbn [set_imo imo]. now apply (setitem_Forall _ _ _ _ _ E2).
      * destruct (negb (lp =? lpp)).
        -- destruct (setitem (imo st) ip 0) as [imo1| |] eqn:E2; cbn [bind] in E;
             try discriminate.
           injection E as <-. cbn [set_imo imo]. now apply (setitem_Forall _ _ _ _ _ E2).
        -- injection E as <-. exact HF.
    + destruct (lp =? -2).
      * destruct (setitem (imo st) ip 0) as [imo1| |] eqn:E2; cbn [bind] in E;
          try discriminate.
        injection E as <-. cbn [set_imo imo]. now apply (setitem_Forall _ _ _ _ _ E2).
      * injection E as <-. exact HF.
  - destruct ((lpp =? -2) && (dpp =? 0)).
    + destruct (setitem (imd st) ipp (d + 1)) as [imd1| |]; cbn [bind] in E;
        try discriminate.
      injection E as <-. exact HF.
    + injection E as <-. exact HF.
Qed.

Lemma visit_all_bound (K ip d : Z) (nb : list Z) :
  0 <= K ->
  forall st st', visit_all ip d nb st = Ok st' ->
    Forall (fun l => l <= K) (imo st) -> Forall (fun l => l <= K) (imo st').
Proof.
  intros HK. induction nb as [|ipp rest IH]; intros st st' E HF; cbn [visit_all] in E.
  - injection E as <-. exact HF.
  - destruct (visit ip d st ipp) as [st1| |] eqn:E1; cbn [bind] in E; try discriminate.
    apply (IH st1 st' E). now apply (visit_bound K ip d st ipp st1).
Qed.

(** Step 1.b creates no label. *)
Lemma process_queue_bound (neigh : list (list Z)) (K : Z) (fuel : nat) :
  0 <= K ->
  forall d st st', process_queue neigh fuel d st = Ok st' ->
    Forall (fun l => l <= K) (imo st) -> Forall (fun l => l <= K) (imo st').
Proof.
  intros HK. induction fuel as [|fuel IH]; intros d st st' E HF; cbn [process_queue] in E.
  - discriminate.
  - destruct (pop0 (iq1 st)) as [[ip q]| |]; cbn [bind] in E; try discriminate.
    destruct (ip =? ifict_pixel).
    + destruct q as [|y q'].
      * injection E as <-. exact HF.
      * destruct (pop0 ((y :: q') ++ [ifict_pixel])) as [[ip2 q2]| |]; cbn [bind] in E;
          try discriminate.
        destruct (item neigh ip2) as [nb| |]; cbn [bind] in E; try discriminate.
        destruct (visit_all ip2 (d + 1) nb (set_iq1 st q2)) as [st1| |] eqn:E1;
          cbn [bind] in E; try discriminate.
        apply (IH _ _ _ E). now apply (visit_all_bound K ip2 (d + 1) nb HK _ _ E1).
    + destruct (item neigh ip) as [nb| |]; cbn [bind] in E; try discriminate.
      destruct (visit_all ip d nb (set_iq1 st q)) as [st1| |] eqn:E1;
        cbn [bind] in E; try discriminate.
      apply (IH _ _ _ E). now apply (visit_all_bound K ip d nb HK _ _ E1).
Qed.

Lemma get_Forall {A : Type} (P : A -> Prop) (d : A) (l : list A) (i : Z) :
  Forall P l -> inb (length l) i -> P (get d l i).
Proof.
  intros Hl Hi. rewrite Forall_forall in Hl. apply Hl. unfold get. apply nth_In.
  unfold inb in Hi. lia.
Qed.

Lemma Forall_get (P : Z -> Prop) (l : list Z) :
  (forall b, inb (length l) b -> P (get 0 l b)) -> Forall P l.
Proof.
  intros H. apply Forall_forall. intros x Hx. apply (In_nth _ _ 0) in Hx.
  destruct Hx as (k & Hk & <-). specialize (H (Z.of_nat k)). unfold get in H.
  rewrite Nat2Z.id in H. apply H. unfold inb. lia.
Qed.

(** *** Step 1: a level, and the loop over the levels *)

Lemma slice_In {A : Type} (d : A) (l : list A) (a b : Z) (x : A) :
  0 <= a -> a <= b -> b <= Z.of_nat (length l) ->
  In x (slice l a b) <-> exists q, a <= q < b /\ get d l q = x.
Proof.
  intros Ha Hab Hb. unfold slice, get. split.
  - intros Hin. apply (In_nth _ _ d) in Hin. destruct Hin as (k & Hk & E).
    rewrite length_firstn, length_skipn in Hk.
    exists (a + Z.of_nat k). split; [lia|].
    rewrite nth_firstn in E.
    destruct (Nat.ltb_spec k (Z.to_nat (b - a))); [|lia].
    rewrite nth_skipn in E. rewrite <- E. f_equal. lia.
  - intros (q & Hq & <-).
    replace (Z.to_nat q) with (Z.to_nat a + Z.to_nat (q - a))%nat by lia.
    rewrite <- nth_skipn.
    assert (E : nth (Z.to_nat (q - a)) (firstn (Z.to_nat (b - a)) (skipn (Z.to_nat a) l)) d
                = nth (Z.to_nat (q - a)) (skipn (Z.to_nat a) l) d).
    { rewrite nth_firstn. destruct (Nat.ltb_spec (Z.to_nat (q - a)) (Z.to_nat (b - a))); [reflexivity | lia]. }
    rewrite <- E. apply nth_In. rewrite length_firstn, length_skipn. lia.
Qed.

Section Level_loop.

Variable n : nat.
Variable neigh : list (list Z).
Variable imi ind : list Z.
Hypothesis neigh_length : length neigh = n.
Hypothesis neigh_valid : forall b, inb n b -> Forall (inb n) (nbrs neigh b).
Hypothesis neigh_sym : forall a b, inb n a -> In b (nbrs neigh a) -> In a (nbrs neigh b).
Hypothesis neigh_other : forall b, inb n b -> exists q, In q (nbrs neigh b) /\ q <> b.
Hypothesis imi_length : length imi = n.
Hypothesis ind_length : length ind = n.
Hypothesis ind_valid : Forall (inb n) ind.

Hypothesis ind_onto : forall b, inb n b -> exists p, inb n p /\ at_pos ind p = b.
Hypothesis ind_sorted :
  forall p q, inb n p -> inb n q -> p <= q -> lev imi (at_pos ind p) <= lev imi (at_pos ind q).

Lemma at_pos_valid (p : Z) : inb n p -> inb n (at_pos ind p).
Proof.
  intros Hp. rewrite Forall_forall in ind_valid. apply ind_valid.
  unfold at_pos, get. apply nth_In. unfold inb in Hp. lia.
Qed.

Lemma nbrs_valid (b r : Z) : inb n b -> In r (nbrs neigh b) -> inb n r.
Proof.
  intros Hb Hr. pose proof (neigh_valid b Hb) as V. rewrite Forall_forall in V. now apply V.
Qed.

Lemma labelled_is_lower (ih : Z) (st0 : state) (p : Z) (st : state) (r : Z) :
  ready n imi ind ih st0 -> flagging n neigh imi ind ih st0 p st -> inb n r ->
  0 <= lab st r <-> lev imi r < ih.
Proof.
  intros R F Hr. destruct (Z.eq_dec (lev imi r) ih) as [E|E].
  - destruct (fl_level _ _ _ _ _ _ _ _ F r Hr E) as [[H _]|[H _]]; lia.
  - destruct (fl_other _ _ _ _ _ _ _ _ F r Hr E) as [H _]. rewrite H.
    destruct (Z.lt_ge_cases (lev imi r) ih) as [Hlt|Hge].
    + pose proof (rd_low _ _ _ _ _ R r Hr Hlt). lia.
    + pose proof (rd_high _ _ _ _ _ R r Hr Hge). lia.
Qed.

Lemma existsb_labelled (imo1 : list Z) (nb : list Z) :
  existsb (fun v => 0 <=? v) (map (get 0 imo1) nb) = true <->
  exists r, In r nb /\ 0 <= get 0 imo1 r.
Proof.
  rewrite existsb_exists. split.
  - intros (v & Hin & Hv). apply in_map_iff in Hin. destruct Hin as (r & <- & Hr).
    exists r. split; [exact Hr | now apply Z.leb_le].
  - intros (r & Hr & Hv). exists (get 0 imo1 r). split; [now apply in_map | now apply Z.leb_le].
Qed.

Lemma flagging_m (ih : Z) (st0 : state) (p : Z) (st : state) (m : option Z) :
  flagging n neigh imi ind ih st0 p st -> flagging n neigh imi ind ih st0 p (set_m_var st m).
Proof. intros F. split; apply F. Qed.

Lemma flag_break (ih : Z) (p : Z) (st : state) (rest : list Z) :
  wf n st -> inb n p -> lev imi (at_pos ind p) <> ih ->
  flag_level neigh imi ind ih (p :: rest) st = Ok (set_m_var st (Some p)).
Proof.
  intros [Wo Wd] Hp Hl. cbn [flag_level].
  rewrite (item_get 0 ind p) by (now rewrite ind_length). cbn [bind]. fold (at_pos ind p).
  rewrite (item_get 0 imi (at_pos ind p)) by (rewrite imi_length; now apply at_pos_valid).
  cbn [bind]. fold (lev imi (at_pos ind p)).
  destruct (Z.eqb_spec (lev imi (at_pos ind p)) ih); [contradiction | reflexivity].
Qed.

(** One pass of the loop of step 1.a over a pixel of level [ih]. *)
Lemma flag_step (ih : Z) (st0 : state) (p : Z) (st : state) :
  ready n imi ind ih st0 -> inb n p -> mstart st0 <= p -> flagging n neigh imi ind ih st0 p st ->
  lev imi (at_pos ind p) = ih ->
  exists st2,
    flagging n neigh imi ind ih st0 (p + 1) st2 /\ m_var st2 = Some p /\
    forall rest, flag_level neigh imi ind ih (p :: rest) st
                 = flag_level neigh imi ind ih rest st2.
Proof.
  intros R Hpv Hp F Elev.
  pose proof (rd_mstart _ _ _ _ _ R) as [Hm0 Hm1]. pose proof Hpv as [Hp0 Hp1].
  pose proof (at_pos_valid p Hpv) as Hip.
  pose proof (fl_wf _ _ _ _ _ _ _ _ F) as [Wo Wd].
  set (ip := at_pos ind p) in *.
  set (imo1 := upd (imo st) ip (-2)).
  assert (L1 : forall x, inb n x -> get 0 imo1 x = if x =? ip then -2 else lab st x).
  { intros x Hx. unfold imo1, lab. apply get_upd; [now rewrite Wo | unfold inb in Hx; lia]. }
  assert (HL : existsb (fun v => 0 <=? v) (map (get 0 imo1) (nbrs neigh ip)) = true
               <-> has_lower neigh imi ih ip).
  { rewrite existsb_labelled. unfold has_lower. split.
    - intros (r & Hr & Hv). exists r. split; [exact Hr|].
      pose proof (nbrs_valid ip r Hip Hr) as Hrv.
      rewrite L1 in Hv by assumption.
      destruct (Z.eqb_spec r ip); [lia|].
      now apply (labelled_is_lower ih st0 p st r R F Hrv).
    - intros (r & Hr & Hv). exists r. split; [exact Hr|].
      pose proof (nbrs_valid ip r Hip Hr) as Hrv.
      rewrite L1 by assumption.
      destruct (Z.eqb_spec r ip) as [->|]; [lia|].
      now apply (labelled_is_lower ih st0 p st r R F Hrv). }
  assert (Dip : ~ has_lower neigh imi ih ip -> dist st ip = 0).
  { intros Hno. destruct (fl_level _ _ _ _ _ _ _ _ F ip Hip Elev) as [[_ H]|[_ [[_ [_ H]]|[H _]]]];
      [exact H | contradiction | exact H]. }
  assert (Run : forall rest st2,
            (if existsb (fun v => 0 <=? v) (map (get 0 imo1) (nbrs neigh ip))
             then st2 = set_iq1 (set_imd (set_imo (set_m_var st (Some p)) imo1)
                                         (upd (imd st) ip 1)) (iq1 st ++ [ip])
             else st2 = set_imo (set_m_var st (Some p)) imo1) ->
            flag_level neigh imi ind ih (p :: rest) st
            = flag_level neigh imi ind ih rest st2).
  { intros rest st2 Hst2. cbn [flag_level].
    rewrite (item_get 0 ind p) by (now rewrite ind_length). cbn [bind]. fold (at_pos ind p).
    fold ip.
    rewrite (item_get 0 imi ip) by (now rewrite imi_length). cbn [bind]. fold (lev imi ip).
    rewrite Elev, Z.eqb_refl. cbn [negb set_m_var imo imd iq1].
    rewrite setitem_upd by (now rewrite Wo). cbn [bind set_imo imo imd iq1]. fold imo1.
    rewrite (item_get [] neigh ip) by (now rewrite neigh_length). cbn [bind].
    fold (nbrs neigh ip).
    rewrite (take_get 0) by (unfold imo1; rewrite upd_length, Wo; now apply neigh_valid).
    cbn [bind].
    destruct (existsb (fun v => 0 <=? v) (map (get 0 imo1) (nbrs neigh ip))).
    - cbn [set_imo set_m_var imo imd iq1].
      rewrite setitem_upd by (now rewrite Wd). cbn [bind]. now subst st2.
    - now subst st2. }
  destruct (existsb (fun v => 0 <=? v) (map (get 0 imo1) (nbrs neigh ip))) eqn:Eex.
  - (* the pixel has a labelled neighbour: it joins the queue *)
    assert (Hlow : has_lower neigh imi ih ip) by (now apply HL).
    eexists. split; [|split; [|intros rest; apply Run; reflexivity]]; [|reflexivity].
    set (st2 := set_iq1 _ _).
    assert (L2 : forall x, inb n x -> lab st2 x = if x =? ip then -2 else lab st x).
    { intros x Hx. unfold lab at 1. unfold st2. cbn. now apply L1. }
    assert (D2 : forall x, inb n x -> dist st2 x = if x =? ip then 1 else dist st x).
    { intros x Hx. unfold dist, st2. cbn. apply get_upd; [now rewrite Wd | unfold inb in Hx; lia]. }
    split.
    + split; unfold st2; cbn; [unfold imo1; now rewrite upd_length | now rewrite upd_length].
    + intros b Hb Hl. rewrite L2, D2 by assumption.
      destruct (Z.eqb_spec b ip) as [->|]; [contradiction|]. apply (fl_other _ _ _ _ _ _ _ _ F b Hb Hl).
    + intros b Hb Hl. rewrite L2, D2 by assumption.
      destruct (Z.eqb_spec b ip) as [->|Hne].
      * right. split; [reflexivity|]. left. split; [reflexivity|]. split; [|exact Hlow].
        unfold st2. cbn. apply in_app_iff. right. now left.
      * destruct (fl_level _ _ _ _ _ _ _ _ F b Hb Hl) as [H|[H1 [[H2 [H3 H4]]|H2]]]; [now left| |].
        -- right. split; [exact H1|]. left. split; [exact H2|]. split; [|exact H4].
           unfold st2. cbn. apply in_app_iff. now left.
        -- right. split; [exact H1|]. now right.
    + intros q Hq. rewrite L2 by (apply at_pos_valid; unfold inb; lia).
      destruct (Z.eqb_spec (at_pos ind q) ip); [reflexivity|].
      assert (q <> p) by (intros ->; contradiction).
      apply (fl_done _ _ _ _ _ _ _ _ F). lia.
    + intros x Hx. unfold st2 in Hx. cbn in Hx. apply in_app_iff in Hx.
      destruct Hx as [Hx|[<-|[]]]; [apply (fl_queue _ _ _ _ _ _ _ _ F x Hx)|].
      split; [exact Hip|]. split; [exact Elev | exact Hlow].
    + unfold st2. cbn. rewrite length_app. cbn [length].
      pose proof (fl_qlen _ _ _ _ _ _ _ _ F). lia.
    + apply (fl_label _ _ _ _ _ _ _ _ F).
    + apply (fl_mstart _ _ _ _ _ _ _ _ F).
  - (* no labelled neighbour: the pixel stays flagged *)
    assert (Hlow : ~ has_lower neigh imi ih ip).
    { intros H. apply HL in H. congruence. }
    eexists. split; [|split; [|intros rest; apply Run; reflexivity]]; [|reflexivity].
    set (st2 := set_imo _ _).
    assert (L2 : forall x, inb n x -> lab st2 x = if x =? ip then -2 else lab st x).
    { intros x Hx. unfold lab at 1. unfold st2. cbn. now apply L1. }
    assert (D2 : forall x, dist st2 x = dist st x) by reflexivity.
    split.
    + split; unfold st2; cbn; [unfold imo1; now rewrite upd_length | exact Wd].
    + intros b Hb Hl. rewrite L2, D2 by assumption.
      destruct (Z.eqb_spec b ip) as [->|]; [contradiction|]. apply (fl_other _ _ _ _ _ _ _ _ F b Hb Hl).
    + intros b Hb Hl. rewrite L2, D2 by assumption.
      destruct (Z.eqb_spec b ip) as [->|Hne].
      * right. split; [reflexivity|]. right. split; [now apply Dip | exact Hlow].
      * apply (fl_level _ _ _ _ _ _ _ _ F b Hb Hl).
    + intros q Hq. rewrite L2 by (apply at_pos_valid; unfold inb; lia).
      destruct (Z.eqb_spec (at_pos ind q) ip); [reflexivity|].
      assert (q <> p) by (intros ->; contradiction).
      apply (fl_done _ _ _ _ _ _ _ _ F). lia.
    + intros x Hx. apply (fl_queue _ _ _ _ _ _ _ _ F x Hx).
    + unfold st2. cbn. pose proof (fl_qlen _ _ _ _ _ _ _ _ F). lia.
    + apply (fl_label _ _ _ _ _ _ _ _ F).
    + apply (fl_mstart _ _ _ _ _ _ _ _ F).
Qed.

(** The loop of step 1.a flags the pixels of level [ih] and stops at the
    first pixel above the level or at the end of the array. *)
Lemma flag_level_spec (ih : Z) (st0 : state) :
  ready n imi ind ih st0 ->
  forall (k : nat) (p : Z) (st : state),
    Z.of_nat k = Z.of_nat n - 1 - p -> mstart st0 <= p ->
    flagging n neigh imi ind ih st0 p st ->
    exists st' pe,
      flag_level neigh imi ind ih (range2 p (Z.of_nat n)) st = Ok st' /\
      flagging n neigh imi ind ih st0 pe st' /\ p <= pe /\
      ((pe < Z.of_nat n /\ lev imi (at_pos ind pe) <> ih /\ m_var st' = Some pe) \/
       (pe = Z.of_nat n /\ m_var st' = Some (Z.of_nat n - 1))).
Proof.
  intros R. pose proof (rd_mstart _ _ _ _ _ R) as [Hm0 Hm1].
  induction k as [|k IH]; intros p st Hk Hp F.
  all: assert (Hpv : inb n p) by (unfold inb; lia).
  all: rewrite (range2_cons p (Z.of_nat n)) by lia.
  all: destruct (Z.eq_dec (lev imi (at_pos ind p)) ih) as [Elev|Elev].
  all: try (rewrite flag_break by (auto; apply F);
            exists (set_m_var st (Some p)), p; split; [reflexivity|];
            split; [now apply flagging_m|]; split; [lia|]; left; repeat split; auto; lia).
  - destruct (flag_step ih st0 p st R Hpv Hp F Elev) as (st2 & F2 & Hm & Run).
    rewrite Run. replace (p + 1) with (Z.of_nat n) in * by lia.
    unfold range2. rewrite Z.sub_diag. cbn [Z.to_nat seq map flag_level].
    exists st2, (Z.of_nat n). split; [reflexivity|]. split; [exact F2|]. split; [lia|].
    right. split; [reflexivity|]. rewrite Hm. f_equal. lia.
  - destruct (flag_step ih st0 p st R Hpv Hp F Elev) as (st2 & F2 & Hm & Run).
    rewrite Run.
    destruct (IH (p + 1) st2) as (st' & pe & E & F' & Hpe & Hstop); [lia | lia | exact F2 |].
    exists st', pe. split; [exact E|]. split; [exact F'|]. split; [lia | exact Hstop].
Qed.


(** A level without a pixel: the loop of step 1.a breaks at once and the
    pass changes no array. *)
Lemma level_skip (ih : Z) (st : state) :
  wf n st -> iq1 st = [] -> inb n (mstart st) -> lev imi (at_pos ind (mstart st)) <> ih ->
  exists st',
    level neigh imi ind (Z.of_nat n) st ih = Ok st' /\
    imo st' = imo st /\ imd st' = imd st /\ iq1 st' = [] /\
    ic_label st' = ic_label st /\ mstart st' = mstart st.
Proof.
  intros W Hq Hm Hl. unfold level.
  rewrite (range2_cons (mstart st)) by (unfold inb in Hm; lia).
  rewrite flag_break by assumption. cbn [bind set_m_var iq1 imo].
  rewrite Hq. cbn [app].
  change (imo (set_iq1 (set_m_var st (Some (mstart st))) [ifict_pixel])) with (imo st).
  replace (2 * length (imo st) + 2)%nat with (S (2 * length (imo st) + 1)) by lia.
  cbn [process_queue set_iq1 iq1 pop0 bind]. rewrite Z.eqb_refl.
  cbn [bind m_var mstart set_iq1 set_m_var]. unfold slice. rewrite Z.sub_diag. cbn [Z.to_nat firstn new_basins bind].
  eexists. split; [reflexivity|]. cbn. auto.
Qed.

(** After step 1.a the pixels of the level are the flagged ones: they sit at
    the positions [mstart .. pe - 1] of the sort order. *)
Lemma flagged_level (ih : Z) (st0 stA : state) (pe : Z) :
  ready n imi ind ih st0 -> flagging n neigh imi ind ih st0 pe stA ->
  mstart st0 <= pe <= Z.of_nat n ->
  (pe < Z.of_nat n /\ lev imi (at_pos ind pe) <> ih) \/ pe = Z.of_nat n ->
  (forall q, mstart st0 <= q < pe -> lev imi (at_pos ind q) = ih) /\
  (forall b, inb n b -> lev imi b = ih ->
             exists q, mstart st0 <= q < pe /\ at_pos ind q = b) /\
  (forall b, inb n b -> lev imi b = ih -> lab stA b = -2) /\
  (forall b, inb n b -> lab stA b = -2 -> lev imi b = ih) /\
  (forall b, inb n b -> lev imi b < ih -> 0 <= lab stA b /\ dist stA b = 0) /\
  (forall b, inb n b -> ih < lev imi b -> lab stA b = -1 /\ dist stA b = 0).
Proof.
  intros R FA Hpe' Hstop. pose proof (rd_mstart _ _ _ _ _ R) as Hms. pose proof Hms as [Hm0 Hm1].
  set (ms := mstart st0) in *.
  assert (A1 : forall q, ms <= q < pe -> lev imi (at_pos ind q) = ih).
  { intros q Hq. destruct (Z.eq_dec (lev imi (at_pos ind q)) ih) as [E|E]; [exact E|exfalso].
    assert (Hqv : inb n (at_pos ind q)) by (apply at_pos_valid; unfold inb; lia).
    pose proof (fl_done _ _ _ _ _ _ _ _ FA q Hq) as Hd.
    destruct (fl_other _ _ _ _ _ _ _ _ FA _ Hqv E) as [Hl _]. rewrite Hl in Hd.
    destruct (Z.lt_ge_cases (lev imi (at_pos ind q)) ih) as [Hlt|Hge].
    - pose proof (rd_low _ _ _ _ _ R _ Hqv Hlt). lia.
    - pose proof (rd_high _ _ _ _ _ R _ Hqv Hge). lia. }
  assert (A2 : forall b, inb n b -> lev imi b = ih -> exists q, ms <= q < pe /\ at_pos ind q = b).
  { intros b Hb Hl. destruct (ind_onto b Hb) as (q & Hq & <-). exists q.
    split; [|reflexivity]. split.
    - destruct (Z.lt_ge_cases q ms) as [Hlt|]; [|lia].
      pose proof (rd_before _ _ _ _ _ R q Hq Hlt). lia.
    - destruct Hstop as [(H1 & H2)|H1]; [|unfold inb in Hq; lia].
      destruct (Z.lt_ge_cases q pe) as [|Hge]; [assumption|exfalso].
      assert (Hpev : inb n pe) by (unfold inb; lia).
      pose proof (ind_sorted pe q Hpev Hq Hge).
      pose proof (rd_after _ _ _ _ _ R pe Hpev ltac:(lia)). lia. }
  assert (A3 : forall b, inb n b -> lev imi b = ih -> lab stA b = -2).
  { intros b Hb Hl. destruct (A2 b Hb Hl) as (q & Hq & <-). now apply (fl_done _ _ _ _ _ _ _ _ FA). }
  assert (A4 : forall b, inb n b -> lab stA b = -2 -> lev imi b = ih).
  { intros b Hb Hl. destruct (Z.eq_dec (lev imi b) ih) as [E|E]; [exact E|exfalso].
    destruct (fl_other _ _ _ _ _ _ _ _ FA _ Hb E) as [Hl' _]. rewrite Hl' in Hl.
    destruct (Z.lt_ge_cases (lev imi b) ih) as [Hlt|Hge].
    - pose proof (rd_low _ _ _ _ _ R _ Hb Hlt). lia.
    - pose proof (rd_high _ _ _ _ _ R _ Hb Hge). lia. }
  assert (A5 : forall b, inb n b -> lev imi b < ih -> 0 <= lab stA b /\ dist stA b = 0).
  { intros b Hb Hl. destruct (fl_other _ _ _ _ _ _ _ _ FA b Hb ltac:(lia)) as [H1 H2].
    rewrite H1. split; [now apply (rd_low _ _ _ _ _ R) | exact H2]. }
  assert (A6 : forall b, inb n b -> ih < lev imi b -> lab stA b = -1 /\ dist stA b = 0).
  { intros b Hb Hl. destruct (fl_other _ _ _ _ _ _ _ _ FA b Hb ltac:(lia)) as [H1 H2].
    rewrite H1. split; [apply (rd_high _ _ _ _ _ R); [exact Hb | lia] | exact H2]. }
  auto 7.
Qed.

(** A level with pixels goes through the three steps. *)
Lemma level_stages (ih : Z) (st0 : state) :
  ready n imi ind ih st0 -> lev imi (at_pos ind (mstart st0)) = ih ->
  exists stA pe stB stC m, level_trace n neigh imi ind ih st0 stA pe stB stC m.
Proof.
  intros R Elev. pose proof (rd_mstart _ _ _ _ _ R) as Hms. pose proof Hms as [Hm0 Hm1].
  set (ms := mstart st0) in *.
  (* 1.a *)
  assert (F0 : flagging n neigh imi ind ih st0 ms st0).
  { split.
    - apply R.
    - intros b Hb Hl. split; [reflexivity | apply (rd_dist _ _ _ _ _ R b Hb)].
    - intros b Hb Hl. left. split; [apply (rd_high _ _ _ _ _ R b Hb); lia | apply (rd_dist _ _ _ _ _ R b Hb)].
    - intros q Hq. lia.
    - rewrite (rd_queue _ _ _ _ _ R). intros x [].
    - rewrite (rd_queue _ _ _ _ _ R). cbn. lia.
    - reflexivity.
    - reflexivity. }
  destruct (flag_level_spec ih st0 R (Z.to_nat (Z.of_nat n - 1 - ms)) ms st0)
    as (stA & pe & EA & FA & Hpe & Hstop); [lia | lia | exact F0 |].
  assert (Hpe' : ms < pe <= Z.of_nat n).
  { destruct Hstop as [(H1 & H2 & _)|(H1 & _)]; [|lia].
    split; [|lia]. destruct (Z.eq_dec pe ms) as [->|]; [contradiction | lia]. }
  assert (Hstop' : (pe < Z.of_nat n /\ lev imi (at_pos ind pe) <> ih) \/ pe = Z.of_nat n).
  { destruct Hstop as [(H1 & H2 & _)|(H1 & _)]; [left; auto | now right]. }
  destruct (flagged_level ih st0 stA pe R FA ltac:(fold ms; lia) Hstop')
    as (A1 & A2 & A3 & A4 & A5 & A6).
  fold ms in A1, A2.
  pose proof (fl_wf _ _ _ _ _ _ _ _ FA) as WA. pose proof WA as [WAo WAd].
  (* 1.b *)
  set (st1 := set_iq1 stA (iq1 stA ++ [ifict_pixel])).
  assert (Rg : frontier n neigh stA 1 st1 (iq1 stA) []).
  { split.
    - exact WA.
    - lia.
    - intros x Hx. destruct (fl_queue _ _ _ _ _ _ _ _ FA x Hx) as (Hxv & Hxl & (r & Hr & Hrl)).
      pose proof (A3 x Hxv Hxl) as Hm.
      destruct (fl_level _ _ _ _ _ _ _ _ FA x Hxv Hxl) as [[H _]|[_ [[H _]|[_ H]]]].
      + change (lab stA x = -1) in H. lia.
      + split; [exact Hxv|]. split; [exact Hm|]. split; [exact H|]. split; [now left|].
        exists r. pose proof (nbrs_valid x r Hxv Hr) as Hrv.
        destruct (A5 r Hrv Hrl) as [G1 G2].
        split; [exact Hr|]. split; [exact Hrv|]. split; [exact G1|].
        change (dist st1 r) with (dist stA r). lia.
      + exfalso. apply H. exists r. auto.
    - intros x [].
    - intros x Hx Hl. split; reflexivity.
    - intros x Hx Hl. now left.
    - intros x Hx Hl Hd. left.
      change (lab st1 x) with (lab stA x) in Hl. change (dist st1 x) with (dist stA x) in Hd.
      pose proof (A4 x Hx Hl) as Hxl.
      destruct (fl_level _ _ _ _ _ _ _ _ FA x Hx Hxl) as [[_ H]|[_ [[_ [H _]]|[H _]]]];
        [contradiction | exact H | contradiction].
    - intros x Hx Hd. exact Hd.
    - reflexivity.
    - reflexivity.
    - reflexivity.
    - intros x Hx Hl H0. change (lab st1 x) with (lab stA x) in H0. lia. }
  destruct (process_queue_spec n neigh neigh_length neigh_valid neigh_sym stA
              (2 * length (imo st1) + 2) 1 st1 (iq1 stA) [] Rg)
    as (stB & EB & DB).
  { unfold st1. cbn [set_iq1 iq1]. reflexivity. }
  { unfold st1. cbn [set_iq1 iq1 imo imd]. rewrite length_app. cbn [length].
    pose proof (count0_le (imd stA)). pose proof (fl_qlen _ _ _ _ _ _ _ _ FA). lia. }
  (* 1.c *)
  set (m := if Z.eq_dec pe (Z.of_nat n) then Z.of_nat n - 1 else pe).
  assert (Hmv : m_var stB = Some m).
  { rewrite (dr_m _ _ _ _ DB). unfold m.
    destruct Hstop as [(H1 & _ & H3)|(H1 & H3)]; destruct (Z.eq_dec pe (Z.of_nat n)); try lia; auto. }
  assert (Hm : ms <= m <= pe /\ m < Z.of_nat n).
  { unfold m. destruct (Z.eq_dec pe (Z.of_nat n)); lia. }
  assert (Hips : Forall (inb n) (slice ind ms m)).
  { apply Forall_forall. intros x Hx.
    rewrite (slice_In 0) in Hx by (rewrite ?ind_length; lia).
    destruct Hx as (q & Hq & <-). apply at_pos_valid. unfold inb. lia. }
  assert (WB : wf n stB) by apply DB.
  assert (LB : 0 <= ic_label stB).
  { rewrite (dr_label _ _ _ _ DB), (fl_label _ _ _ _ _ _ _ _ FA). apply R. }
  destruct (new_basins_spec n neigh neigh_length neigh_valid stB (slice ind ms m) Hips stB
              (basins_refl n neigh neigh_length stB WB LB))
    as (stC & EC & BC & K1 & K2 & K3).
  exists stA, pe, stB, stC, m. split.
  - exact EA.
  - exact FA.
  - exact Hpe'.
  - exact Hstop'.
  - exact EB.
  - exact DB.
  - reflexivity.
  - exact EC.
  - exact BC.
  - exact K3.
  - unfold level. fold ms. rewrite EA. cbn [bind]. fold st1. rewrite EB. cbn [bind].
    rewrite Hmv. rewrite (dr_mstart _ _ _ _ DB), (fl_mstart _ _ _ _ _ _ _ _ FA). fold ms.
    rewrite EC. reflexivity.
Qed.

(** A level with pixels: after the pass every pixel up to the level carries
    a label. *)
Lemma level_run (ih : Z) (st0 : state) :
  ready n imi ind ih st0 -> lev imi (at_pos ind (mstart st0)) = ih ->
  exists st',
    level neigh imi ind (Z.of_nat n) st0 ih = Ok st' /\
    (ready n imi ind (ih + 1) st' \/ finished n imi ind (ih + 1) st').
Proof.
  intros R Elev.
  destruct (level_stages ih st0 R Elev) as (stA & pe & stB & stC & m & T).
  pose proof (rd_mstart _ _ _ _ _ R) as Hms. pose proof Hms as [Hm0 Hm1].
  pose proof (lt_flagging _ _ _ _ _ _ _ _ _ _ _ T) as FA.
  pose proof (lt_pe _ _ _ _ _ _ _ _ _ _ _ T) as Hpe'.
  pose proof (lt_stop _ _ _ _ _ _ _ _ _ _ _ T) as Hstop.
  pose proof (lt_drained _ _ _ _ _ _ _ _ _ _ _ T) as DB.
  pose proof (lt_basins _ _ _ _ _ _ _ _ _ _ _ T) as BC.
  pose proof (lt_swept _ _ _ _ _ _ _ _ _ _ _ T) as K3.
  pose proof (lt_m _ _ _ _ _ _ _ _ _ _ _ T) as Hmdef.
  destruct (flagged_level ih st0 stA pe R FA ltac:(lia) Hstop)
    as (A1 & A2 & A3 & A4 & A5 & A6).
  set (ms := mstart st0) in *.
  assert (Hm : ms <= m <= pe /\ m < Z.of_nat n).
  { rewrite Hmdef. destruct (Z.eq_dec pe (Z.of_nat n)); lia. }
  exists (set_mstart stC m). split; [apply (lt_level _ _ _ _ _ _ _ _ _ _ _ T)|].
  (* the labels after the level *)
  assert (Low : forall b, inb n b -> lev imi b < ih -> 0 <= lab stC b /\ dist stC b = 0).
  { intros b Hb Hl. destruct (A5 b Hb Hl) as [G1 G2].
    destruct (dr_frame _ _ _ _ DB b Hb ltac:(lia)) as [E1 E2].
    rewrite (bs_frame _ _ _ _ BC b Hb) by lia. split; [lia|].
    destruct (bs_dist _ _ _ _ BC b Hb) as [E|E]; lia. }
  assert (High : forall b, inb n b -> ih < lev imi b -> lab stC b = -1 /\ dist stC b = 0).
  { intros b Hb Hl. destruct (A6 b Hb Hl) as [G1 G2].
    destruct (dr_frame _ _ _ _ DB b Hb ltac:(lia)) as [E1 E2].
    rewrite (bs_frame _ _ _ _ BC b Hb) by lia. split; [lia|].
    destruct (bs_dist _ _ _ _ BC b Hb) as [E|E]; lia. }
  assert (Range : forall b, inb n b -> lev imi b = ih -> lab stC b = -2 \/ 0 <= lab stC b).
  { intros b Hb Hl. pose proof (A3 b Hb Hl) as HA.
    destruct (dr_masked _ _ _ _ DB b Hb HA) as [HB|[HB _]].
    - destruct (bs_masked _ _ _ _ BC b Hb HB); [now left | right; lia].
    - right. rewrite (bs_frame _ _ _ _ BC b Hb); lia. }
  assert (Mid : forall q, ms <= q < m -> 0 <= lab stC (at_pos ind q) /\ dist stC (at_pos ind q) = 0).
  { intros q Hq.
    assert (Hin : In (at_pos ind q) (slice ind ms m)).
    { rewrite (slice_In 0) by (rewrite ?ind_length; lia).
      exists q. split; [lia | reflexivity]. }
    destruct (K3 _ Hin) as [G1 G2]. split; [|exact G2].
    assert (Hqv : inb n (at_pos ind q)) by (apply at_pos_valid; unfold inb; lia).
    destruct (Range (at_pos ind q) Hqv (A1 q ltac:(lia))); lia. }
  destruct (Z.eq_dec pe (Z.of_nat n)) as [Eend|Eend].
  - (* the loop of 1.a ran to the end of the array *)
    right. assert (Em : m = Z.of_nat n - 1) by (rewrite Hmdef; destruct (Z.eq_dec pe (Z.of_nat n)); lia).
    split.
    + apply BC.
    + cbn [set_mstart iq1]. rewrite (bs_queue _ _ _ _ BC). apply DB.
    + cbn [set_mstart mstart]. exact Em.
    + rewrite (A1 (Z.of_nat n - 1)) by lia. lia.
    + intros b Hb. change (lab (set_mstart stC m) b) with (lab stC b).
      destruct (Z.lt_trichotomy (lev imi b) ih) as [Hlt|[Heq|Hgt]].
      * now apply Low.
      * destruct (A2 b Hb Heq) as (q & Hq & Eq).
        destruct (Z.eq_dec q (Z.of_nat n - 1)) as [Hlast|Hnl];
          [|rewrite <- Eq; apply Mid; lia].
        (* the last pixel of the array *)
        pose proof (A3 b Hb Heq) as HA.
        destruct (dr_masked _ _ _ _ DB b Hb HA) as [HB|[HB _]];
          [|rewrite (bs_frame _ _ _ _ BC b Hb); lia].
        assert (Hgoal : lab stC b <> -2);
          [|destruct (bs_masked _ _ _ _ BC b Hb HB) as [H'|H']; [contradiction | lia]].
        assert (D0 : dist stA b = 0).
        { destruct (Z.eq_dec (dist stA b) 0) as [E|E]; [exact E|].
          pose proof (dr_dist0 _ _ _ _ DB b Hb E). pose proof (dr_pending _ _ _ _ DB b Hb HB). lia. }
        assert (Hno : ~ has_lower neigh imi ih b).
        { destruct (fl_level _ _ _ _ _ _ _ _ FA b Hb Heq) as [[H _]|[_ [[H _]|[_ H]]]]; [lia | lia | exact H]. }
        destruct (neigh_other b Hb) as (q' & Hq' & Hne).
        pose proof (nbrs_valid b q' Hb Hq') as Hq'v.
        assert (Hq'l : lev imi q' = ih).
        { destruct (Z.lt_trichotomy (lev imi q') ih) as [Hlt|[Heq'|Hgt]]; [|exact Heq'|].
          - exfalso. apply Hno. exists q'. auto.
          - exfalso. destruct (ind_onto q' Hq'v) as (j & Hj & Ej).
            destruct (Z.lt_ge_cases j ms) as [H|H].
            + pose proof (rd_before _ _ _ _ _ R j Hj H). rewrite Ej in *. lia.
            + pose proof (A1 j ltac:(unfold inb in Hj; lia)). rewrite Ej in *. lia. }
        destruct (A2 q' Hq'v Hq'l) as (j & Hj & Ej).
        assert (Hjm : ms <= j < m).
        { split; [lia|]. destruct (Z.eq_dec j (Z.of_nat n - 1)) as [->|]; [|lia].
          exfalso. apply Hne. rewrite <- Ej, <- Eq, Hlast. reflexivity. }
        destruct (Mid j Hjm) as [Gq _]. rewrite Ej in Gq.
        pose proof (A3 q' Hq'v Hq'l) as HAq.
        assert (Hbq : In b (nbrs neigh q')) by (now apply neigh_sym).
        destruct (dr_masked _ _ _ _ DB q' Hq'v HAq) as [HBq|[_ HBq]].
        -- destruct (bs_masked _ _ _ _ BC q' Hq'v HBq) as [H|H]; [lia|].
           apply (bs_closed _ _ _ _ BC q' Hq'v HBq H b Hbq).
        -- exfalso. apply (HBq b Hbq). exact HB.
      * exfalso. destruct (ind_onto b Hb) as (j & Hj & Ej).
        destruct (Z.lt_ge_cases j ms) as [H|H].
        -- pose proof (rd_before _ _ _ _ _ R j Hj H). rewrite Ej in *. lia.
        -- pose proof (A1 j ltac:(unfold inb in Hj; lia)). rewrite Ej in *. lia.
  - (* the loop of 1.a broke at position pe *)
    left. assert (Em : m = pe) by (rewrite Hmdef; destruct (Z.eq_dec pe (Z.of_nat n)); [contradiction | reflexivity]).
    destruct Hstop as [(H1 & H2)|H1]; [|contradiction].
    assert (Hpev : inb n pe) by (unfold inb; lia).
    assert (Hpel : ih < lev imi (at_pos ind pe)).
    { pose proof (rd_after _ _ _ _ _ R pe Hpev ltac:(lia)). lia. }
    split.
    + apply BC.
    + cbn [set_mstart iq1]. rewrite (bs_queue _ _ _ _ BC). apply DB.
    + cbn [set_mstart ic_label]. apply BC.
    + cbn [set_mstart mstart]. now rewrite Em.
    + cbn [set_mstart mstart]. rewrite Em. intros p Hp Hlt.
      destruct (Z.lt_ge_cases p ms) as [H|H].
      * pose proof (rd_before _ _ _ _ _ R p Hp H). lia.
      * rewrite (A1 p) by lia. lia.
    + cbn [set_mstart mstart]. rewrite Em. intros p Hp Hge.
      pose proof (ind_sorted pe p Hpev Hp Hge). lia.
    + intros b Hb Hl. change (lab (set_mstart stC m) b) with (lab stC b).
      destruct (Z.eq_dec (lev imi b) ih) as [Heq|Hneq]; [|apply Low; [exact Hb | lia]].
      destruct (A2 b Hb Heq) as (q & Hq & <-). apply Mid. lia.
    + intros b Hb Hl. change (lab (set_mstart stC m) b) with (lab stC b).
      apply High; [exact Hb | lia].
    + intros b Hb. change (dist (set_mstart stC m) b) with (dist stC b).
      destruct (Z.lt_trichotomy (lev imi b) ih) as [Hlt|[Heq|Hgt]].
      * now apply Low.
      * destruct (A2 b Hb Heq) as (q & Hq & <-). apply Mid. lia.
      * now apply High.
Qed.


(** A level without a pixel keeps the state ready for the next level. *)
Lemma level_idle (ih : Z) (st : state) :
  ready n imi ind ih st -> lev imi (at_pos ind (mstart st)) <> ih ->
  exists st', level neigh imi ind (Z.of_nat n) st ih = Ok st' /\ ready n imi ind (ih + 1) st'.
Proof.
  intros R Hne.
  destruct (level_skip ih st (rd_wf _ _ _ _ _ R) (rd_queue _ _ _ _ _ R) (rd_mstart _ _ _ _ _ R) Hne)
    as (st' & E & Ho & Hd & Hq & Hl & Hm).
  exists st'. split; [exact E|].
  assert (Hlab : forall b, lab st' b = lab st b) by (intros b; unfold lab; now rewrite Ho).
  assert (Hdist : forall b, dist st' b = dist st b) by (intros b; unfold dist; now rewrite Hd).
  pose proof (rd_mstart _ _ _ _ _ R) as Hms.
  pose proof (rd_after _ _ _ _ _ R (mstart st) Hms ltac:(lia)) as Hge.
  assert (Hsplit : forall b, inb n b -> lev imi b < ih \/ ih + 1 <= lev imi b).
  { intros b Hb. destruct (ind_onto b Hb) as (p & Hp & <-).
    destruct (Z.lt_ge_cases p (mstart st)) as [H|H].
    - left. now apply (rd_before _ _ _ _ _ R).
    - right. pose proof (ind_sorted (mstart st) p Hms Hp H). lia. }
  split.
  - destruct (rd_wf _ _ _ _ _ R) as [W1 W2]. split; congruence.
  - exact Hq.
  - rewrite Hl. apply R.
  - rewrite Hm. exact Hms.
  - rewrite Hm. intros p Hp Hlt. pose proof (rd_before _ _ _ _ _ R p Hp Hlt). lia.
  - rewrite Hm. intros p Hp Hle. pose proof (ind_sorted (mstart st) p Hms Hp Hle). lia.
  - intros b Hb Hlt. rewrite Hlab. apply (rd_low _ _ _ _ _ R b Hb).
    destruct (Hsplit b Hb); lia.
  - intros b Hb Hle. rewrite Hlab. apply (rd_high _ _ _ _ _ R b Hb). lia.
  - intros b Hb. rewrite Hdist. now apply (rd_dist _ _ _ _ _ R).
Qed.

(** Once the last pixel is labelled the later levels change nothing. *)
Lemma level_finished (ih : Z) (st : state) :
  0 < Z.of_nat n -> finished n imi ind ih st ->
  exists st', level neigh imi ind (Z.of_nat n) st ih = Ok st' /\ finished n imi ind (ih + 1) st'.
Proof.
  intros Hn F.
  assert (Hms : inb n (mstart st)) by (rewrite (fn_mstart _ _ _ _ _ F); unfold inb; lia).
  assert (Hne : lev imi (at_pos ind (mstart st)) <> ih).
  { rewrite (fn_mstart _ _ _ _ _ F). pose proof (fn_last _ _ _ _ _ F). lia. }
  destruct (level_skip ih st (fn_wf _ _ _ _ _ F) (fn_queue _ _ _ _ _ F) Hms Hne)
    as (st' & E & Ho & Hd & Hq & Hl & Hm).
  exists st'. split; [exact E|]. split.
  - destruct (fn_wf _ _ _ _ _ F) as [W1 W2]. split; congruence.
  - exact Hq.
  - rewrite Hm. apply F.
  - pose proof (fn_last _ _ _ _ _ F). lia.
  - intros b Hb. unfold lab. rewrite Ho. now apply (fn_all _ _ _ _ _ F).
Qed.

(** One pass of the loop over the levels. *)
Lemma level_spec (ih : Z) (st : state) :
  0 < Z.of_nat n -> ready n imi ind ih st \/ finished n imi ind ih st ->
  exists st', level neigh imi ind (Z.of_nat n) st ih = Ok st' /\
              (ready n imi ind (ih + 1) st' \/ finished n imi ind (ih + 1) st').
Proof.
  intros Hn [R|F].
  - destruct (Z.eq_dec (lev imi (at_pos ind (mstart st))) ih) as [E|E].
    + now apply level_run.
    + destruct (level_idle ih st R E) as (st' & E' & R'). eauto.
  - destruct (level_finished ih st Hn F) as (st' & E' & F'). eauto.
Qed.

(** [k] passes of the loop over the levels. *)
Lemma all_levels_spec (k : nat) :
  0 < Z.of_nat n ->
  forall ih st, ready n imi ind ih st \/ finished n imi ind ih st ->
  exists st', all_levels neigh imi ind (Z.of_nat n) (range2 ih (ih + Z.of_nat k)) st = Ok st' /\
              (ready n imi ind (ih + Z.of_nat k) st' \/ finished n imi ind (ih + Z.of_nat k) st').
Proof.
  intros Hn. induction k as [|k IH]; intros ih st H.
  - replace (ih + Z.of_nat 0) with ih by lia. unfold range2. rewrite Z.sub_diag.
    cbn. eauto.
  - rewrite range2_cons by lia.
    destruct (level_spec ih st Hn H) as (st1 & E1 & H1).
    cbn [all_levels]. rewrite E1. cbn [bind].
    destruct (IH (ih + 1) st1 H1) as (st' & E' & H').
    replace (ih + 1 + Z.of_nat k) with (ih + Z.of_nat (S k)) in * by lia.
    eauto.
Qed.

Lemma range_range2 (m : Z) : range m = range2 0 m.
Proof.
  unfold range, range2. rewrite Z.sub_0_r. apply map_ext. intros a. lia.
Qed.

Lemma initial_ready :
  0 < Z.of_nat n -> (forall b, inb n b -> 0 <= lev imi b) ->
  ready n imi ind 0 (initial_state (Z.of_nat n)).
Proof.
  intros Hn Hlev.
  assert (L1 : forall (c : Z), length (map (fun _ : Z => c) (range (Z.of_nat n))) = n).
  { intros c. rewrite length_map, range_length. lia. }
  assert (G : forall (c : Z) b, inb n b -> get 0 (map (fun _ : Z => c) (range (Z.of_nat n))) b = c).
  { intros c b Hb. unfold get.
    assert (Hin : In (nth (Z.to_nat b) (map (fun _ : Z => c) (range (Z.of_nat n))) 0)
                     (map (fun _ : Z => c) (range (Z.of_nat n)))).
    { apply nth_In. rewrite L1. unfold inb in Hb. lia. }
    apply in_map_iff in Hin. destruct Hin as (x & Hx & _). now rewrite <- Hx. }
  unfold initial_state. split; cbn [imo imd iq1 ic_label mstart].
  - split; cbn [imo imd]; apply L1.
  - reflexivity.
  - lia.
  - unfold inb. lia.
  - intros p Hp Hlt. unfold inb in Hp. lia.
  - intros p Hp _. apply Hlev. now apply at_pos_valid.
  - intros b Hb Hlt. pose proof (Hlev b Hb). lia.
  - intros b Hb _. unfold lab. cbn [imo]. now apply G.
  - intros b Hb. unfold dist. cbn [imd]. now apply G.
Qed.

(** The loop over the levels returns and labels every pixel, the levels of
    all pixels being in [range(ihmax)]. *)
Lemma all_levels_labels (ihmax : Z) :
  0 < Z.of_nat n -> (forall b, inb n b -> 0 <= lev imi b < ihmax) ->
  exists st',
    all_levels neigh imi ind (Z.of_nat n) (range ihmax) (initial_state (Z.of_nat n)) = Ok st' /\
    length (imo st') = n /\ forall b, inb n b -> 0 <= lab st' b.
Proof.
  intros Hn Hlev.
  assert (Hih : 0 < ihmax).
  { assert (H0 : inb n 0) by (unfold inb; lia). pose proof (Hlev 0 H0). lia. }
  assert (R0 : ready n imi ind 0 (initial_state (Z.of_nat n))).
  { apply initial_ready; [exact Hn|]. intros b Hb. pose proof (Hlev b Hb). lia. }
  destruct (all_levels_spec (Z.to_nat ihmax) Hn 0 _ (or_introl R0)) as (st' & E & H).
  rewrite Z2Nat.id in * by lia. rewrite Z.add_0_l in *.
  rewrite range_range2. exists st'. split; [exact E|].
  destruct H as [R|F].
  - split; [apply (rd_wf _ _ _ _ _ R)|].
    intros b Hb. apply (rd_low _ _ _ _ _ R b Hb). pose proof (Hlev b Hb). lia.
  - split; [apply (fn_wf _ _ _ _ _ F)|]. apply (fn_all _ _ _ _ _ F).
Qed.

(** What a pass of the level loop does to the labels. *)

(** A pass changes no label when the level holds no pixel; otherwise it goes
    through the three steps from a state ready for the level. *)
Lemma level_effect (ih : Z) (st : state) :
  0 < Z.of_nat n -> ready n imi ind ih st \/ finished n imi ind ih st ->
  exists st',
    level neigh imi ind (Z.of_nat n) st ih = Ok st' /\
    (ready n imi ind (ih + 1) st' \/ finished n imi ind (ih + 1) st') /\
    ((imo st' = imo st /\ ic_label st' = ic_label st /\
      forall b, inb n b -> lev imi b <> ih) \/
     (ready n imi ind ih st /\
      exists stA pe stB stC m,
        level_trace n neigh imi ind ih st stA pe stB stC m /\ st' = set_mstart stC m)).
Proof.
  intros Hn H. destruct (level_spec ih st Hn H) as (st' & E & H').
  exists st'. split; [exact E|]. split; [exact H'|].
  destruct H as [R|F].
  - destruct (Z.eq_dec (lev imi (at_pos ind (mstart st))) ih) as [El|El].
    + right. split; [exact R|].
      destruct (level_stages ih st R El) as (stA & pe & stB & stC & m & T).
      exists stA, pe, stB, stC, m. split; [exact T|].
      rewrite (lt_level _ _ _ _ _ _ _ _ _ _ _ T) in E. now injection E.
    + left.
      destruct (level_skip ih st (rd_wf _ _ _ _ _ R) (rd_queue _ _ _ _ _ R)
                  (rd_mstart _ _ _ _ _ R) El) as (st2 & E2 & Ho & _ & _ & Hl & _).
      rewrite E in E2. injection E2 as <-. split; [exact Ho|]. split; [exact Hl|].
      intros b Hb. destruct (ind_onto b Hb) as (p & Hp & <-).
      pose proof (rd_mstart _ _ _ _ _ R) as Hms.
      destruct (Z.lt_ge_cases p (mstart st)) as [Hlt|Hge].
      * pose proof (rd_before _ _ _ _ _ R p Hp Hlt). lia.
      * pose proof (ind_sorted (mstart st) p Hms Hp Hge).
        pose proof (rd_after _ _ _ _ _ R (mstart st) Hms ltac:(lia)). lia.
  - left.
    assert (Hms : inb n (mstart st)).
    { rewrite (fn_mstart _ _ _ _ _ F). unfold inb. lia. }
    assert (El : lev imi (at_pos ind (mstart st)) <> ih).
    { rewrite (fn_mstart _ _ _ _ _ F). pose proof (fn_last _ _ _ _ _ F). lia. }
    destruct (level_skip ih st (fn_wf _ _ _ _ _ F) (fn_queue _ _ _ _ _ F) Hms El)
      as (st2 & E2 & Ho & _ & _ & Hl & _).
    rewrite E in E2. injection E2 as <-. split; [exact Ho|]. split; [exact Hl|].
    intros b Hb. destruct (ind_onto b Hb) as (p & Hp & <-).
    assert (Hlast : inb n (Z.of_nat n - 1)) by (unfold inb; lia).
    pose proof (ind_sorted p (Z.of_nat n - 1) Hp Hlast ltac:(unfold inb in Hp; lia)).
    pose proof (fn_last _ _ _ _ _ F). lia.
Qed.

(** A label given at a lower level is kept. *)
Lemma trace_frame (ih : Z) (st0 stA : state) (pe : Z) (stB stC : state) (m : Z) :
  ready n imi ind ih st0 -> level_trace n neigh imi ind ih st0 stA pe stB stC m ->
  forall b, inb n b -> 0 <= lab st0 b -> lab stC b = lab st0 b.
Proof.
  intros R T b Hb Hl.
  assert (Hlev : lev imi b <> ih).
  { intros E. pose proof (rd_high _ _ _ _ _ R b Hb ltac:(lia)). lia. }
  destruct (fl_other _ _ _ _ _ _ _ _ (lt_flagging _ _ _ _ _ _ _ _ _ _ _ T) b Hb Hlev) as [EA _].
  destruct (dr_frame _ _ _ _ (lt_drained _ _ _ _ _ _ _ _ _ _ _ T) b Hb ltac:(lia)) as [EB _].
  rewrite (bs_frame _ _ _ _ (lt_basins _ _ _ _ _ _ _ _ _ _ _ T) b Hb) by lia. lia.
Qed.

Lemma trace_positions (ih : Z) (st0 stA : state) (pe : Z) (stB stC : state) (m : Z) :
  ready n imi ind ih st0 -> level_trace n neigh imi ind ih st0 stA pe stB stC m ->
  mstart st0 <= m <= pe /\ m < Z.of_nat n /\
  Forall (inb n) (slice ind (mstart st0) m).
Proof.
  intros R T. pose proof (rd_mstart _ _ _ _ _ R) as [Hm0 Hm1].
  pose proof (lt_pe _ _ _ _ _ _ _ _ _ _ _ T) as Hpe.
  assert (Hm : mstart st0 <= m <= pe /\ m < Z.of_nat n).
  { rewrite (lt_m _ _ _ _ _ _ _ _ _ _ _ T). destruct (Z.eq_dec pe (Z.of_nat n)); lia. }
  split; [apply Hm|]. split; [apply Hm|].
  apply Forall_forall. intros x Hx.
  rewrite (slice_In 0) in Hx by (rewrite ?ind_length; lia).
  destruct Hx as (q & Hq & <-). apply at_pos_valid. unfold inb. lia.
Qed.

(** A pass keeps the basins numbered without a gap. *)
Lemma trace_numbered (ih : Z) (st0 stA : state) (pe : Z) (stB stC : state) (m : Z) :
  ready n imi ind ih st0 -> level_trace n neigh imi ind ih st0 stA pe stB stC m ->
  numbered n st0 -> numbered n stC /\ ic_label st0 <= ic_label stC.
Proof.
  intros R T [Nb Ns].
  pose proof (lt_flagging _ _ _ _ _ _ _ _ _ _ _ T) as FA.
  pose proof (lt_drained _ _ _ _ _ _ _ _ _ _ _ T) as DB.
  pose proof (rd_label _ _ _ _ _ R) as HK.
  pose proof (fl_label _ _ _ _ _ _ _ _ FA) as KA.
  pose proof (dr_label _ _ _ _ DB) as KB.
  destruct (trace_positions ih st0 stA pe stB stC m R T) as (_ & _ & Hips).
  assert (BA : Forall (fun l => l <= ic_label st0) (imo stA)).
  { apply Forall_get. destruct (fl_wf _ _ _ _ _ _ _ _ FA) as [Wo _]. rewrite Wo.
    intros b Hb. fold (lab stA b).
    destruct (Z.eq_dec (lev imi b) ih) as [E|E].
    - destruct (fl_level _ _ _ _ _ _ _ _ FA b Hb E) as [[H _]|[H _]]; lia.
    - destruct (fl_other _ _ _ _ _ _ _ _ FA b Hb E) as [H _]. rewrite H. now apply Nb. }
  assert (BB : Forall (fun l => l <= ic_label st0) (imo stB)).
  { apply (process_queue_bound neigh (ic_label st0) _ HK _ _ _
             (lt_queue _ _ _ _ _ _ _ _ _ _ _ T)). exact BA. }
  assert (NB : numbered n stB).
  { split.
    - intros b Hb. rewrite KB, KA. unfold lab.
      apply (get_Forall (fun l => l <= ic_label st0)); [exact BB|].
      destruct (dr_wf _ _ _ _ DB) as [Wo _]. now rewrite Wo.
    - intros k Hk. rewrite KB, KA in Hk. destruct (Ns k Hk) as (b & Hb & Hl).
      exists b. split; [exact Hb|].
      assert (Hlev : lev imi b <> ih).
      { intros E. pose proof (rd_high _ _ _ _ _ R b Hb ltac:(lia)). lia. }
      destruct (fl_other _ _ _ _ _ _ _ _ FA b Hb Hlev) as [EA _].
      destruct (dr_frame _ _ _ _ DB b Hb ltac:(lia)) as [EB _]. lia. }
  destruct (new_basins_numbered n neigh neigh_length neigh_valid _ Hips stB stC
              (dr_wf _ _ _ _ DB) ltac:(lia) NB (lt_new _ _ _ _ _ _ _ _ _ _ _ T))
    as [NC HKC].
  split; [exact NC | lia].
Qed.

(** A level none of whose pixels has a lower neighbour: the queue of step 1.b
    is empty and every pixel of the level is given a basin. *)
Lemma trace_fresh (ih : Z) (st0 stA : state) (pe : Z) (stB stC : state) (m : Z) :
  ready n imi ind ih st0 -> level_trace n neigh imi ind ih st0 stA pe stB stC m ->
  (forall r, inb n r -> ih <= lev imi r) ->
  forall b, inb n b -> lev imi b = ih -> 0 <= lab stC b -> 1 <= lab stC b.
Proof.
  intros R T Hfirst b Hb Hl Hpos.
  pose proof (lt_flagging _ _ _ _ _ _ _ _ _ _ _ T) as FA.
  pose proof (lt_pe _ _ _ _ _ _ _ _ _ _ _ T) as Hpe.
  destruct (flagged_level ih st0 stA pe R FA ltac:(lia) (lt_stop _ _ _ _ _ _ _ _ _ _ _ T))
    as (_ & _ & A3 & _).
  assert (Hq : iq1 stA = []).
  { destruct (iq1 stA) as [|x q] eqn:Eq; [reflexivity|exfalso].
    destruct (fl_queue _ _ _ _ _ _ _ _ FA x) as (Hx & _ & (r & Hr & Hrl)).
    { rewrite Eq. now left. }
    pose proof (Hfirst r (nbrs_valid x r Hx Hr)). lia. }
  pose proof (lt_queue _ _ _ _ _ _ _ _ _ _ _ T) as EB. rewrite Hq in EB.
  replace (2 * length (imo stA) + 2)%nat with (S (2 * length (imo stA) + 1)) in EB by lia.
  cbn [process_queue set_iq1 iq1 pop0 bind app] in EB. rewrite Z.eqb_refl in EB.
  injection EB as <-.
  destruct (bs_masked _ _ _ _ (lt_basins _ _ _ _ _ _ _ _ _ _ _ T) b Hb) as [H|H].
  - exact (A3 b Hb Hl).
  - lia.
  - exact H.
Qed.

(** A level peak is given a basin of its own in step 1.c of its level. *)
Lemma trace_peaks (ih : Z) (st0 stA : state) (pe : Z) (stB stC : state) (m : Z) :
  ready n imi ind ih st0 -> level_trace n neigh imi ind ih st0 stA pe stB stC m ->
  forall b, level_peak n neigh imi b -> lev imi b = ih ->
    ic_label st0 < lab stC b <= ic_label stC /\
    forall b', level_peak n neigh imi b' -> lev imi b' = ih -> b' <> b ->
               lab stC b' <> lab stC b.
Proof.
  intros R T.
  pose proof (lt_flagging _ _ _ _ _ _ _ _ _ _ _ T) as FA.
  pose proof (lt_drained _ _ _ _ _ _ _ _ _ _ _ T) as DB.
  pose proof (lt_pe _ _ _ _ _ _ _ _ _ _ _ T) as Hpe.
  pose proof (rd_mstart _ _ _ _ _ R) as Hms.
  destruct (flagged_level ih st0 stA pe R FA ltac:(lia) (lt_stop _ _ _ _ _ _ _ _ _ _ _ T))
    as (A1 & A2 & A3 & A4 & A5 & A6).
  destruct (trace_positions ih st0 stA pe stB stC m R T) as (Hm1 & Hm2 & Hips).
  assert (KB : ic_label stB = ic_label st0).
  { rewrite (dr_label _ _ _ _ DB). apply (fl_label _ _ _ _ _ _ _ _ FA). }
  assert (Lone : forall b, level_peak n neigh imi b -> lev imi b = ih ->
                   lone n neigh stB b /\ In b (slice ind (mstart st0) m)).
  { intros b [Hb Hpk] Hl.
    assert (Hnb : forall r, In r (nbrs neigh b) -> inb n r /\ lab stB r = -1).
    { intros r Hr. pose proof (nbrs_valid b r Hb Hr) as Hrv. split; [exact Hrv|].
      destruct (A6 r Hrv ltac:(pose proof (Hpk r Hr); lia)) as [G _].
      destruct (dr_frame _ _ _ _ DB r Hrv ltac:(lia)) as [EB _]. lia. }
    split.
    - split; [exact Hb|]. split.
      + destruct (dr_masked _ _ _ _ DB b Hb (A3 b Hb Hl)) as [H|[H _]]; [exact H|exfalso].
        destruct (dr_near _ _ _ _ DB b Hb (A3 b Hb Hl) H) as (r & Hr & _ & Hrl).
        destruct (Hnb r Hr) as [_ G]. lia.
      + intros r Hr. destruct (Hnb r Hr) as [_ G]. lia.
    - destruct (A2 b Hb Hl) as (q & Hq & <-).
      rewrite (slice_In 0) by (rewrite ?ind_length; unfold inb in Hms; lia).
      exists q. split; [|reflexivity]. split; [lia|].
      destruct (neigh_other (at_pos ind q) Hb) as (r & Hr & _).
      destruct (Hnb r Hr) as [Hrv _]. pose proof (Hpk r Hr) as Hrl.
      destruct (ind_onto r Hrv) as (j & Hj & Ej).
      assert (Hjpe : pe <= j).
      { destruct (Z.lt_ge_cases j pe) as [Hlt|]; [exfalso|lia].
        destruct (Z.lt_ge_cases j (mstart st0)) as [Hlt'|Hge'].
        - pose proof (rd_before _ _ _ _ _ R j Hj Hlt'). rewrite Ej in *. lia.
        - pose proof (A1 j ltac:(lia)). rewrite Ej in *. lia. }
      rewrite (lt_m _ _ _ _ _ _ _ _ _ _ _ T).
      destruct (Z.eq_dec pe (Z.of_nat n)); unfold inb in Hj; lia. }
  assert (S0 : seeded n neigh stB stB).
  { split.
    - apply DB.
    - lia.
    - intros x _ H. exact H.
    - intros b (_ & H & _). now left.
    - intros b b' (_ & H & _) _ _ H'. contradiction. }
  pose proof (new_basins_seeds n neigh neigh_length neigh_valid stB _ neigh_sym
                ltac:(rewrite KB; apply R) Hips stB stC S0
                (lt_new _ _ _ _ _ _ _ _ _ _ _ T)) as SC.
  intros b Pb Hl. destruct (Lone b Pb Hl) as [Lb Hin].
  destruct (lt_swept _ _ _ _ _ _ _ _ _ _ _ T b Hin) as [Hsw _].
  split.
  - destruct (sd_lone _ _ _ _ SC b Lb) as [H|H]; [contradiction | lia].
  - intros b' Pb' Hl' Hne. destruct (Lone b' Pb' Hl') as [Lb' Hin'].
    destruct (lt_swept _ _ _ _ _ _ _ _ _ _ _ T b' Hin') as [Hsw' _].
    apply (sd_apart _ _ _ _ SC b' b Lb' Lb Hne Hsw').
Qed.

(** The labels after the first [ih] levels: the basins are numbered without a
    gap, the level peaks met so far lie in basins of their own, and the
    pixels of level 0 lie in basins. *)
Lemma level_keeps (ih : Z) (st st' : state) :
  0 < Z.of_nat n -> (forall r, inb n r -> 0 <= lev imi r) -> 0 <= ih ->
  ready n imi ind ih st \/ finished n imi ind ih st ->
  level neigh imi ind (Z.of_nat n) st ih = Ok st' ->
  numbered n st /\ peaks_apart n neigh imi ih st /\ tops_in_basins n imi ih st ->
  numbered n st' /\ peaks_apart n neigh imi (ih + 1) st' /\
  tops_in_basins n imi (ih + 1) st'.
Proof.
  intros Hn Hlev Hih H E (N & P & Tp).
  destruct (level_effect ih st Hn H) as (st2 & E2 & H' & Heff).
  rewrite E in E2. injection E2 as <-.
  destruct Heff as [(Ho & Hl & Hnone)|(R & stA & pe & stB & stC & m & T & ->)].
  - assert (Hlab : forall x, lab st' x = lab st x) by (intros x; unfold lab; now rewrite Ho).
    split; [|split].
    + destruct N as [Nb Ns]. split.
      * intros b Hb. rewrite Hlab, Hl. now apply Nb.
      * intros k Hk. rewrite Hl in Hk. destruct (Ns k Hk) as (b & Hb & Hbl).
        exists b. split; [exact Hb | now rewrite Hlab].
    + intros b Pb Hb. pose proof Pb as [Hbv _].
      assert (Hb' : lev imi b < ih) by (pose proof (Hnone b Hbv); lia).
      destruct (P b Pb Hb') as [G1 G2]. rewrite Hlab. split; [exact G1|].
      intros b' Pb' Hlb' Hne. rewrite Hlab. pose proof Pb' as [Hbv' _].
      apply G2; [exact Pb' | pose proof (Hnone b' Hbv'); lia | exact Hne].
    + intros _ b Hb Hb0. rewrite Hlab.
      apply Tp; [|exact Hb | exact Hb0]. pose proof (Hnone b Hb). lia.
  - change (numbered n (set_mstart stC m)) with (numbered n stC).
    assert (Hlab : forall x, lab (set_mstart stC m) x = lab stC x) by reflexivity.
    destruct (trace_numbered ih st stA pe stB stC m R T N) as [NC HKC].
    pose proof (trace_frame ih st stA pe stB stC m R T) as Fr.
    assert (Old : forall b, inb n b -> lev imi b < ih -> lab stC b = lab st b).
    { intros b Hb Hl. apply Fr; [exact Hb | now apply (rd_low _ _ _ _ _ R)]. }
    assert (Pos : forall b, inb n b -> lev imi b <= ih -> 0 <= lab stC b).
    { intros b Hb Hl. rewrite <- Hlab.
      destruct H' as [R'|F']; [apply (rd_low _ _ _ _ _ R' b Hb); lia | now apply (fn_all _ _ _ _ _ F')]. }
    split; [exact NC|]. split.
    + intros b Pb Hb. pose proof Pb as [Hbv _]. rewrite !Hlab.
      destruct (Z.eq_dec (lev imi b) ih) as [Eb|Eb].
      * destruct (trace_peaks ih st stA pe stB stC m R T b Pb Eb) as [G1 G2].
        split; [pose proof (rd_label _ _ _ _ _ R); lia|].
        intros b' Pb' Hb' Hne. rewrite Hlab. pose proof Pb' as [Hbv' _].
        destruct (Z.eq_dec (lev imi b') ih) as [Eb'|Eb']; [now apply G2|].
        rewrite (Old b' Hbv') by lia. destruct N as [Nb _]. pose proof (Nb b' Hbv'). lia.
      * destruct (P b Pb ltac:(lia)) as [G1 G2]. rewrite (Old b Hbv) by lia.
        split; [exact G1|].
        intros b' Pb' Hb' Hne. rewrite Hlab. pose proof Pb' as [Hbv' _].
        destruct (Z.eq_dec (lev imi b') ih) as [Eb'|Eb'].
        -- destruct (trace_peaks ih st stA pe stB stC m R T b' Pb' Eb') as [G1' _].
           destruct N as [Nb _]. pose proof (Nb b Hbv). lia.
        -- rewrite (Old b' Hbv') by lia. apply G2; [exact Pb' | lia | exact Hne].
    + intros _ b Hb Hb0. rewrite Hlab.
      destruct (Z.eq_dec ih 0) as [->|Hne].
      * apply (trace_fresh 0 st stA pe stB stC m R T Hlev b Hb Hb0).
        apply Pos; [exact Hb | lia].
      * rewrite (Old b Hb) by lia. apply Tp; [lia | exact Hb | exact Hb0].
Qed.

Lemma all_levels_keep (k : nat) :
  0 < Z.of_nat n -> (forall r, inb n r -> 0 <= lev imi r) ->
  forall ih st, 0 <= ih ->
    ready n imi ind ih st \/ finished n imi ind ih st ->
    numbered n st /\ peaks_apart n neigh imi ih st /\ tops_in_basins n imi ih st ->
    exists st',
      all_levels neigh imi ind (Z.of_nat n) (range2 ih (ih + Z.of_nat k)) st = Ok st' /\
      (ready n imi ind (ih + Z.of_nat k) st' \/ finished n imi ind (ih + Z.of_nat k) st') /\
      numbered n st' /\ peaks_apart n neigh imi (ih + Z.of_nat k) st' /\
      tops_in_basins n imi (ih + Z.of_nat k) st'.
Proof.
  intros Hn Hlev. induction k as [|k IH]; intros ih st Hih H I.
  - replace (ih + Z.of_nat 0) with ih by lia. unfold range2. rewrite Z.sub_diag.
    cbn. eauto.
  - rewrite range2_cons by lia.
    destruct (level_spec ih st Hn H) as (st1 & E1 & H1).
    pose proof (level_keeps ih st st1 Hn Hlev Hih H E1 I) as I1.
    cbn [all_levels]. rewrite E1. cbn [bind].
    destruct (IH (ih + 1) st1 ltac:(lia) H1 I1) as (st' & E' & H' & I').
    replace (ih + 1 + Z.of_nat k) with (ih + Z.of_nat (S k)) in * by lia.
    eauto.
Qed.

(** The labels the loop over the levels leaves: every pixel has one, they are
    the numbers [0 .. K] for the number [K] of basins, each number from 1 on
    is used, every level peak has a number of its own and the pixels of
    level 0 have numbers from 1 on. *)
Lemma all_levels_basins (ihmax : Z) :
  0 < Z.of_nat n -> (forall b, inb n b -> 0 <= lev imi b < ihmax) ->
  exists st',
    all_levels neigh imi ind (Z.of_nat n) (range ihmax) (initial_state (Z.of_nat n)) = Ok st' /\
    length (imo st') = n /\
    (forall b, inb n b -> 0 <= lab st' b <= ic_label st') /\
    (forall k, 1 <= k <= ic_label st' -> exists b, inb n b /\ lab st' b = k) /\
    (forall b, inb n b -> lev imi b = 0 -> 1 <= lab st' b) /\
    (forall b, level_peak n neigh imi b -> 1 <= lab st' b) /\
    (forall b b', level_peak n neigh imi b -> level_peak n neigh imi b' -> b' <> b ->
                  lab st' b' <> lab st' b).
Proof.
  intros Hn Hlev.
  assert (Hih : 0 < ihmax).
  { assert (H0 : inb n 0) by (unfold inb; lia). pose proof (Hlev 0 H0). lia. }
  assert (Hlev0 : forall r, inb n r -> 0 <= lev imi r) by (intros r Hr; pose proof (Hlev r Hr); lia).
  assert (R0 : ready n imi ind 0 (initial_state (Z.of_nat n))) by (now apply initial_ready).
  assert (I0 : numbered n (initial_state (Z.of_nat n)) /\
               peaks_apart n neigh imi 0 (initial_state (Z.of_nat n)) /\
               tops_in_basins n imi 0 (initial_state (Z.of_nat n))).
  { split; [|split].
    - split.
      + intros b Hb. rewrite (rd_high _ _ _ _ _ R0 b Hb) by (now apply Hlev0). cbn. lia.
      + intros k Hk. cbn in Hk. lia.
    - intros b [Hb _] Hl. pose proof (Hlev0 b Hb). lia.
    - intros C. lia. }
  destruct (all_levels_keep (Z.to_nat ihmax) Hn Hlev0 0 _ ltac:(lia) (or_introl R0) I0)
    as (st' & E & H & (Nb & Ns) & P & Tp).
  rewrite Z2Nat.id in * by lia. rewrite Z.add_0_l in *.
  rewrite range_range2. exists st'. split; [exact E|].
  assert (Pos : forall b, inb n b -> 0 <= lab st' b).
  { intros b Hb. destruct H as [R|F]; [|now apply (fn_all _ _ _ _ _ F)].
    apply (rd_low _ _ _ _ _ R b Hb). pose proof (Hlev b Hb). lia. }
  split; [destruct H as [R|F]; [apply (rd_wf _ _ _ _ _ R) | apply (fn_wf _ _ _ _ _ F)]|].
  split; [intros b Hb; split; [now apply Pos | now apply Nb]|].
  split; [exact Ns|]. split; [now apply Tp|]. split.
  - intros b Pb. pose proof Pb as [Hb _].
    now destruct (P b Pb ltac:(pose proof (Hlev b Hb); lia)) as [G1 _].
  - intros b b' Pb Pb' Hne. pose proof Pb as [Hb _]. pose proof Pb' as [Hb' _].
    destruct (P b Pb ltac:(pose proof (Hlev b Hb); lia)) as [_ G2].
    apply G2; [exact Pb' | pose proof (Hlev b' Hb'); lia | exact Hne].
Qed.

End Level_loop.

(** *** Step 2: the watershed bins *)

Lemma put_each_spec {A : Type} (P : A -> Prop) (idx : list Z) :
  forall (a vals : list A),
    Forall (inb (length a)) idx -> length vals = length idx ->
    Forall P a -> Forall P vals ->
    exists a', put_each a idx vals = Ok a' /\ length a' = length a /\ Forall P a'.
Proof.
  induction idx as [|i rest IH]; intros a vals Hidx Hlen Ha Hv.
  - destruct vals; [|discriminate]. cbn. eauto.
  - destruct vals as [|v vs]; [discriminate|].
    inversion Hidx as [|? ? Hi Hrest]; subst. inversion Hv as [|? ? Pv Pvs]; subst.
    cbn [put_each]. rewrite setitem_upd by assumption. cbn [bind].
    destruct (IH (upd a i v) vs) as (a' & E & L & F).
    + now rewrite upd_length.
    + cbn in Hlen. lia.
    + now apply update_Forall.
    + assumption.
    + exists a'. rewrite upd_length in L. auto.
Qed.

Lemma argmin_from_range (l : list Q) (i best : Z) (bestv : Q) :
  0 <= best < i ->
  0 <= argmin_from l i best bestv < i + Z.of_nat (length l).
Proof.
  revert i best bestv. induction l as [|x t IH]; intros i best bestv H; cbn [argmin_from length].
  - lia.
  - destruct (Qltb x bestv).
    + pose proof (IH (i + 1) i x ltac:(lia)). lia.
    + pose proof (IH (i + 1) best bestv ltac:(lia)). lia.
Qed.

Lemma argmin_range (l : list Q) :
  l <> [] -> exists i, argmin l = Ok i /\ inb (length l) i.
Proof.
  destruct l as [|x t]; [congruence|]. intros _. cbn [argmin]. eexists. split; [reflexivity|].
  pose proof (argmin_from_range t 1 0 x ltac:(lia)). unfold inb. cbn [length]. lia.
Qed.

Lemma any_truthy_nonempty (l : list Z) : any_truthy l = true -> l <> [].
Proof. destruct l; [discriminate | congruence]. Qed.

Lemma where_zero_In (imo0 : list Z) (i : Z) :
  In i (where_zero imo0) -> inb (length imo0) i.
Proof.
  unfold where_zero. rewrite filter_In, range_In. unfold inb. tauto.
Qed.

Section Relax.

Variable n : nat.
Variable neigh : list (list Z).
Variable zp : list Q.
Hypothesis neigh_length : length neigh = n.
Hypothesis neigh_valid : forall b, inb n b -> Forall (inb n) (nbrs neigh b).
Hypothesis zp_length : length zp = n.

Lemma labelled_spec (imo0 : list Z) (nb : list Z) :
  length imo0 = n -> Forall (inb n) nb ->
  exists jnl, labelled imo0 nb = Ok jnl /\ Forall (inb n) jnl.
Proof.
  intros L. induction 1 as [|j rest Hj _ IH]; cbn [labelled].
  - eauto.
  - rewrite (item_get 0) by (now rewrite L). destruct IH as (r & -> & Hr). cbn [bind].
    eexists. split; [reflexivity|]. destruct (negb _); auto.
Qed.

(** The value step 2 appends for a watershed bin is a label of the array
    or 0. *)
Lemma nearest_label_spec (imo0 : list Z) (jl : Z) :
  length imo0 = n -> Forall (fun v => 0 <= v) imo0 -> inb n jl ->
  exists v, nearest_label neigh zp imo0 jl = Ok v /\ 0 <= v.
Proof.
  intros L Hpos Hjl. unfold nearest_label.
  rewrite (item_get []) by (now rewrite neigh_length). cbn [bind].
  destruct (labelled_spec imo0 (get [] neigh jl) L (neigh_valid jl Hjl)) as (jnl & -> & Hjnl).
  cbn [bind]. destruct (any_truthy jnl) eqn:Hany.
  - rewrite (take_get 0%Q) by (now rewrite zp_length). cbn [bind].
    rewrite (item_get 0%Q) by (now rewrite zp_length). cbn [bind].
    destruct (argmin_range (map (fun z => Qabs (z - get 0%Q zp jl)) (map (get 0%Q zp) jnl)))
      as (ipt & -> & Hipt).
    { apply any_truthy_nonempty in Hany. destruct jnl; [congruence | discriminate]. }
    cbn [bind]. rewrite !length_map in Hipt.
    rewrite (item_get 0) by assumption. cbn [bind].
    assert (Hj : inb n (get 0 jnl ipt)) by (now apply get_Forall).
    rewrite (item_get 0) by (now rewrite L).
    eexists. split; [reflexivity|].
    apply (get_Forall (fun v => 0 <= v)); [assumption | now rewrite L].
  - exists 0. split; [reflexivity | lia].
Qed.

Lemma new_values_spec (imo0 : list Z) (ws : list Z) :
  length imo0 = n -> Forall (fun v => 0 <= v) imo0 -> Forall (inb n) ws ->
  exists vs, new_values neigh zp imo0 ws = Ok vs /\ length vs = length ws /\
             Forall (fun v => 0 <= v) vs.
Proof.
  intros L Hpos. induction 1 as [|jl rest Hjl _ IH]; cbn [new_values].
  - exists []. auto.
  - destruct (nearest_label_spec imo0 jl L Hpos Hjl) as (v & -> & Hv).
    destruct IH as (vs & -> & Hl & Hvs). cbn [bind].
    exists (v :: vs). cbn [length]. auto.
Qed.

(** Step 2 raises nothing and keeps the labels non-negative. *)
Lemma relax_spec (passes : nat) :
  forall imo0, length imo0 = n -> Forall (fun v => 0 <= v) imo0 ->
  exists imo', relax neigh zp passes imo0 = Ok imo' /\ length imo' = n /\
               Forall (fun v => 0 <= v) imo'.
Proof.
  induction passes as [|passes IH]; intros imo0 L Hpos; cbn [relax].
  - eauto.
  - destruct (negb (any_truthy (where_zero imo0))); [eauto|].
    assert (Hws : Forall (inb n) (where_zero imo0)).
    { apply Forall_forall. intros i Hi. rewrite <- L. now apply where_zero_In. }
    destruct (new_values_spec imo0 (where_zero imo0) L Hpos Hws) as (vs & -> & Hl & Hvs).
    cbn [bind].
    destruct (put_each_spec (fun v => 0 <= v) (where_zero imo0) imo0 vs) as (imo1 & -> & L1 & P1);
      [now rewrite L | assumption | assumption | assumption |].
    cbn [bind]. apply IH; [congruence | assumption].
Qed.

End Relax.

(** *** Rounding, extrema and the sort *)

(** [around] is the integer nearest to its argument. *)
Lemma around_ge (q : Q) (k : Z) :
  k <= around q <->
  (2 * k - 1) * Z.pos (Qden q) < 2 * Qnum q \/
  ((2 * k - 1) * Z.pos (Qden q) = 2 * Qnum q /\ Z.even k = true).
Proof.
  unfold around. destruct q as [n d]. cbn [Qnum Qden].
  pose proof (Z.div_mod n (Z.pos d) ltac:(lia)) as E.
  pose proof (Z.mod_pos_bound n (Z.pos d) ltac:(lia)) as B.
  set (f := n / Z.pos d) in *. set (r := n mod Z.pos d) in *.
  set (D := Z.pos d) in *. assert (HD : 0 < D) by (unfold D; lia). clearbody f r D.
  assert (Hcases : k <= f \/ k = f + 1 \/ f + 2 <= k) by lia.
  assert (M1 : k <= f -> (2 * k - 1) * D <= (2 * f - 1) * D) by (intros; nia).
  assert (M2 : f + 2 <= k -> (2 * f + 3) * D <= (2 * k - 1) * D) by (intros; nia).
  assert (M3 : k = f + 1 -> (2 * k - 1) * D = 2 * D * f + D) by (intros; nia).
  assert (M4 : (2 * f - 1) * D = 2 * D * f - D) by nia.
  assert (M5 : (2 * f + 3) * D = 2 * D * f + 3 * D) by nia.
  destruct (Z.compare_spec (2 * r) D) as [C|C|C].
  - destruct (Z.even f) eqn:Ev.
    + destruct Hcases as [H|[H|H]].
      * specialize (M1 H). split; [intros _; left; lia | lia].
      * specialize (M3 H). split; [lia|]. intros [H'|[_ H']]; [lia|].
        subst k. rewrite Z.even_add in H'. rewrite Ev in H'. discriminate.
      * specialize (M2 H). split; [lia|]. intros [H'|[H' _]]; lia.
    + destruct Hcases as [H|[H|H]].
      * specialize (M1 H). split; [intros _; left; lia | lia].
      * specialize (M3 H). split; [|lia]. intros _. right. split; [lia|].
        subst k. rewrite Z.even_add, Ev. reflexivity.
      * specialize (M2 H). split; [lia|]. intros [H'|[H' _]]; lia.
  - destruct Hcases as [H|[H|H]].
    + specialize (M1 H). split; [intros _; left; lia | lia].
    + specialize (M3 H). split; [lia|]. intros [H'|[H' _]]; lia.
    + specialize (M2 H). split; [lia|]. intros [H'|[H' _]]; lia.
  - destruct Hcases as [H|[H|H]].
    + specialize (M1 H). split; [intros _; left; lia | lia].
    + specialize (M3 H). split; [intros _; left; lia | lia].
    + specialize (M2 H). split; [lia|]. intros [H'|[H' _]]; lia.
Qed.

(** [around] is monotone. *)
Lemma around_monotone (x y : Q) : (x <= y)%Q -> around x <= around y.
Proof.
  intros Hxy. apply around_ge.
  pose proof (proj1 (around_ge x (around x)) ltac:(lia)) as H.
  unfold Qle in Hxy. destruct x as [n1 d1], y as [n2 d2]. cbn [Qnum Qden] in *.
  set (k := around (n1 # d1)) in *. clearbody k.
  set (D1 := Z.pos d1) in *. set (D2 := Z.pos d2) in *.
  assert (H1 : 0 < D1) by (unfold D1; lia). assert (H2 : 0 < D2) by (unfold D2; lia).
  clearbody D1 D2.
  assert (Hle : (2 * k - 1) * D2 * D1 <= 2 * n2 * D1).
  { assert ((2 * k - 1) * D1 <= 2 * n1) by (destruct H as [H|[H _]]; lia).
    assert ((2 * k - 1) * D1 * D2 <= 2 * n1 * D2) by (apply Z.mul_le_mono_nonneg_r; lia).
    nia. }
  assert (Hle' : (2 * k - 1) * D2 <= 2 * n2) by nia.
  destruct (Z.eq_dec ((2 * k - 1) * D2) (2 * n2)) as [E|E]; [|left; lia].
  right. split; [exact E|].
  destruct H as [H|[_ H]]; [|exact H]. exfalso.
  assert ((2 * k - 1) * D1 * D2 < 2 * n1 * D2) by (apply Z.mul_lt_mono_pos_r; lia).
  nia.
Qed.

Lemma around_inject_Z (k : Z) : around (inject_Z k) = k.
Proof.
  unfold around, inject_Z. cbn [Qnum Qden]. rewrite Z.div_1_r, Z.mod_1_r. reflexivity.
Qed.

Lemma around_between (x : Q) (a b : Z) :
  (inject_Z a <= x)%Q -> (x <= inject_Z b)%Q -> a <= around x <= b.
Proof.
  intros Ha Hb. apply around_monotone in Ha, Hb. rewrite around_inject_Z in *. lia.
Qed.

(** [amin] and [amax] bound every element. *)
Lemma Qltb_false (x y : Q) : Qltb x y = false -> (y <= x)%Q.
Proof. unfold Qltb. intros H. apply negb_false_iff in H. now apply Qle_bool_iff. Qed.

Lemma Qltb_true (x y : Q) : Qltb x y = true -> (x < y)%Q.
Proof.
  unfold Qltb. intros H. apply negb_true_iff in H. apply Qnot_le_lt. intros C.
  apply Qle_bool_iff in C. congruence.
Qed.

Lemma fold_min_le (t : list Q) (x : Q) :
  let m := fold_left (fun m y => if Qltb y m then y else m) t x in
  (m <= x)%Q /\ Forall (fun e => (m <= e)%Q) t.
Proof.
  revert x. induction t as [|y t IH]; intros x; cbn [fold_left]; cbv zeta in *.
  - split; [apply Qle_refl | constructor].
  - destruct (Qltb y x) eqn:C.
    + destruct (IH y) as [H1 H2]. apply Qltb_true in C. split.
      * apply Qle_trans with y; [exact H1 | apply Qlt_le_weak; exact C].
      * constructor; assumption.
    + destruct (IH x) as [H1 H2]. apply Qltb_false in C. split; [exact H1|].
      constructor; [|exact H2]. eapply Qle_trans; eassumption.
Qed.

Lemma fold_max_ge (t : list Q) (x : Q) :
  let m := fold_left (fun m y => if Qltb m y then y else m) t x in
  (x <= m)%Q /\ Forall (fun e => (e <= m)%Q) t.
Proof.
  revert x. induction t as [|y t IH]; intros x; cbn [fold_left]; cbv zeta in *.
  - split; [apply Qle_refl | constructor].
  - destruct (Qltb x y) eqn:C.
    + destruct (IH y) as [H1 H2]. apply Qltb_true in C. split.
      * apply Qle_trans with y; [apply Qlt_le_weak; exact C | exact H1].
      * constructor; assumption.
    + destruct (IH x) as [H1 H2]. apply Qltb_false in C. split; [exact H1|].
      constructor; [|exact H2]. eapply Qle_trans; eassumption.
Qed.

Lemma amin_lower_bound (l : list Q) :
  l <> [] -> exists m, amin l = Ok m /\ Forall (fun e => (m <= e)%Q) l.
Proof.
  destruct l as [|x t]; [congruence|]. intros _. cbn [amin]. eexists. split; [reflexivity|].
  destruct (fold_min_le t x). constructor; assumption.
Qed.

Lemma amax_upper_bound (l : list Q) :
  l <> [] -> exists m, amax l = Ok m /\ Forall (fun e => (e <= m)%Q) l.
Proof.
  destruct l as [|x t]; [congruence|]. intros _. cbn [amax]. eexists. split; [reflexivity|].
  destruct (fold_max_ge t x). constructor; assumption.
Qed.

(** [argsort] sorts. *)
Lemma insert_key_sorted (key : Z -> Q) (i : Z) (l : list Z) :
  StronglySorted (fun a b => (key a <= key b)%Q) l ->
  StronglySorted (fun a b => (key a <= key b)%Q) (insert_key key i l).
Proof.
  induction 1 as [|j t Ht IH Hj]; cbn [insert_key].
  - constructor; constructor.
  - unfold Qleb. destruct (Qle_bool (key i) (key j)) eqn:C.
    + apply Qle_bool_iff in C. constructor.
      * constructor; assumption.
      * constructor; [exact C|]. rewrite Forall_forall in *. intros x Hx.
        eapply Qle_trans; [exact C | now apply Hj].
    + assert (C' : (key j <= key i)%Q).
      { apply Qlt_le_weak, Qnot_le_lt. intros H. apply Qle_bool_iff in H. congruence. }
      constructor; [exact IH|].
      rewrite Forall_forall in *. intros x Hx. apply insert_key_In in Hx.
      destruct Hx as [->|Hx]; [exact C' | now apply Hj].
Qed.

Lemma argsort_sorted (a : list Q) :
  StronglySorted (fun i j => (get 0%Q a i <= get 0%Q a j)%Q) (argsort a).
Proof.
  unfold argsort. induction (range (Z.of_nat (length a))) as [|i l IH]; cbn [fold_right].
  - constructor.
  - apply (insert_key_sorted (fun i => nth (Z.to_nat i) a 0%Q)). exact IH.
Qed.

Lemma sorted_nth (R : Z -> Z -> Prop) (l : list Z) :
  (forall x, R x x) -> StronglySorted R l ->
  forall p q : nat, (p <= q < length l)%nat -> R (nth p l 0) (nth q l 0).
Proof.
  intros Hrefl. induction 1 as [|x t Ht IH Hx]; intros p q Hpq; cbn [length] in Hpq.
  - lia.
  - destruct p as [|p], q as [|q]; cbn [nth].
    + apply Hrefl.
    + rewrite Forall_forall in Hx. apply Hx. apply nth_In. lia.
    + lia.
    + apply IH. lia.
Qed.

Lemma argsort_onto (a : list Q) (b : Z) :
  inb (length a) b -> exists p, inb (length a) p /\ get 0 (argsort a) p = b.
Proof.
  intros Hb. apply argsort_In in Hb. apply (In_nth _ _ 0) in Hb.
  destruct Hb as (k & Hk & E). rewrite argsort_length in Hk.
  exists (Z.of_nat k). split; [unfold inb; lia|]. unfold get. now rewrite Nat2Z.id.
Qed.

Lemma argsort_valid (a : list Q) : Forall (inb (length a)) (argsort a).
Proof. apply Forall_forall. intros x Hx. now apply argsort_In. Qed.

Lemma argsort_ordered (a : list Q) (p q : Z) :
  inb (length a) p -> inb (length a) q -> p <= q ->
  (get 0%Q a (get 0%Z (argsort a) p) <= get 0%Q a (get 0%Z (argsort a) q))%Q.
Proof.
  intros Hp Hq Hpq. unfold get at 2 4.
  apply (sorted_nth (fun i j => (get 0%Q a i <= get 0%Q a j)%Q)).
  - intros x. apply Qle_refl.
  - apply argsort_sorted.
  - rewrite argsort_length. unfold inb in *. lia.
Qed.

(** *** The grid and its levels *)

Lemma get_map {A B : Type} (f : A -> B) (d : A) (d' : B) (l : list A) (i : Z) :
  inb (length l) i -> get d' (map f l) i = f (get d l i).
Proof.
  intros Hi. unfold get. rewrite (nth_indep _ d' (f d)).
  - apply map_nth.
  - rewrite length_map. unfold inb in Hi. lia.
Qed.

Section Grid.

Variables nk nth : Z.
Hypothesis nk_pos : 1 <= nk.
Hypothesis nth_pos : 1 <= nth.

Let n : nat := Z.to_nat (nk * nth).

Lemma inb_is_bin (b : Z) : inb n b <-> is_bin nk nth b.
Proof. unfold inb, is_bin, n. rewrite Z2Nat.id by nia. tauto. Qed.

Lemma nbrs_ptnghb (b : Z) : inb n b -> nbrs (ptnghb nk nth) b = neighbours nk nth b.
Proof.
  intros Hb. apply inb_is_bin in Hb. unfold nbrs, get.
  apply nth_error_nth. now apply ptnghb_lookup.
Qed.

Lemma ptnghb_valid (b : Z) : inb n b -> Forall (inb n) (nbrs (ptnghb nk nth) b).
Proof.
  intros Hb. rewrite nbrs_ptnghb by assumption. apply Forall_forall. intros r Hr.
  apply inb_is_bin. apply inb_is_bin in Hb.
  apply In_neighbours in Hr; [|lia | apply row_in_range; [lia | exact Hb]].
  apply (adjacent_is_bin nk nth b r); [lia | exact Hr].
Qed.

Lemma ptnghb_sym (a b : Z) :
  inb n a -> In b (nbrs (ptnghb nk nth) a) -> In a (nbrs (ptnghb nk nth) b).
Proof.
  intros Ha Hb.
  assert (Hbv : inb n b).
  { pose proof (ptnghb_valid a Ha) as V. rewrite Forall_forall in V. now apply V. }
  rewrite nbrs_ptnghb in * by assumption.
  apply inb_is_bin in Ha, Hbv.
  pose proof (row_in_range nk nth a ltac:(lia) Ha) as Ra.
  pose proof (row_in_range nk nth b ltac:(lia) Hbv) as Rb.
  apply In_neighbours; [lia | exact Rb |].
  apply adjacent_sym; [lia | exact Ra |].
  apply In_neighbours in Hb; [exact Hb | lia | exact Ra].
Qed.

(** In a grid of two bins or more every bin has a neighbour other than
    itself. *)
Lemma ptnghb_other (b : Z) :
  2 <= nk * nth -> inb n b -> exists q, In q (nbrs (ptnghb nk nth) b) /\ q <> b.
Proof.
  intros Hn Hb. rewrite nbrs_ptnghb by assumption. apply inb_is_bin in Hb.
  pose proof (row_in_range nk nth b ltac:(lia) Hb) as Rb.
  assert (Hc : 0 <= col nth b < nth) by (unfold col; apply Z.mod_pos_bound; lia).
  destruct (Z.eq_dec nth 1) as [E1|E1].
  - assert (Hnk : 2 <= nk) by nia.
    set (di := if 0 <? row nth b then -1 else 1).
    assert (Hdi : -1 <= di <= 1 /\ di <> 0 /\ 0 <= row nth b + di < nk).
    { unfold di. destruct (Z.ltb_spec 0 (row nth b)); lia. }
    exists (bin_at nth (row nth b + di) (col nth b + 0)). split.
    + apply In_neighbours; [lia | exact Rb |].
      exists di, 0. repeat split; try lia.
    + intros E. apply (f_equal (row nth)) in E.
      destruct (row_col_bin_at nth (row nth b + di) (col nth b + 0) ltac:(lia)) as [Hr _].
      rewrite Hr in E. lia.
  - exists (bin_at nth (row nth b + 0) (col nth b + 1)). split.
    + apply In_neighbours; [lia | exact Rb |].
      exists 0, 1. repeat split; try lia.
    + intros E. apply (f_equal (col nth)) in E.
      destruct (row_col_bin_at nth (row nth b + 0) (col nth b + 1) ltac:(lia)) as [_ Hcq].
      rewrite Hcq in E.
      destruct (Z.eq_dec (col nth b + 1) nth) as [E2|E2].
      * rewrite E2, Z.mod_same in E by lia. lia.
      * rewrite Z.mod_small in E by lia. lia.
Qed.

End Grid.

Section Energy.

Variable nan_to_int : Z.
Variable flat : list Q.
Variables zmin zmax : Q.
Variable ihmax : Z.
Hypothesis ihmax_pos : 1 <= ihmax.
Hypothesis zmin_low : Forall (fun e => (zmin <= e)%Q) flat.
Hypothesis zmax_high : Forall (fun e => (e <= zmax)%Q) flat.
Hypothesis range_open : (zmin < zmax)%Q.

Let zp : list Q := map (fun e => (- e + zmax)%Q) flat.
Let fact : Q := (inject_Z (ihmax - 1) / (zmax - zmin))%Q.
Let imi : list Z := levels nan_to_int zp ihmax zmin zmax.

Lemma levels_varying : imi = map (fun z => around (z * fact)%Q) zp.
Proof.
  unfold imi, levels. destruct (Qeq_bool zmax zmin) eqn:E; [|reflexivity].
  apply Qeq_bool_iff in E. rewrite E in range_open. now apply Qlt_irrefl in range_open.
Qed.

Lemma fact_nonneg : (0 <= fact)%Q.
Proof.
  unfold fact, Qdiv. apply Qmult_le_0_compat.
  - change 0%Q with (inject_Z 0). rewrite <- Zle_Qle. lia.
  - apply Qinv_le_0_compat. apply Qlt_le_weak.
    rewrite <- (Qplus_opp_r zmin). apply Qplus_lt_le_compat; [exact range_open | apply Qle_refl].
Qed.

Lemma shifted_length : length zp = length flat.
Proof. unfold zp. apply length_map. Qed.

Lemma levels_length : length imi = length flat.
Proof. rewrite levels_varying, length_map. apply shifted_length. Qed.

Lemma zp_bounds (b : Z) :
  inb (length flat) b -> (0 <= get 0%Q zp b)%Q /\ (get 0%Q zp b <= zmax - zmin)%Q.
Proof.
  intros Hb. unfold zp. rewrite (get_map _ 0%Q) by assumption.
  pose proof (get_Forall _ 0%Q flat b zmin_low Hb) as H1.
  pose proof (get_Forall _ 0%Q flat b zmax_high Hb) as H2.
  cbv beta in H1, H2. set (e := get 0%Q flat b) in *. clearbody e. split.
  - rewrite <- (Qplus_opp_r e), Qplus_comm. apply Qplus_le_compat; [apply Qle_refl | exact H2].
  - unfold Qminus. rewrite (Qplus_comm zmax). apply Qplus_le_compat; [|apply Qle_refl].
    now apply Qopp_le_compat.
Qed.

Lemma lev_value (b : Z) :
  inb (length flat) b -> lev imi b = around (get 0%Q zp b * fact)%Q.
Proof.
  intros Hb. unfold lev. rewrite levels_varying.
  apply (get_map (fun z => around (z * fact)%Q) 0%Q). now rewrite shifted_length.
Qed.

(** The levels of a varying grid lie in [range(ihmax)]. *)
Lemma lev_bounds (b : Z) : inb (length flat) b -> 0 <= lev imi b < ihmax.
Proof.
  intros Hb. rewrite lev_value by assumption.
  destruct (zp_bounds b Hb) as [H0 H1].
  assert (H : 0 <= around (get 0%Q zp b * fact)%Q <= ihmax - 1); [|lia].
  apply around_between.
  - change (inject_Z 0) with 0%Q. apply Qmult_le_0_compat; [exact H0 | apply fact_nonneg].
  - apply Qle_trans with ((zmax - zmin) * fact)%Q.
    + apply Qmult_le_compat_r; [exact H1 | apply fact_nonneg].
    + unfold fact. rewrite Qmult_div_r; [apply Qle_refl|].
      intros E. assert (C : (zmin + 0 < zmin + (zmax - zmin))%Q).
      { rewrite Qplus_0_r. unfold Qminus. rewrite (Qplus_comm zmax), Qplus_assoc, Qplus_opp_r, Qplus_0_l.
        exact range_open. }
      rewrite E in C. now apply Qlt_irrefl in C.
Qed.

(** The levels ascend along the sort order [ind]. *)
Lemma lev_sorted (p q : Z) :
  inb (length flat) p -> inb (length flat) q -> p <= q ->
  lev imi (at_pos (argsort zp) p) <= lev imi (at_pos (argsort zp) q).
Proof.
  intros Hp Hq Hpq.
  assert (V : forall r, inb (length flat) r -> inb (length flat) (at_pos (argsort zp) r)).
  { intros r Hr. rewrite <- shifted_length in *. unfold at_pos.
    apply (get_Forall _ 0 (argsort zp) r (argsort_valid zp)). now rewrite argsort_length. }
  rewrite !lev_value by (now apply V).
  apply around_monotone. apply Qmult_le_compat_r; [|apply fact_nonneg].
  unfold at_pos. rewrite <- shifted_length in Hp, Hq. now apply argsort_ordered.
Qed.

End Energy.

(** *** The labels of a varying grid *)

Lemma varying_two (l : list Q) : varying l -> (2 <= length l)%nat.
Proof.
  intros (a & b & Ha & Hb & Hab). destruct l as [|x [|y t]]; cbn [length]; [destruct Ha | | lia].
  exfalso. apply Hab. destruct Ha as [<-|[]], Hb as [<-|[]]. apply Qeq_refl.
Qed.

Lemma varying_range (l : list Q) (zmin zmax : Q) :
  varying l -> Forall (fun e => (zmin <= e)%Q) l -> Forall (fun e => (e <= zmax)%Q) l ->
  (zmin < zmax)%Q.
Proof.
  intros (a & b & Ha & Hb & Hab) Hmin Hmax. rewrite Forall_forall in Hmin, Hmax.
  apply Qnot_le_lt. intros C. apply Hab. apply Qle_antisym.
  - apply Qle_trans with zmax; [now apply Hmax|]. apply Qle_trans with zmin; [exact C | now apply Hmin].
  - apply Qle_trans with zmax; [now apply Hmax|]. apply Qle_trans with zmin; [exact C | now apply Hmin].
Qed.



(** * Further properties of the code *)

(** ** More about the neighbour topology *)

Lemma neighbours_count (nk nth n : Z) :
  1 <= nk -> 1 <= nth -> is_bin nk nth n ->
  Z.of_nat (length (neighbours nk nth n))
  = if nk =? 1 then 2
    else if (row nth n =? 0) || (row nth n =? nk - 1) then 5 else 8.
Proof.
  intros Hnk Hnth Hn.
  pose proof (row_in_range nk nth n ltac:(lia) Hn) as Hr.
  assert (Hc : 0 <= n mod nth < nth) by (apply Z.mod_pos_bound; lia).
  unfold neighbours, row in *.
  set (ik := n / nth) in *. set (ith := n mod nth) in *. clearbody ik ith.
  split_tests; cbn; lia.
Qed.

(** X2: [ptnghb] lists, for every bin of a grid with at least one frequency
    and one direction, exactly 8 neighbours in an inner frequency row, 5 in
    the first and in the last row, and 2 (left and right) when the grid has a
    single frequency; the count does not depend on the number of
    directions. *)
Theorem X2_ptnghb_neighbour_count (nk nth n : Z) :
  1 <= nk -> 1 <= nth -> is_bin nk nth n ->
  exists l,
    nth_error (ptnghb nk nth) (Z.to_nat n) = Some l /\
    Z.of_nat (length l)
    = if nk =? 1 then 2
      else if (row nth n =? 0) || (row nth n =? nk - 1) then 5 else 8.
Proof.
  intros Hnk Hnth Hn. exists (neighbours nk nth n). split.
  - now apply ptnghb_lookup.
  - now apply neighbours_count.
Qed.

Lemma X2_ptnghb_neighbour_count_witness :
  exists l,
    nth_error (ptnghb 3 4) (Z.to_nat 5) = Some l /\
    Z.of_nat (length l)
    = if 3 =? 1 then 2
      else if (row 4 5 =? 0) || (row 4 5 =? 3 - 1) then 5 else 8.
Proof.
  apply (X2_ptnghb_neighbour_count 3 4 5); unfold is_bin; lia.
Defined.

Lemma adjacent_shift (nk nth s a b : Z) :
  0 < nth -> adjacent nk nth a b -> adjacent nk nth (shift_dir nth s a) (shift_dir nth s b).
Proof.
  intros Hnth (di & dj & Hdi & Hdj & Hne & Hrow & ->).
  unfold shift_dir.
  destruct (row_col_bin_at nth (row nth a + di) (col nth a + dj) Hnth) as [Rb Cb].
  destruct (row_col_bin_at nth (row nth a) (col nth a + s) Hnth) as [Ra Ca].
  exists di, dj. rewrite Ra, Ca, Rb, Cb. repeat split; try lia.
  unfold bin_at. f_equal.
  rewrite Zplus_mod_idemp_l, Zplus_mod_idemp_l. f_equal. lia.
Qed.

Lemma adjacent_flip (nk nth a b : Z) :
  0 < nth -> 0 <= row nth a < nk ->
  adjacent nk nth a b -> adjacent nk nth (flip_freq nk nth a) (flip_freq nk nth b).
Proof.
  intros Hnth Hra (di & dj & Hdi & Hdj & Hne & Hrow & ->).
  unfold flip_freq.
  destruct (row_col_bin_at nth (row nth a + di) (col nth a + dj) Hnth) as [Rb Cb].
  destruct (row_col_bin_at nth (nk - 1 - row nth a) (col nth a) Hnth) as [Ra Ca].
  exists (- di), dj. rewrite Ra, Ca, Rb, Cb. repeat split; try lia.
  unfold bin_at. f_equal; [f_equal; lia|].
  rewrite Zplus_mod_idemp_l. rewrite !Z.mod_mod by lia. reflexivity.
Qed.

Lemma shift_is_bin (nk nth s a : Z) :
  0 < nth -> is_bin nk nth a -> is_bin nk nth (shift_dir nth s a).
Proof.
  intros Hnth Ha. pose proof (row_in_range nk nth a Hnth Ha) as Hr.
  unfold shift_dir, bin_at, is_bin.
  pose proof (Z.mod_pos_bound (col nth a + s) nth Hnth). nia.
Qed.

Lemma flip_is_bin (nk nth a : Z) :
  0 < nth -> is_bin nk nth a -> is_bin nk nth (flip_freq nk nth a).
Proof.
  intros Hnth Ha. pose proof (row_in_range nk nth a Hnth Ha) as Hr.
  unfold flip_freq, bin_at, is_bin.
  pose proof (Z.mod_pos_bound (col nth a) nth Hnth). nia.
Qed.

(** X3: the neighbour relation of [ptnghb] has the symmetries of a cylinder:
    it is kept by a cyclic shift of all bins by [s] directions and by the
    mirror image in frequency. *)
Theorem X3_ptnghb_shift_and_mirror (nk nth s a b : Z) :
  1 <= nk -> 1 <= nth -> is_bin nk nth a -> linked nk nth a b ->
  is_bin nk nth (shift_dir nth s a) /\
  linked nk nth (shift_dir nth s a) (shift_dir nth s b) /\
  is_bin nk nth (flip_freq nk nth a) /\
  linked nk nth (flip_freq nk nth a) (flip_freq nk nth b).
Proof.
  intros Hnk Hnth Ha Hl.
  assert (H0 : 0 < nth) by lia.
  pose proof (row_in_range nk nth a H0 Ha) as Hr.
  apply (linked_adjacent nk nth a b H0 Ha) in Hl.
  pose proof (shift_is_bin nk nth s a H0 Ha) as Hs.
  pose proof (flip_is_bin nk nth a H0 Ha) as Hf.
  refine (conj Hs (conj _ (conj Hf _))).
  - apply linked_adjacent; [exact H0 | exact Hs | now apply adjacent_shift].
  - apply linked_adjacent; [exact H0 | exact Hf | now apply adjacent_flip].
Qed.

Lemma X3_ptnghb_shift_and_mirror_witness :
  is_bin 3 4 (shift_dir 4 2 3) /\ linked 3 4 (shift_dir 4 2 3) (shift_dir 4 2 4) /\
  is_bin 3 4 (flip_freq 3 4 3) /\ linked 3 4 (flip_freq 3 4 3) (flip_freq 3 4 4).
Proof.
  apply (X3_ptnghb_shift_and_mirror 3 4 2 3 4); try lia.
  - unfold is_bin. lia.
  - exists (neighbours 3 4 3). split; [reflexivity|]. vm_compute. tauto.
Defined.

(** ** More about [specpart] *)

(** X4: on a grid without bins (a shape (0, k) or (k, 0)) [specpart] raises
    ValueError for every [ihmax]: [spectrum.min()] has nothing to reduce. *)
Theorem X4_specpart_empty_grid (nan_to_int : Z) (spectrum : array2 Q) (ihmax : Z) :
  flatten spectrum = [] -> specpart nan_to_int spectrum ihmax = Raise ValueError.
Proof.
  intros H. unfold specpart. rewrite H. reflexivity.
Qed.

Lemma X4_specpart_empty_grid_witness :
  specpart nan_x86_64 (mkArray2 0 24 []) ihmax_default = Raise ValueError.
Proof.
  apply (X4_specpart_empty_grid nan_x86_64 (mkArray2 0 24 []) ihmax_default). reflexivity.
Defined.

Lemma fold_pick_In (f : Q -> Q -> Q) (t : list Q) (x : Q) :
  (forall m y, f m y = m \/ f m y = y) -> In (fold_left f t x) (x :: t).
Proof.
  intros Hf. revert x. induction t as [|y t IH]; intros x; cbn [fold_left].
  - now left.
  - destruct (IH (f x y)) as [E|Hin].
    + rewrite <- E. destruct (Hf x y) as [->| ->]; [now left | right; now left].
    + right. now right.
Qed.

Lemma amin_In (l : list Q) (m : Q) : amin l = Ok m -> In m l.
Proof.
  destruct l as [|x t]; [discriminate|]. cbn [amin]. intros [= <-].
  apply fold_pick_In. intros a b. destruct (Qltb b a); auto.
Qed.

Lemma amax_In (l : list Q) (m : Q) : amax l = Ok m -> In m l.
Proof.
  destruct l as [|x t]; [discriminate|]. cbn [amax]. intros [= <-].
  apply fold_pick_In. intros a b. destruct (Qltb a b); auto.
Qed.

Lemma around_Qeq (x y : Q) : (x == y)%Q -> around x = around y.
Proof.
  intros E. apply Z.le_antisymm; apply around_monotone; rewrite E; apply Qle_refl.
Qed.



(** *** Step 2 changes watershed bins only *)

Lemma nearest_label_In (neigh : list (list Z)) (zp : list Q) (imo0 : list Z) (jl v : Z) :
  nearest_label neigh zp imo0 jl = Ok v -> v = 0 \/ In v imo0.
Proof.
  unfold nearest_label.
  destruct (item neigh jl) as [nb| |]; cbn [bind]; try discriminate.
  destruct (labelled imo0 nb) as [jnl| |]; cbn [bind]; try discriminate.
  destruct (any_truthy jnl); [|intros [= <-]; now left].
  destruct (take zp jnl) as [zs| |]; cbn [bind]; try discriminate.
  destruct (item zp jl) as [z0| |]; cbn [bind]; try discriminate.
  destruct (argmin _) as [ipt| |]; cbn [bind]; try discriminate.
  destruct (item jnl ipt) as [j| |]; cbn [bind]; try discriminate.
  intros H. right. now apply item_In in H.
Qed.

Lemma new_values_In (neigh : list (list Z)) (zp : list Q) (imo0 : list Z) (ws vs : list Z) :
  new_values neigh zp imo0 ws = Ok vs ->
  Forall (fun v => v = 0 \/ In v imo0) vs.
Proof.
  revert vs. induction ws as [|jl rest IH]; intros vs; cbn [new_values].
  - intros [= <-]. constructor.
  - destruct (nearest_label neigh zp imo0 jl) as [v| |] eqn:E; cbn [bind]; try discriminate.
    destruct (new_values neigh zp imo0 rest) as [vs'| |]; cbn [bind]; try discriminate.
    intros [= <-]. constructor; [now apply nearest_label_In in E | now apply IH].
Qed.

Lemma update_nth_error_other {A : Type} (l : list A) (j p : nat) (x : A) :
  j <> p -> nth_error (update l j x) p = nth_error l p.
Proof.
  revert j p. induction l as [|y t IH]; intros [|j] [|p] H; cbn; try congruence; auto.
Qed.

Lemma update_In {A : Type} (l : list A) (j : nat) (x w : A) :
  In w (update l j x) -> In w l \/ w = x.
Proof.
  revert j. induction l as [|y t IH]; intros [|j] H; cbn in *; try tauto.
  - destruct H as [<-|H]; auto.
  - destruct H as [<-|H]; [auto|]. destruct (IH j H); auto.
Qed.

Lemma put_each_frame (idx : list Z) :
  forall (a vals a' : list Z),
    Forall (inb (length a)) idx -> put_each a idx vals = Ok a' ->
    length a' = length a /\
    (forall p, ~ In (Z.of_nat p) idx -> nth_error a' p = nth_error a p) /\
    (forall v, In v a' -> In v a \/ In v vals).
Proof.
  induction idx as [|i rest IH]; intros a vals a' Hidx H.
  - destruct vals; [|discriminate]. injection H as <-. auto.
  - destruct vals as [|v vs]; [discriminate|].
    inversion Hidx as [|? ? Hi Hrest]; subst.
    cbn [put_each] in H. rewrite setitem_upd in H by assumption. cbn [bind] in H.
    destruct (IH (upd a i v) vs a') as (L & F & V); [now rewrite upd_length | exact H |].
    rewrite upd_length in L. refine (conj L (conj _ _)).
    + intros p Hp. rewrite F by (intros C; apply Hp; now right).
      apply update_nth_error_other. intros E. apply Hp. left.
      unfold inb in Hi. lia.
    + intros w Hw. destruct (V w Hw) as [Hin|Hin]; [|right; now right].
      apply update_In in Hin. destruct Hin as [Hin| ->]; [now left | right; now left].
Qed.

Lemma where_zero_spec (imo0 : list Z) (p : nat) (v : Z) :
  nth_error imo0 p = Some v -> v <> 0 -> ~ In (Z.of_nat p) (where_zero imo0).
Proof.
  intros Hp Hv Hin. unfold where_zero in Hin. apply filter_In in Hin.
  destruct Hin as [_ Hz]. rewrite Nat2Z.id in Hz.
  rewrite (nth_error_nth _ _ 1 Hp) in Hz. apply Z.eqb_eq in Hz. contradiction.
Qed.

(** Step 2 keeps the length and the labels other than 0, and writes only 0
    or labels that are there. *)
Lemma relax_keeps (neigh : list (list Z)) (zp : list Q)
    (passes : nat) (imo0 imo' : list Z) :
  relax neigh zp passes imo0 = Ok imo' ->
  length imo' = length imo0 /\
  (forall p v, nth_error imo0 p = Some v -> v <> 0 -> nth_error imo' p = Some v) /\
  (forall v, In v imo' -> v = 0 \/ In v imo0).
Proof.
  revert imo0. induction passes as [|passes IH]; intros imo0; cbn [relax].
  - intros [= <-]. auto.
  - destruct (negb (any_truthy (where_zero imo0))); [intros [= <-]; auto|].
    destruct (new_values neigh zp imo0 (where_zero imo0)) as [vs| |] eqn:Ev;
      cbn [bind]; try discriminate.
    destruct (put_each imo0 (where_zero imo0) vs) as [imo1| |] eqn:Ep;
      cbn [bind]; try discriminate.
    intros H. destruct (IH imo1 H) as (L & F & V).
    assert (Hidx : Forall (inb (length imo0)) (where_zero imo0)).
    { apply Forall_forall. intros i Hi. now apply where_zero_In. }
    destruct (put_each_frame _ _ _ _ Hidx Ep) as (L1 & F1 & V1).
    pose proof (new_values_In _ _ _ _ _ Ev) as Hvs. rewrite Forall_forall in Hvs.
    refine (conj _ (conj _ _)).
    + congruence.
    + intros p v Hp Hv. apply F; [|exact Hv].
      rewrite F1; [exact Hp|]. now apply (where_zero_spec imo0 p v).
    + intros v Hv. destruct (V v Hv) as [->|Hin]; [now left|].
      destruct (V1 v Hin) as [H1|H1]; [now right | now apply Hvs].
Qed.

(** X6: step 2 of [specpart], whatever the number of passes, keeps the length
    of the label array and the label of every bin whose label is not 0, and
    gives a watershed bin nothing but 0 or a label the array already holds:
    it creates no label. *)
Theorem X6_step2_relabels_watershed_bins_only (neigh : list (list Z)) (zp : list Q)
    (passes : nat) (imo0 imo' : list Z) :
  relax neigh zp passes imo0 = Ok imo' ->
  length imo' = length imo0 /\
  (forall p v, nth_error imo0 p = Some v -> v <> 0 -> nth_error imo' p = Some v) /\
  (forall v, In v imo' -> v = 0 \/ In v imo0).
Proof. apply relax_keeps. Qed.

Lemma X6_step2_relabels_watershed_bins_only_witness :
  relax (ptnghb 1 5) [9; 0; 5; 5; 0]%Q 5 [1; 0; 2; 2; 0] = Ok [1; 2; 2; 2; 2] /\
  length [1; 2; 2; 2; 2] = length [1; 0; 2; 2; 0] /\
  (forall p v, nth_error [1; 0; 2; 2; 0] p = Some v -> v <> 0 ->
               nth_error [1; 2; 2; 2; 2] p = Some v) /\
  (forall v, In v [1; 2; 2; 2; 2] -> v = 0 \/ In v [1; 0; 2; 2; 0]).
Proof.
  assert (E : relax (ptnghb 1 5) [9; 0; 5; 5; 0]%Q 5 [1; 0; 2; 2; 0] = Ok [1; 2; 2; 2; 2])
    by (vm_compute; reflexivity).
  exact (conj E (X6_step2_relabels_watershed_bins_only _ _ _ _ _ E)).
Defined.

(** ** More about the batch entry point *)

Lemma fold_raise {A : Type} (f : A -> Z -> result A) (l : list Z) (e : exn) :
  fold_left (fun acc ind => o <- acc ;; f o ind) l (Raise e) = Raise e.
Proof. induction l as [|x t IH]; cbn; auto. Qed.

Lemma setitem_out_of_range {A : Type} (l : list A) (x : A) :
  setitem l (Z.of_nat (length l)) x = Raise IndexError.
Proof.
  unfold setitem, norm_index.
  destruct (Z.ltb_spec (Z.of_nat (length l)) 0); [lia|].
  destruct (Z.leb_spec 0 (Z.of_nat (length l))); [|lia].
  rewrite Z.ltb_irrefl. reflexivity.
Qed.

(** X7: the kernel [nppart] writes the spectrum into the slots
    [0 .. swells] of [out] and leaves the later slots as they are (all of
    them when [swells < 0]); when [out] has fewer than [swells + 1] slots it
    raises IndexError. *)
Theorem X7_nppart_writes_the_first_slots (spectrum : array2 Q) (freq dir : list Q)
    (wspd wdir dpt : Q) (swells : Z) (agefac wscut : Q) (dummy : list Z)
    (out : list (option (array2 Q))) :
  (swells + 1 <= Z.of_nat (length out) ->
   nppart spectrum freq dir wspd wdir dpt swells agefac wscut dummy out
   = Ok (repeat (Some spectrum) (Z.to_nat (swells + 1))
         ++ skipn (Z.to_nat (swells + 1)) out)) /\
  (Z.of_nat (length out) < swells + 1 ->
   nppart spectrum freq dir wspd wdir dpt swells agefac wscut dummy out
   = Raise IndexError).
Proof.
  unfold nppart, range. split; intros H.
  - apply fill_slots. lia.
  - set (m := length out) in *.
    replace (Z.to_nat (swells + 1)) with (m + S (Z.to_nat (swells + 1) - m - 1))%nat by lia.
    rewrite seq_app, map_app, fold_left_app.
    rewrite fill_slots by (fold m; lia).
    cbn [seq map fold_left bind Nat.add].
    replace (skipn m out) with (@nil (option (array2 Q))) by (symmetry; apply skipn_all).
    rewrite app_nil_r.
    replace (Z.of_nat m) with (Z.of_nat (length (repeat (Some spectrum) m)))
      by (now rewrite repeat_length).
    rewrite setitem_out_of_range. apply fold_raise.
Qed.

Lemma getitem_error (dset : dset_arg) (s : string) (e : exn) :
  getitem dset s = Raise e -> e = KeyError s.
Proof.
  unfold getitem. destruct dset as [a|d].
  - destruct (lookup (scoords a) s); [discriminate | now intros [= <-]].
  - destruct (lookup d s); [discriminate | now intros [= <-]].
Qed.

(** X8: [partition] looks the names up in the order [wspd], [wdir], [dpt]
    and then, for a Dataset, the spectra variable; the first name that [dset]
    does not hold decides the outcome, a KeyError of that name, whatever the
    later arguments and the configuration are. *)
Theorem X8_partition_missing_variable (SPECNAME : string) (dset : dset_arg)
    (wspd wdir dpt : var_arg) (swells : Z) (agefac wscut : Q) :
  (forall s e, resolve dset (Named s) = Raise e -> e = KeyError s) /\
  (forall e, resolve dset wspd = Raise e ->
     partition SPECNAME dset wspd wdir dpt swells agefac wscut = Raise e) /\
  (forall w e, resolve dset wspd = Ok w -> resolve dset wdir = Raise e ->
     partition SPECNAME dset wspd wdir dpt swells agefac wscut = Raise e) /\
  (forall w d e, resolve dset wspd = Ok w -> resolve dset wdir = Ok d ->
     resolve dset dpt = Raise e ->
     partition SPECNAME dset wspd wdir dpt swells agefac wscut = Raise e) /\
  (forall w d p ds, resolve dset wspd = Ok w -> resolve dset wdir = Ok d ->
     resolve dset dpt = Ok p -> dset = OfDataset ds -> lookup ds SPECNAME = None ->
     partition SPECNAME dset wspd wdir dpt swells agefac wscut
     = Raise (KeyError SPECNAME)).
Proof.
  unfold partition. fold (resolve dset wspd) (resolve dset wdir) (resolve dset dpt).
  refine (conj _ (conj _ (conj _ (conj _ _)))).
  - intros s e. apply getitem_error.
  - intros e ->. reflexivity.
  - intros w e -> ->. reflexivity.
  - intros w d e -> -> ->. reflexivity.
  - intros w d p ds -> -> -> -> Hl. cbn [bind getitem]. rewrite Hl. reflexivity.
Qed.

Lemma X7_nppart_writes_the_first_slots_witness :
  nppart (mkArray2 1 2 [1; 2]%Q) [] [] 0 0 0 1 agefac_default
         wscut_default [1; 1] [None; None; None]
  = Ok [Some (mkArray2 1 2 [1; 2]%Q); Some (mkArray2 1 2 [1; 2]%Q); None] /\
  nppart gaussian_bump [] [] 0 0 0 swells_default agefac_default wscut_default [3; 3]
         [None; None]
  = Raise IndexError.
Proof.
  split.
  - apply (X7_nppart_writes_the_first_slots (mkArray2 1 2 [1; 2]%Q) [] [] 0 0 0 1
             agefac_default wscut_default [1; 1] [None; None; None]).
    cbn. lia.
  - apply (X7_nppart_writes_the_first_slots gaussian_bump [] [] 0 0 0 swells_default
             agefac_default wscut_default [3; 3] [None; None]).
    cbn. unfold swells_default. lia.
Defined.

Lemma X8_partition_missing_variable_witness :
  partition "efth" (OfDataset [("efth"%string, SpecVar one_flat_spectrum);
                               ("wspd"%string, ScalarVar calm);
                               ("dpt"%string, ScalarVar deep)])
            (Named "wspd") (Named "wdir") (Named "depth")
            swells_default agefac_default wscut_default
  = Raise (KeyError "wdir") /\
  partition "efth" (OfDataset [("wspd"%string, ScalarVar calm)])
            (Named "wspd") (Given calm) (Given deep)
            swells_default agefac_default wscut_default
  = Raise (KeyError "efth").
Proof.
  split.
  - destruct (X8_partition_missing_variable "efth"
                (OfDataset [("efth"%string, SpecVar one_flat_spectrum);
                            ("wspd"%string, ScalarVar calm);
                            ("dpt"%string, ScalarVar deep)])
                (Named "wspd") (Named "wdir") (Named "depth")
                swells_default agefac_default wscut_default) as (_ & _ & H & _).
    apply (H (ScalarVar calm)); reflexivity.
  - destruct (X8_partition_missing_variable "efth"
                (OfDataset [("wspd"%string, ScalarVar calm)])
                (Named "wspd") (Given calm) (Given deep)
                swells_default agefac_default wscut_default) as (_ & _ & _ & _ & H).
    apply (H (ScalarVar calm) (ScalarVar calm) (ScalarVar deep)
             [("wspd"%string, ScalarVar calm)]); reflexivity.
Defined.

(** ** More about [frequency_resolution] and [inflection] *)

Lemma spacings_length (freq : list Q) : length (spacings freq) = (length freq - 1)%nat.
Proof.
  induction freq as [|x [|y t] IH]; cbn [spacings length] in *; try reflexivity.
  rewrite IH. lia.
Qed.

Lemma spacings_nonneg (freq : list Q) : Forall (fun d => (0 <= d)%Q) (spacings freq).
Proof.
  induction freq as [|x [|y t] IH]; cbn [spacings]; try constructor.
  - apply Qabs_nonneg.
  - exact IH.
Qed.

Lemma spacings_nth (freq : list Q) (i : nat) (f g : Q) :
  nth_error freq i = Some f -> nth_error freq (S i) = Some g ->
  nth_error (spacings freq) i = Some (Qabs (g - f)).
Proof.
  revert i. induction freq as [|x [|y t] IH]; intros i Hf Hg.
  - destruct i; discriminate.
  - destruct i; cbn in Hg; [discriminate | destruct i; discriminate].
  - destruct i as [|i].
    + cbn in Hf, Hg. injection Hf as <-. injection Hg as <-. reflexivity.
    + cbn [spacings nth_error]. apply IH; [exact Hf | exact Hg].
Qed.

Lemma spacings_app (l : list Q) (a b : Q) :
  spacings (l ++ [a; b]) = spacings (l ++ [a]) ++ [Qabs (b - a)].
Proof.
  induction l as [|x [|y t] IH]; cbn [app spacings] in *; try reflexivity.
  now rewrite IH.
Qed.

Lemma spacings_rev (freq : list Q) :
  Forall2 Qeq (spacings (rev freq)) (rev (spacings freq)).
Proof.
  induction freq as [|x [|y t] IH]; cbn [spacings rev app]; try constructor.
  cbn [rev] in IH. rewrite <- app_assoc. cbn [app]. rewrite spacings_app.
  apply Forall2_app; [exact IH|]. constructor; [|constructor].
  rewrite <- (Qabs_opp (y - x)). apply Qabs_wd. ring.
Qed.

(** X9: [frequency_resolution] returns the one-element array [[1.0]] for at
    most one frequency; for [nf >= 2] frequencies it returns the [nf - 1]
    absolute differences of adjacent frequencies, none of them negative,
    and the reversed axis gives the same resolutions in reverse order. *)
Theorem X9_frequency_resolution_shape (freq : list Q) :
  ((length freq <= 1)%nat -> frequency_resolution freq = [1%Q]) /\
  ((2 <= length freq)%nat ->
   S (length (frequency_resolution freq)) = length freq /\
   forall i f g, nth_error freq i = Some f -> nth_error freq (S i) = Some g ->
                 nth_error (frequency_resolution freq) i = Some (Qabs (g - f))) /\
  Forall (fun d => (0 <= d)%Q) (frequency_resolution freq) /\
  Forall2 Qeq (frequency_resolution (rev freq)) (rev (frequency_resolution freq)).
Proof.
  unfold frequency_resolution. rewrite length_rev.
  destruct (Nat.ltb_spec 1 (length freq)) as [H|H].
  - refine (conj _ (conj _ (conj _ _))).
    + lia.
    + intros _. split; [rewrite spacings_length; lia | apply spacings_nth].
    + apply spacings_nonneg.
    + apply spacings_rev.
  - refine (conj _ (conj _ (conj _ _))).
    + reflexivity.
    + lia.
    + constructor; [discriminate | constructor].
    + constructor; [reflexivity | constructor].
Qed.

Lemma first_spacing (f0 f1 : Q) (rest : list Q) :
  item (frequency_resolution (f0 :: f1 :: rest)) 0 = Ok (Qabs (f1 - f0)).
Proof. reflexivity. Qed.

(** X10: the inputs on which [inflection] does no work. With at most one
    frequency it returns the pair of integers (0, 0) and reads nothing else;
    when the first two frequencies are equal the window size is the integer
    of inf or NaN, and the call raises OverflowError, or ValueError when
    [dfres] is 0 as well. *)
Theorem X10_inflection_edge_cases (hamming : Z -> list Q) (spectrum : array2 Q)
    (freq : list Q) (dfres fmin : Q) :
  ((length freq <= 1)%nat ->
   inflection hamming spectrum freq dfres fmin = Ok (IntZero, IntZero)) /\
  (forall f0 f1 rest, freq = f0 :: f1 :: rest -> (f1 == f0)%Q ->
   inflection hamming spectrum freq dfres fmin
   = Raise (if Qeq_bool dfres 0 then ValueError else OverflowError)).
Proof.
  split.
  - intros H. unfold inflection.
    destruct (Nat.ltb_spec 1 (length freq)); [lia | reflexivity].
  - intros f0 f1 rest -> E. unfold inflection, smoothed_profile.
    cbn [length Nat.ltb Nat.leb]. rewrite first_spacing. cbn [bind].
    unfold int_of_quotient.
    assert (Hz : Qeq_bool (Qabs (f1 - f0)) 0 = true).
    { apply Qeq_bool_iff. rewrite E. unfold Qminus. rewrite Qplus_opp_r. reflexivity. }
    rewrite Hz. destruct (Qeq_bool dfres 0); reflexivity.
Qed.

Lemma X10_inflection_edge_cases_witness :
  inflection hamming_rational ragged_profile [1 # 10]%Q dfres_default fmin_default
  = Ok (IntZero, IntZero) /\
  inflection hamming_rational ragged_profile [1 # 10; 1 # 10; 2 # 10]%Q dfres_default
             fmin_default
  = Raise OverflowError.
Proof.
  split.
  - apply (X10_inflection_edge_cases hamming_rational ragged_profile [1 # 10]%Q
             dfres_default fmin_default). cbn. lia.
  - apply (proj2 (X10_inflection_edge_cases hamming_rational ragged_profile
                    [1 # 10; 1 # 10; 2 # 10]%Q dfres_default fmin_default)
                 (1 # 10)%Q (1 # 10)%Q [2 # 10]%Q eq_refl). reflexivity.
Defined.

Lemma convolve_same_length_max (a v : list Q) :
  a <> [] -> v <> [] ->
  exists sm, convolve_same a v = Ok sm /\ length sm = Nat.max (length a) (length v).
Proof.
  intros Ha Hv. unfold convolve_same.
  destruct a as [|x a']; [congruence|]. destruct v as [|y v']; [congruence|].
  set (a := x :: a') in *. set (v := y :: v') in *.
  destruct (Nat.ltb_spec (length a) (length v)) as [H|H].
  - eexists. split; [reflexivity|].
    rewrite length_firstn, length_skipn, convolve_full_length by assumption.
    assert ((length a - 1) / 2 <= length a - 1)%nat by (apply Nat.Div0.div_le_upper_bound; lia).
    assert (0 < length a)%nat by (unfold a; cbn; lia). lia.
  - eexists. split; [reflexivity|].
    rewrite length_firstn, length_skipn, convolve_full_length by assumption.
    assert ((length v - 1) / 2 <= length v - 1)%nat by (apply Nat.Div0.div_le_upper_bound; lia).
    assert (0 < length v)%nat by (unfold v; cbn; lia). lia.
Qed.



Lemma zero_where_Ok (sm freq : list Q) (fmin : Q) (z : list Q) :
  zero_where sm freq fmin = Ok z ->
  length sm = length freq /\ z = zero_masked sm freq fmin.
Proof.
  unfold zero_where. destruct (Nat.eqb_spec (length sm) (length freq)) as [E|_].
  - intros [= <-]. auto.
  - destruct (_ || _); discriminate.
Qed.

(** What [inflection] has computed when it returns two index arrays. *)
Lemma inflection_Ok (hamming : Z -> list Q) (spectrum : array2 Q) (freq : list Q)
    (dfres fmin : Q) (imax imin : list Z) :
  inflection hamming spectrum freq dfres fmin = Ok (IndexArray imax, IndexArray imin) ->
  exists sm,
    length sm = length freq /\
    imax = argwhere_succ (-2) 0 (diffZ (map sign (diffQ (zero_masked sm freq fmin)))) /\
    imin = argwhere_succ 2 0 (diffZ (map sign (diffQ (zero_masked sm freq fmin)))).
Proof.
  unfold inflection. destruct (1 <? length freq)%nat; [|discriminate].
  unfold smoothed_profile.
  destruct (item (frequency_resolution freq) 0) as [df0| |]; cbn [bind]; try discriminate.
  destruct (int_of_quotient dfres df0) as [nsmooth| |]; cbn [bind]; try discriminate.
  destruct (if 1 <? nsmooth then convolve_same (sum_axis1 spectrum) (hamming nsmooth)
            else Ok (sum_axis1 spectrum)) as [sm| |]; cbn [bind]; try discriminate.
  destruct (zero_where sm freq fmin) as [z| |] eqn:Ez; cbn [bind]; try discriminate.
  apply zero_where_Ok in Ez. destruct Ez as [L ->].
  unfold extrema. intros [= <- <-]. exists sm. auto.
Qed.

Lemma zero_masked_values (sm freq : list Q) (fmin : Q) (i : nat) (x : Q) :
  nth_error (zero_masked sm freq fmin) i = Some x ->
  (0 <= x)%Q /\
  ((0 < x)%Q -> exists f, nth_error freq i = Some f /\ (fmin <= f)%Q).
Proof.
  revert freq i. induction sm as [|s sm IH]; intros [|f freq] i H;
    try (destruct i; discriminate).
  destruct i as [|i].
  - cbn in H. injection H as <-.
    destruct (Qltb s 0) eqn:E1; cbn [orb].
    + split; [apply Qle_refl | intros C; now apply Qlt_irrefl in C].
    + destruct (Qltb f fmin) eqn:E2.
      * split; [apply Qle_refl | intros C; now apply Qlt_irrefl in C].
      * split; [now apply Qltb_false|]. intros _. exists f. split; [reflexivity|].
        now apply Qltb_false.
  - cbn in H. apply (IH freq i H).
Qed.

Lemma sign_pos (q : Q) : sign q = 1 <-> (0 < q)%Q.
Proof.
  unfold sign, Qlt. destruct q as [n d]. cbn [Qnum Qden].
  rewrite Z.mul_1_r. cbn. destruct n; cbn; split; intros H; try lia; discriminate.
Qed.

Lemma sign_neg (q : Q) : sign q = -1 <-> (q < 0)%Q.
Proof.
  unfold sign, Qlt. destruct q as [n d]. cbn [Qnum Qden].
  rewrite Z.mul_1_r. cbn. destruct n; cbn; split; intros H; try lia; discriminate.
Qed.

Lemma argwhere_succ_sorted (v : Z) (xs : list Z) (s : Z) :
  StronglySorted Z.lt (argwhere_succ v s xs) /\
  Forall (fun i => s < i) (argwhere_succ v s xs).
Proof.
  revert s. induction xs as [|x t IH]; intros s; cbn [argwhere_succ].
  - split; constructor.
  - destruct (IH (s + 1)) as [S1 F1]. destruct (x =? v).
    + split.
      * constructor; [exact S1|]. eapply Forall_impl; [|exact F1]. cbv beta. lia.
      * constructor; [lia|]. eapply Forall_impl; [|exact F1]. cbv beta. lia.
    + split; [exact S1|]. eapply Forall_impl; [|exact F1]. cbv beta. lia.
Qed.

(** X12: when [inflection] returns two index arrays, each is strictly
    increasing and no index is in both; every index lies inside the axis
    ([1 <= i] and [i + 1] is an index of [freq]); a maximum is reported only
    at a frequency [>= fmin], and a minimum only between two frequencies
    [>= fmin]. *)
Theorem X12_inflection_extrema_positions (hamming : Z -> list Q) (spectrum : array2 Q)
    (freq : list Q) (dfres fmin : Q) (imax imin : list Z) :
  inflection hamming spectrum freq dfres fmin = Ok (IndexArray imax, IndexArray imin) ->
  StronglySorted Z.lt imax /\ StronglySorted Z.lt imin /\
  (forall i, In i imax -> ~ In i imin) /\
  (forall i, In i imax \/ In i imin -> 1 <= i /\ i + 1 < Z.of_nat (length freq)) /\
  (forall i, In i imax ->
     exists f, nth_error freq (Z.to_nat i) = Some f /\ (fmin <= f)%Q) /\
  (forall i, In i imin ->
     exists f g, nth_error freq (Z.to_nat (i - 1)) = Some f /\ (fmin <= f)%Q /\
                 nth_error freq (Z.to_nat (i + 1)) = Some g /\ (fmin <= g)%Q).
Proof.
  intros H. apply inflection_Ok in H. destruct H as (sm & L & -> & ->).
  set (z := zero_masked sm freq fmin).
  assert (Lz : length z = length freq) by (now apply zero_masked_length).
  assert (Hmax : forall i, In i (argwhere_succ (-2) 0 (diffZ (map sign (diffQ z))))
                           <-> sign_step z i 1 (-1)).
  { intros i. apply extrema_In. intros s1 s2 H1 H2. lia. }
  assert (Hmin : forall i, In i (argwhere_succ 2 0 (diffZ (map sign (diffQ z))))
                           <-> sign_step z i (-1) 1).
  { intros i. apply extrema_In. intros s1 s2 H1 H2. lia. }
  assert (Hin : forall i b a, sign_step z i b a -> 1 <= i /\ i + 1 < Z.of_nat (length freq)).
  { intros i b a (x & y & w & Hi & _ & _ & Hw & _). split; [exact Hi|].
    assert (Z.to_nat (i + 1) < length z)%nat by (apply nth_error_Some; congruence). lia. }
  refine (conj _ (conj _ (conj _ (conj _ (conj _ _))))).
  - apply argwhere_succ_sorted.
  - apply argwhere_succ_sorted.
  - intros i H1 H2. apply Hmax in H1. apply Hmin in H2.
    destruct H1 as (a & b & c & _ & Ha & Hb & _ & S1 & _).
    destruct H2 as (a' & b' & c' & _ & Ha' & Hb' & _ & S2 & _).
    rewrite Ha in Ha'. rewrite Hb in Hb'. injection Ha' as <-. injection Hb' as <-. lia.
  - intros i [H1|H1]; [apply Hmax in H1 | apply Hmin in H1]; eapply Hin; eassumption.
  - intros i H1. apply Hmax in H1. destruct H1 as (a & b & c & Hi & Ha & Hb & Hc & S1 & S2).
    apply sign_pos in S1.
    destruct (zero_masked_values sm freq fmin _ a Ha) as [Ha0 _].
    destruct (zero_masked_values sm freq fmin _ b Hb) as [_ Hb1].
    apply Hb1. apply Qle_lt_trans with a; [exact Ha0|].
    apply Qlt_minus_iff. exact S1.
  - intros i H1. apply Hmin in H1. destruct H1 as (a & b & c & Hi & Ha & Hb & Hc & S1 & S2).
    apply sign_neg in S1. apply sign_pos in S2.
    destruct (zero_masked_values sm freq fmin _ b Hb) as [Hb0 _].
    destruct (zero_masked_values sm freq fmin _ a Ha) as [_ Ha1].
    destruct (zero_masked_values sm freq fmin _ c Hc) as [_ Hc1].
    destruct Ha1 as (f & Hf & Hff).
    { apply Qle_lt_trans with b; [exact Hb0|].
      apply Qlt_minus_iff in S1. apply Qlt_minus_iff.
      setoid_replace (a + - b)%Q with (0 + - (b - a))%Q by ring. exact S1. }
    destruct Hc1 as (g & Hg & Hgg).
    { apply Qle_lt_trans with b; [exact Hb0|]. apply Qlt_minus_iff. exact S2. }
    exists f, g. auto.
Qed.

Lemma X12_inflection_extrema_positions_witness :
  inflection hamming_rational ragged_profile five_frequencies (16 # 1000) fmin_default
  = Ok (IndexArray [1; 3], IndexArray [2]) /\
  StronglySorted Z.lt [1; 3] /\ StronglySorted Z.lt [2] /\
  (forall i, In i [1; 3] -> ~ In i [2]) /\
  (forall i, In i [1; 3] \/ In i [2] ->
     1 <= i /\ i + 1 < Z.of_nat (length five_frequencies)) /\
  (forall i, In i [1; 3] ->
     exists f, nth_error five_frequencies (Z.to_nat i) = Some f /\ (fmin_default <= f)%Q) /\
  (forall i, In i [2] ->
     exists f g, nth_error five_frequencies (Z.to_nat (i - 1)) = Some f /\
                 (fmin_default <= f)%Q /\
                 nth_error five_frequencies (Z.to_nat (i + 1)) = Some g /\
                 (fmin_default <= g)%Q).
Proof.
  assert (E : inflection hamming_rational ragged_profile five_frequencies (16 # 1000)
                fmin_default = Ok (IndexArray [1; 3], IndexArray [2]))
    by (vm_compute; reflexivity).
  exact (conj E (X12_inflection_extrema_positions _ _ _ _ _ _ _ E)).
Defined.

(** ** The basins of a grid with more than one energy value *)

Lemma get_nth_error {A : Type} (d : A) (l : list A) (b : Z) :
  inb (length l) b -> nth_error l (Z.to_nat b) = Some (get d l b).
Proof. intros Hb. unfold get. apply nth_error_nth'. unfold inb in Hb. lia. Qed.

Lemma nth_error_get {A : Type} (d : A) (l : list A) (b : Z) (v : A) :
  nth_error l (Z.to_nat b) = Some v -> get d l b = v.
Proof. intros H. unfold get. now apply nth_error_nth. Qed.

Lemma In_get {A : Type} (d : A) (l : list A) (x : A) :
  In x l -> exists b, inb (length l) b /\ get d l b = x.
Proof.
  intros H. apply (In_nth _ _ d) in H. destruct H as (k & Hk & E).
  exists (Z.of_nat k). split; [unfold inb; lia|]. unfold get. now rewrite Nat2Z.id.
Qed.

Lemma get_In {A : Type} (d : A) (l : list A) (b : Z) :
  inb (length l) b -> In (get d l b) l.
Proof. intros Hb. unfold get. apply nth_In. unfold inb in Hb. lia. Qed.

(** A bin that holds the maximum is at level 0. *)
Lemma lev_of_maximum (nan_to_int : Z) (flat : list Q) (zmin zmax : Q) (ihmax b : Z) :
  (zmin < zmax)%Q -> inb (length flat) b -> (get 0%Q flat b == zmax)%Q ->
  lev (levels nan_to_int (map (fun e => (- e + zmax)%Q) flat) ihmax zmin zmax) b = 0.
Proof.
  intros Hlt Hb E. rewrite lev_value by assumption.
  rewrite (get_map (fun e => (- e + zmax)%Q) 0%Q 0%Q) by exact Hb.
  rewrite (around_Qeq _ (inject_Z 0)); [apply around_inject_Z|].
  rewrite E. rewrite (Qplus_comm (- zmax)), Qplus_opp_r. apply Qmult_0_l.
Qed.

(** The extrema and the levels of a grid that holds two energies. *)
Lemma spectrum_levels_varying (nan_to_int : Z) (spectrum : array2 Q) (ihmax : Z) :
  varying (flatten spectrum) ->
  exists zmin zmax,
    amin (flatten spectrum) = Ok zmin /\ amax (flatten spectrum) = Ok zmax /\
    Forall (fun e => (zmin <= e)%Q) (flatten spectrum) /\
    Forall (fun e => (e <= zmax)%Q) (flatten spectrum) /\
    In zmax (flatten spectrum) /\ (zmin < zmax)%Q /\
    spectrum_levels nan_to_int spectrum ihmax
    = Ok (levels nan_to_int (map (fun e => (- e + zmax)%Q) (flatten spectrum))
            ihmax zmin zmax).
Proof.
  intros Hvar. pose proof (varying_two _ Hvar) as Htwo.
  assert (Hne : flatten spectrum <> []).
  { intros E. rewrite E in Htwo. cbn in Htwo. lia. }
  destruct (amin_lower_bound _ Hne) as (zmin & Emin & Hmin).
  destruct (amax_upper_bound _ Hne) as (zmax & Emax & Hmax).
  exists zmin, zmax. unfold spectrum_levels. rewrite Emin, Emax. cbn [bind].
  split; [reflexivity|]. split; [reflexivity|]. split; [exact Hmin|]. split; [exact Hmax|].
  split; [now apply amax_In|].
  split; [now apply (varying_range (flatten spectrum)) | reflexivity].
Qed.

(** What [specpart] returns on a grid that holds two energies, with [K] the
    number of basins that step 1 has found. *)
Lemma specpart_basins (nan_to_int : Z) (spectrum : array2 Q) (ihmax : Z) (imi : list Z) :
  well_shaped spectrum -> 1 <= ihmax -> varying (flatten spectrum) ->
  spectrum_levels nan_to_int spectrum ihmax = Ok imi ->
  exists labels K,
    specpart nan_to_int spectrum ihmax = Ok labels /\
    length (flatten labels) = length (flatten spectrum) /\
    (forall b, inb (length (flatten spectrum)) b -> 0 <= get 0 (flatten labels) b <= K) /\
    (forall k, 1 <= k <= K ->
       exists b, inb (length (flatten spectrum)) b /\ get 0 (flatten labels) b = k) /\
    (forall b, inb (length (flatten spectrum)) b -> lev imi b = 0 ->
       1 <= get 0 (flatten labels) b) /\
    (forall b, level_peak (length (flatten spectrum))
                 (ptnghb (nrows spectrum) (ncols spectrum)) imi b ->
       1 <= get 0 (flatten labels) b) /\
    (forall b b',
       level_peak (length (flatten spectrum))
         (ptnghb (nrows spectrum) (ncols spectrum)) imi b ->
       level_peak (length (flatten spectrum))
         (ptnghb (nrows spectrum) (ncols spectrum)) imi b' ->
       b' <> b -> get 0 (flatten labels) b' <> get 0 (flatten labels) b).
Proof.
  intros (Hnk & Hnth & Hsize) Hih Hvar Himi.
  pose proof (varying_two _ Hvar) as Htwo.
  destruct (spectrum_levels_varying nan_to_int spectrum ihmax Hvar)
    as (zmin & zmax & Emin & Emax & Hmin & Hmax & _ & Hlt & El).
  rewrite El in Himi. injection Himi as <-.
  set (flat := flatten spectrum) in *. set (n := length flat) in *.
  unfold size in Hsize.
  assert (Hnk1 : 1 <= nrows spectrum) by nia.
  assert (Hnth1 : 1 <= ncols spectrum) by nia.
  assert (Hn : Z.to_nat (nrows spectrum * ncols spectrum) = n) by lia.
  unfold specpart. fold flat. rewrite Emin, Emax. cbn [bind]. unfold label_bins.
  unfold size. rewrite <- Hsize.
  set (zp := map (fun e => (- e + zmax)%Q) flat).
  set (imi := levels nan_to_int zp ihmax zmin zmax).
  set (neigh := ptnghb (nrows spectrum) (ncols spectrum)).
  assert (Lzp : length zp = n) by (apply shifted_length).
  assert (Nl : length neigh = n) by (unfold neigh; now rewrite ptnghb_length).
  assert (Nv : forall b, inb n b -> Forall (inb n) (nbrs neigh b)).
  { rewrite <- Hn. apply ptnghb_valid; assumption. }
  destruct (all_levels_basins n neigh imi (argsort zp)) with (ihmax := ihmax)
    as (st & -> & Lst & Hst & Hsur & Htop & Hpk & Hapart).
  - exact Nl.
  - exact Nv.
  - rewrite <- Hn. apply ptnghb_sym; assumption.
  - intros b Hb. rewrite <- Hn in Hb. apply ptnghb_other; [assumption | assumption | lia | exact Hb].
  - unfold imi, zp. apply levels_length; assumption.
  - now rewrite argsort_length.
  - rewrite <- Lzp. apply argsort_valid.
  - rewrite <- Lzp. apply argsort_onto.
  - unfold imi, zp. apply lev_sorted; assumption.
  - lia.
  - unfold imi, zp. apply lev_bounds; assumption.
  - cbn [bind].
    destruct (relax_spec n neigh zp Nl Nv Lzp 5 (imo st) Lst) as (imo' & E' & L' & P').
    { apply Forall_get. rewrite Lst. intros b Hb. now apply Hst. }
    rewrite E'. cbn [bind].
    destruct (relax_keeps _ _ _ _ _ E') as (_ & Keep & Vals).
    assert (Same : forall b, inb n b -> 1 <= lab st b -> get 0 imo' b = lab st b).
    { intros b Hb Hl. apply nth_error_get. apply Keep; [|lia].
      apply get_nth_error. now rewrite Lst. }
    assert (H0 : inb n 0) by (unfold inb; lia).
    exists (reshape_like imo' spectrum), (ic_label st). cbn [reshape_like flatten].
    split; [reflexivity|]. split; [exact L'|]. split; [|split; [|split; [|split]]].
    + intros b Hb.
      destruct (Vals (get 0 imo' b)) as [->|Hin].
      * apply get_In. now rewrite L'.
      * pose proof (Hst 0 H0). lia.
      * destruct (In_get 0 _ _ Hin) as (x & Hx & <-). rewrite Lst in Hx.
        now apply Hst.
    + intros k Hk. destruct (Hsur k Hk) as (b & Hb & Hl).
      exists b. split; [exact Hb|]. rewrite Same; [exact Hl | exact Hb | lia].
    + intros b Hb Hl. pose proof (Htop b Hb Hl). rewrite Same; assumption.
    + intros b Pb. pose proof Pb as [Hb _]. pose proof (Hpk b Pb).
      rewrite Same; assumption.
    + intros b b' Pb Pb' Hne. pose proof Pb as [Hb _]. pose proof Pb' as [Hb' _].
      pose proof (Hpk b Pb). pose proof (Hpk b' Pb').
      rewrite !Same by assumption. now apply Hapart.
Qed.






